(** * mutagen: splice primitive and APEv2 flat-tag reader/writer

    A shallow embedding of [mutagen/_util.py] ([insert_bytes],
    [delete_bytes]) and [mutagen/apev2.py] ([_APEv2Data], [APEv2]) together
    with the properties the specification states about them.

    Python integers are unbounded, hence [Z].  A [bytes] value is a list of
    [Byte.byte].  A file object is a byte list with a current position;
    exceptions are values of [exn] carried by the [outcome] of a
    computation in the [io] monad. *)

From Stdlib Require Import ZArith Lia Bool Strings.String Strings.Ascii Strings.Byte List.
From Stdlib Require Import Sorting.Permutation.
Import ListNotations.
Open Scope Z_scope.

(** ** Byte strings with integer indices *)

Definition bytes := list byte.

Definition zlen {A : Type} (l : list A) : Z := Z.of_nat (length l).
Definition ztake {A : Type} (n : Z) (l : list A) : list A := firstn (Z.to_nat n) l.
Definition zdrop {A : Type} (n : Z) (l : list A) : list A := skipn (Z.to_nat n) l.

(** [b"\x00" * n]; empty when [n <= 0], as in Python. *)
Definition zeros (n : Z) : bytes := repeat x00 (Z.to_nat n).

Definition bytes_eqb (a b : bytes) : bool :=
  if list_eq_dec Byte.byte_eq_dec a b then true else false.

(** Lookup at an integer index; [None] outside the list. *)
Definition zget {A : Type} (l : list A) (i : Z) : option A :=
  if i <? 0 then None else nth_error l (Z.to_nat i).

(** ** Exceptions and the [io] monad *)

Inductive exn : Type :=
| AssertionError
| IOError
| ValueError
| StructError
| KeyError
| UnicodeDecodeError
| APENoHeaderError
| APEBadItemError.

(** [Diverge] is the result of a loop that was still running when its
    iteration budget ran out. *)
Inductive outcome (A : Type) : Type :=
| Ret (a : A)
| Raise (e : exn)
| Diverge.
Arguments Ret {A} a.
Arguments Raise {A} e.
Arguments Diverge {A}.

(** An open binary file.  [reads] logs every [read] call, oldest first, as
    (position, requested count). *)
Record fobj : Type := mkFobj {
  content : bytes;
  pos : Z;
  reads : list (Z * Z)
}.

Definition open_file (c : bytes) : fobj := mkFobj c 0 [].

(** A computation over a mutable state [S] that returns, raises or runs
    forever.  [io] is the instance whose state is the open file. *)
Definition M (S A : Type) : Type := S -> outcome A * S.
Definition io (A : Type) : Type := M fobj A.

Definition ret {S A : Type} (a : A) : M S A := fun f => (Ret a, f).
Definition raise {S A : Type} (e : exn) : M S A := fun f => (Raise e, f).
Definition diverge {S A : Type} : M S A := fun f => (Diverge, f).

Definition bind {S A B : Type} (m : M S A) (k : A -> M S B) : M S B :=
  fun f =>
    match m f with
    | (Ret a, f') => k a f'
    | (Raise e, f') => (Raise e, f')
    | (Diverge, f') => (Diverge, f')
    end.

Notation "x <- m ;; k" := (bind m (fun x => k))
  (at level 61, m at next level, right associativity).
Notation "m ;; k" := (bind m (fun _ => k))
  (at level 61, right associativity).

(** [try: m except <catch>: h] *)
Definition try_except {S A : Type} (m : M S A) (catch : exn -> bool) (h : M S A)
  : M S A :=
  fun f =>
    match m f with
    | (Raise e, f') => if catch e then h f' else (Raise e, f')
    | r => r
    end.

(** [try: m finally: fin] *)
Definition try_finally {S A : Type} (m : M S A) (fin : M S unit) : M S A :=
  fun f =>
    match m f with
    | (r, f') =>
        match fin f' with
        | (Ret _, f'') => (r, f'')
        | (Raise e, f'') => (Raise e, f'')
        | (Diverge, f'') => (Diverge, f'')
        end
    end.

(** ** File-object primitives (Python 3 buffered binary file) *)

(** [fobj.seek(off, whence)]: a negative target raises [IOError]; a target
    past the end is allowed. *)
Definition seek (off whence : Z) : io unit :=
  fun f =>
    let target :=
      if whence =? 0 then off
      else if whence =? 1 then pos f + off
      else zlen (content f) + off in
    if target <? 0 then (Raise IOError, f)
    else (Ret tt, mkFobj (content f) target (reads f)).

Definition tell : io Z := fun f => (Ret (pos f), f).

(** [fobj.read(n)]: at most [n] bytes from the current position; [n = -1]
    reads to end-of-file; [n < -1] raises [ValueError]. *)
Definition read (n : Z) : io bytes :=
  fun f =>
    if n <? -1 then (Raise ValueError, f)
    else
      let rest := zdrop (pos f) (content f) in
      let data := if n =? -1 then rest else ztake n rest in
      (Ret data, mkFobj (content f) (pos f + zlen data) (reads f ++ [(pos f, n)])).

(** Contents after writing [d] at position [p]: a gap between end-of-file
    and [p] is filled with zero bytes. *)
Definition write_at (c : bytes) (p : Z) (d : bytes) : bytes :=
  ztake p (c ++ zeros (p - zlen c)) ++ d ++ zdrop (p + zlen d) c.

(** [fobj.write(d)]; writing nothing changes nothing. *)
Definition write (d : bytes) : io unit :=
  fun f =>
    match d with
    | [] => (Ret tt, f)
    | _ => (Ret tt, mkFobj (write_at (content f) (pos f) d) (pos f + zlen d) (reads f))
    end.

Definition resize (c : bytes) (n : Z) : bytes := ztake n (c ++ zeros (n - zlen c)).

(** [fobj.truncate(n)]; [None] stands for [fobj.truncate()], which cuts at
    the current position.  The position does not move. *)
Definition truncate (n : option Z) : io unit :=
  fun f =>
    let n := match n with Some n => n | None => pos f end in
    if n <? 0 then (Raise IOError, f)
    else (Ret tt, mkFobj (resize (content f) n) (pos f) (reads f)).

Definition flush : io unit := ret tt.

(** ** Platform facilities used by the splice primitive *)

(** Whether [mmap] can map the file and whether [fcntl.lockf] takes the
    lock. *)
Record platform : Type := mkPlatform {
  has_mmap : bool;
  has_fcntl : bool
}.

(** [lock(fobj)]: never an error; tells whether the lock was taken. *)
Definition lock (pf : platform) : io bool := ret (has_fcntl pf).
Definition unlock : io unit := ret tt.

(** [mmap.mmap(fobj.fileno(), length)] followed by
    [memmap.move(dest, src, count)] and [memmap.close()].  Mapping raises an
    [EnvironmentError] (here [IOError]) where it is unavailable; [move]
    raises [ValueError] when a range leaves the mapping. *)
Definition mmap_move (pf : platform) (length dest src count : Z) : io unit :=
  fun f =>
    if negb (has_mmap pf) then (Raise IOError, f)
    else if (dest <? 0) || (src <? 0) || (count <? 0)
            || (length - dest <? count) || (length - src <? count)
    then (Raise ValueError, f)
    else
      let c := content f in
      (Ret tt,
       mkFobj (ztake dest c ++ ztake count (zdrop src c) ++ zdrop (dest + count) c)
              (pos f) (reads f)).

Definition mmap_errors (e : exn) : bool :=
  match e with ValueError | IOError => true | _ => false end.

(** ** [insert_bytes] *)

(** [while padsize: ...] *)
Fixpoint insert_pad (fuel : nat) (BUFFER_SIZE padsize : Z) : io unit :=
  if padsize =? 0 then ret tt
  else
    match fuel with
    | O => diverge
    | S fuel' =>
        let addsize := Z.min BUFFER_SIZE padsize in
        write (zeros addsize) ;;
        insert_pad fuel' BUFFER_SIZE (padsize - addsize)
    end.

(** [while movesize: ...] *)
Fixpoint insert_move (fuel : nat) (BUFFER_SIZE size movesize : Z) : io unit :=
  if movesize =? 0 then ret tt
  else
    match fuel with
    | O => diverge
    | S fuel' =>
        let thismove := Z.min BUFFER_SIZE movesize in
        seek (- thismove) 1 ;;
        nextpos <- tell ;;
        data <- read thismove ;;
        seek (- thismove + size) 1 ;;
        write data ;;
        seek nextpos 0 ;;
        insert_move fuel' BUFFER_SIZE size (movesize - thismove)
    end.

Definition insert_fallback (pf : platform) (BUFFER_SIZE size filesize movesize : Z)
  : io unit :=
  locked <- lock pf ;;
  try_finally
    (truncate (Some filesize) ;;
     seek 0 2 ;;
     insert_pad (Z.to_nat size) BUFFER_SIZE size ;;
     seek filesize 0 ;;
     insert_move (Z.to_nat (Z.abs movesize)) BUFFER_SIZE size movesize ;;
     flush)
    (if locked : bool then unlock else ret tt).

Definition insert_bytes (pf : platform) (size offset BUFFER_SIZE : Z) : io unit :=
  if negb (0 <? size) then raise AssertionError
  else if negb (0 <=? offset) then raise AssertionError
  else
    seek 0 2 ;;
    filesize <- tell ;;
    let movesize := filesize - offset in
    write (zeros size) ;;
    flush ;;
    try_except
      (mmap_move pf (filesize + size) (offset + size) offset movesize)
      mmap_errors
      (insert_fallback pf BUFFER_SIZE size filesize movesize).

(** ** [delete_bytes] *)

(** [while buf: ...] *)
Fixpoint delete_move (fuel : nat) (BUFFER_SIZE size offset : Z) (buf : bytes) : io unit :=
  match buf with
  | [] => ret tt
  | _ =>
      match fuel with
      | O => diverge
      | S fuel' =>
          seek offset 0 ;;
          write buf ;;
          let offset := offset + zlen buf in
          seek (offset + size) 0 ;;
          buf' <- read BUFFER_SIZE ;;
          delete_move fuel' BUFFER_SIZE size offset buf'
      end
  end.

Definition delete_fallback (pf : platform) (BUFFER_SIZE size offset filesize : Z)
  : io unit :=
  locked <- lock pf ;;
  try_finally
    (seek (offset + size) 0 ;;
     buf <- read BUFFER_SIZE ;;
     delete_move (Z.to_nat filesize) BUFFER_SIZE size offset buf)
    (if locked : bool then unlock else ret tt).

Definition delete_bytes (pf : platform) (size offset BUFFER_SIZE : Z) : io unit :=
  if negb (0 <? size) then raise AssertionError
  else if negb (0 <=? offset) then raise AssertionError
  else
    seek 0 2 ;;
    filesize <- tell ;;
    let movesize := filesize - offset - size in
    if negb (0 <=? movesize) then raise AssertionError
    else
      (if 0 <? movesize then
         flush ;;
         try_except
           (mmap_move pf filesize offset (offset + size) movesize)
           mmap_errors
           (delete_fallback pf BUFFER_SIZE size offset filesize)
       else ret tt) ;;
      truncate (Some (filesize - size)) ;;
      flush.

Definition DEFAULT_BUFFER_SIZE : Z := 2 ^ 16.


(** ** What a splice leaves in the file *)

(** Contents after inserting [size] bytes at [offset]: the tail moves up by
    [size]; the gap keeps whatever the padded file held there. *)
Definition inserted (c : bytes) (size offset : Z) : bytes :=
  ztake (offset + size) (c ++ zeros size) ++ zdrop offset c.

(** Contents after deleting [size] bytes at [offset]. *)
Definition deleted (c : bytes) (size offset : Z) : bytes :=
  ztake offset c ++ zdrop (offset + size) c.


(** * [mutagen/apev2.py] *)

(** ** Little-endian fields: [cdata.uint_le] and [struct_pack] *)

Definition byte_val (b : byte) : Z := Z.of_N (Byte.to_N b).

Definition byte_of_Z (n : Z) : byte :=
  match Byte.of_N (Z.to_N (n mod 256)) with
  | Some b => b
  | None => x00
  end.

(** [struct.unpack('<I', data)[0]]: [None] stands for [struct.error], raised
    unless [data] has exactly four bytes. *)
Definition uint_le (data : bytes) : option Z :=
  match data with
  | [b0; b1; b2; b3] =>
      Some (byte_val b0 + 256 * byte_val b1 + 65536 * byte_val b2
            + 16777216 * byte_val b3)
  | _ => None
  end.

(** One [I] field of [struct.pack('<...')]: [None] stands for
    [struct.error], raised when the value does not fit 32 bits. *)
Definition pack_uint_le (n : Z) : option bytes :=
  if (0 <=? n) && (n <? 2 ^ 32) then
    Some [byte_of_Z n; byte_of_Z (n / 256); byte_of_Z (n / 65536);
          byte_of_Z (n / 16777216)]
  else None.

Definition lift_struct {S A : Type} (o : option A) : M S A :=
  match o with
  | Some a => ret a
  | None => raise StructError
  end.

Definition APETAGEX : bytes := list_byte_of_string "APETAGEX".

Definition HAS_HEADER : Z := Z.shiftl 1 31.
Definition HAS_NO_FOOTER : Z := Z.shiftl 1 30.
Definition IS_HEADER : Z := Z.shiftl 1 29.

(** [struct_pack("<8s 4I 8x", b"APETAGEX", version, size, items, flags)] *)
Definition pack_tag_header (version size items flags : Z) : option bytes :=
  match pack_uint_le version, pack_uint_le size, pack_uint_le items,
        pack_uint_le flags with
  | Some v, Some s, Some i, Some fl => Some (APETAGEX ++ v ++ s ++ i ++ fl ++ zeros 8)
  | _, _, _, _ => None
  end.

(** ** [int(b)] on a byte string, base 10

    Python's built-in: optional surrounding ASCII white space, an optional
    sign, then decimal digits in which single underscores may separate
    digits.  [None] stands for [ValueError]. *)

Definition is_space (b : byte) : bool :=
  let n := byte_val b in ((9 <=? n) && (n <=? 13)) || (n =? 32).

Definition is_digit (b : byte) : bool :=
  let n := byte_val b in (48 <=? n) && (n <=? 57).

Fixpoint lstrip (l : bytes) : bytes :=
  match l with
  | b :: r => if is_space b then lstrip r else l
  | [] => []
  end.

Definition strip (l : bytes) : bytes := rev (lstrip (rev (lstrip l))).

Fixpoint int_digits (acc : Z) (after_digit : bool) (l : bytes) : option Z :=
  match l with
  | [] => if after_digit then Some acc else None
  | b :: r =>
      if is_digit b then int_digits (10 * acc + (byte_val b - 48)) true r
      else if (byte_val b =? 95) && after_digit then int_digits acc false r
      else None
  end.

Definition py_int (data : bytes) : option Z :=
  match strip data with
  | b :: r =>
      if byte_val b =? 45 then option_map Z.opp (int_digits 0 false r)
      else if byte_val b =? 43 then int_digits 0 false r
      else int_digits 0 false (b :: r)
  | [] => None
  end.

(** ** [_APEv2Data]: where the tag lies in the file *)

Record APEv2Data : Type := mkData {
  start : option Z;
  header : option Z;
  data : option Z;
  footer : option Z;
  end_ : option Z;
  metadata : option Z;
  tag : option bytes;
  version : option bytes;
  size : option Z;
  items : option Z;
  flags : Z;
  is_at_start : bool
}.

(** The class attributes every instance starts from. *)
Definition new_data : APEv2Data :=
  mkData None None None None None None None None None None 0 false.

Definition set_start (d : APEv2Data) (v : option Z) : APEv2Data :=
  mkData v (header d) (data d) (footer d) (end_ d) (metadata d) (tag d)
         (version d) (size d) (items d) (flags d) (is_at_start d).
Definition set_header (d : APEv2Data) (v : option Z) : APEv2Data :=
  mkData (start d) v (data d) (footer d) (end_ d) (metadata d) (tag d)
         (version d) (size d) (items d) (flags d) (is_at_start d).
Definition set_data (d : APEv2Data) (v : option Z) : APEv2Data :=
  mkData (start d) (header d) v (footer d) (end_ d) (metadata d) (tag d)
         (version d) (size d) (items d) (flags d) (is_at_start d).
Definition set_footer (d : APEv2Data) (v : option Z) : APEv2Data :=
  mkData (start d) (header d) (data d) v (end_ d) (metadata d) (tag d)
         (version d) (size d) (items d) (flags d) (is_at_start d).
Definition set_end (d : APEv2Data) (v : option Z) : APEv2Data :=
  mkData (start d) (header d) (data d) (footer d) v (metadata d) (tag d)
         (version d) (size d) (items d) (flags d) (is_at_start d).
Definition set_metadata (d : APEv2Data) (v : option Z) : APEv2Data :=
  mkData (start d) (header d) (data d) (footer d) (end_ d) v (tag d)
         (version d) (size d) (items d) (flags d) (is_at_start d).
Definition set_tag (d : APEv2Data) (v : option bytes) : APEv2Data :=
  mkData (start d) (header d) (data d) (footer d) (end_ d) (metadata d) v
         (version d) (size d) (items d) (flags d) (is_at_start d).
Definition set_fields (d : APEv2Data) (v : bytes) (s i fl : Z) : APEv2Data :=
  mkData (start d) (header d) (data d) (footer d) (end_ d) (metadata d) (tag d)
         (Some v) (Some s) (Some i) fl (is_at_start d).
Definition set_is_at_start (d : APEv2Data) (v : bool) : APEv2Data :=
  mkData (start d) (header d) (data d) (footer d) (end_ d) (metadata d) (tag d)
         (version d) (size d) (items d) (flags d) v.

Definition is_IOError (e : exn) : bool :=
  match e with IOError => true | _ => false end.

(** The body of the second [try] of [__find_metadata]: [Some self] when it
    executes [return], [None] when control falls out of the block. *)
Definition find_before_id3v1 (self : APEv2Data) : io (option APEv2Data) :=
  seek (-128) 2 ;;
  t <- read 3 ;;
  if bytes_eqb t (list_byte_of_string "TAG") then
    seek (-35) 1 ;;
    c <- read 8 ;;
    if bytes_eqb c APETAGEX then
      seek (-8) 1 ;;
      p <- tell ;;
      ret (Some (set_footer self (Some p)))
    else
      seek 15 1 ;;
      l <- read 9 ;;
      if bytes_eqb l (list_byte_of_string "LYRICS200") then
        seek (-15) 1 ;;
        d <- read 6 ;;
        match py_int d with
        | None => raise IOError
        | Some offset =>
            seek (-32 - offset - 6) 1 ;;
            c' <- read 8 ;;
            if bytes_eqb c' APETAGEX then
              seek (-8) 1 ;;
              p <- tell ;;
              ret (Some (set_footer self (Some p)))
            else ret None
        end
      else ret None
  else ret None.

(** [_APEv2Data.__find_metadata] *)
Definition find_metadata (self : APEv2Data) : io APEv2Data :=
  sought <- try_except (seek (-32) 2 ;; ret true) is_IOError (seek 0 2 ;; ret false) ;;
  if negb sought then ret self
  else
    c <- read 8 ;;
    if bytes_eqb c APETAGEX then
      seek (-8) 1 ;;
      p <- tell ;;
      ret (set_metadata (set_footer self (Some p)) (Some p))
    else
      r <- try_except (find_before_id3v1 self) is_IOError (ret None) ;;
      match r with
      | Some self' => ret self'
      | None =>
          seek 0 0 ;;
          c0 <- read 8 ;;
          if bytes_eqb c0 APETAGEX then
            ret (set_header (set_is_at_start self true) (Some 0))
          else ret self
      end.

(** [_APEv2Data.__fill_missing]; [metadata] is set by the caller. *)
Definition fill_missing (self : APEv2Data) (metadata : Z) : io APEv2Data :=
  seek (metadata + 8) 0 ;;
  v <- read 4 ;;
  b <- read 4 ;; sz <- lift_struct (uint_le b) ;;
  b <- read 4 ;; n <- lift_struct (uint_le b) ;;
  b <- read 4 ;; fl <- lift_struct (uint_le b) ;;
  let self := set_fields self v sz n fl in
  match header self, footer self with
  | Some h, _ =>
      let self := set_data self (Some (h + 32)) in
      let e := h + 32 + sz in
      let self := set_end self (Some e) in
      seek (e - 32) 0 ;;
      c <- read 8 ;;
      if bytes_eqb c APETAGEX then ret (set_footer self (Some (e - 32)))
      else ret self
  | None, Some ft =>
      let e := ft + 32 in
      let self := set_end self (Some e) in
      let d := e - sz in
      let self := set_data self (Some d) in
      if Z.land fl HAS_HEADER =? 0 then ret (set_header self (Some d))
      else ret (set_header self (Some (d - 32)))
  | None, None => raise APENoHeaderError
  end.

(** The [while start > 0] loop of [__fix_brokenness]; the result is the
    final [start]. *)
Fixpoint fix_brokenness_loop (fuel : nat) (start : Z) : io Z :=
  if 0 <? start then
    match fuel with
    | O => diverge
    | S fuel' =>
        moved <- try_except (seek (-24) 1 ;; ret true) is_IOError (ret false) ;;
        if negb moved then ret start
        else
          c <- read 8 ;;
          if bytes_eqb c APETAGEX then
            seek (-8) 1 ;;
            start' <- tell ;;
            fix_brokenness_loop fuel' start'
          else ret start
    end
  else ret start.

(** [_APEv2Data.__fix_brokenness].  After [__fill_missing] both [header]
    and [data] are set, so [start] is an integer. *)
Definition fix_brokenness (self : APEv2Data) : io APEv2Data :=
  match (match header self with Some h => Some h | None => data self end) with
  | Some start0 =>
      seek start0 0 ;;
      start' <- fix_brokenness_loop (Z.to_nat start0) start0 ;;
      ret (set_start self (Some start'))
  | None => raise ValueError
  end.

Definition max_offset (a b : option Z) : option Z :=
  match a, b with
  | Some x, Some y => Some (Z.max x y)
  | Some x, None => Some x
  | None, Some y => Some y
  | None, None => None
  end.

(** [_APEv2Data.__init__] *)
Definition APEv2Data_init : io APEv2Data :=
  self <- find_metadata new_data ;;
  match max_offset (header self) (footer self) with
  | None => ret self
  | Some m =>
      let self := set_metadata self (Some m) in
      self <- fill_missing self m ;;
      self <- fix_brokenness self ;;
      match data self, size self with
      | Some d, Some sz =>
          seek d 0 ;;
          t <- read sz ;;
          ret (set_tag self (Some t))
      | _, _ => ret self
      end
  end.

(** ** Text

    A Python [str] is modelled by a [string] whose characters are the code
    points below 256.  Keys that pass [is_valid_apev2_key] are ASCII, so
    every key the tag ever stores is covered. *)

Definition char_code (c : ascii) : Z := Z.of_N (N_of_ascii c).

(** [s.encode('utf-8')] *)
Definition encode_char (c : ascii) : bytes :=
  let n := char_code c in
  if n <? 128 then [byte_of_Z n]
  else [byte_of_Z (192 + n / 64); byte_of_Z (128 + n mod 64)].

Fixpoint encode_utf8 (s : string) : bytes :=
  match s with
  | EmptyString => []
  | String c r => encode_char c ++ encode_utf8 r
  end.

(** The result of [b.decode('utf-8')]: a string of the model, a string with
    a code point above 255, or [UnicodeDecodeError]. *)
Inductive decoded : Type :=
| DecStr (s : string)
| DecWide
| DecErr.

Definition dec_cons (c : ascii) (d : decoded) : decoded :=
  match d with
  | DecStr s => DecStr (String c s)
  | other => other
  end.

Definition dec_wide (d : decoded) : decoded :=
  match d with
  | DecErr => DecErr
  | _ => DecWide
  end.

Definition in_range (lo hi n : Z) : bool := (lo <=? n) && (n <=? hi).

(** Strict UTF-8: shortest forms only, no surrogates, nothing above
    U+10FFFF. *)
Fixpoint decode_utf8 (l : bytes) : decoded :=
  match l with
  | [] => DecStr EmptyString
  | b0 :: r0 =>
      let n0 := byte_val b0 in
      if n0 <? 128 then dec_cons (ascii_of_N (Z.to_N n0)) (decode_utf8 r0)
      else
        match r0 with
        | [] => DecErr
        | b1 :: r1 =>
            let n1 := byte_val b1 in
            if in_range 194 223 n0 then
              if in_range 128 191 n1 then
                if n0 <=? 195 then
                  dec_cons (ascii_of_N (Z.to_N ((n0 - 192) * 64 + (n1 - 128))))
                           (decode_utf8 r1)
                else dec_wide (decode_utf8 r1)
              else DecErr
            else
              match r1 with
              | [] => DecErr
              | b2 :: r2 =>
                  let n2 := byte_val b2 in
                  if ((n0 =? 224) && in_range 160 191 n1
                      || in_range 225 236 n0 && in_range 128 191 n1
                      || (n0 =? 237) && in_range 128 159 n1
                      || in_range 238 239 n0 && in_range 128 191 n1)
                  then
                    if in_range 128 191 n2 then dec_wide (decode_utf8 r2) else DecErr
                  else
                    match r2 with
                    | [] => DecErr
                    | b3 :: r3 =>
                        let n3 := byte_val b3 in
                        if ((n0 =? 240) && in_range 144 191 n1
                            || in_range 241 243 n0 && in_range 128 191 n1
                            || (n0 =? 244) && in_range 128 143 n1)
                           && in_range 128 191 n2 && in_range 128 191 n3
                        then dec_wide (decode_utf8 r3)
                        else DecErr
                    end
              end
        end
  end.

(** [c.lower()] on the code points below 256. *)
Definition lower_char (c : ascii) : ascii :=
  let n := char_code c in
  if in_range 65 90 n || (in_range 192 222 n && negb (n =? 215))
  then ascii_of_N (Z.to_N (n + 32))
  else c.

Fixpoint lower (s : string) : string :=
  match s with
  | EmptyString => EmptyString
  | String c r => String (lower_char c) (lower r)
  end.

(** [utf8(data)] for a [str] argument. *)
Definition utf8 (s : string) : bytes := encode_utf8 s.

Definition bytes_min (l : bytes) : Z :=
  fold_right (fun b m => Z.min (byte_val b) m) 255 l.
Definition bytes_max (l : bytes) : Z :=
  fold_right (fun b m => Z.max (byte_val b) m) 0 l.

Definition reserved_keys : list bytes :=
  map list_byte_of_string ["OggS"; "TAG"; "ID3"; "MP+"]%string.

Definition is_valid_apev2_key (key : string) : bool :=
  let key := utf8 key in
  (2 <=? zlen key) && (zlen key <=? 255)
  && (32 <=? bytes_min key) && (bytes_max key <=? 126)
  && negb (existsb (bytes_eqb key) reserved_keys).

(** ** Tag values *)

Inductive value_kind : Type := TEXT | BINARY | EXTERNAL.

Definition kind_code (k : value_kind) : Z :=
  match k with TEXT => 0 | BINARY => 1 | EXTERNAL => 2 end.

Record APEValue_t : Type := mkValue {
  kind : value_kind;
  value : bytes
}.

(** The factory [APEValue(value, kind)]. *)
Definition APEValue {S : Type} (value : bytes) (kind : Z) : M S APEValue_t :=
  if kind =? 0 then ret (mkValue TEXT value)
  else if kind =? 1 then ret (mkValue BINARY value)
  else if kind =? 2 then ret (mkValue EXTERNAL value)
  else raise ValueError.

(** [_APEValue._internal(key)]; [None] stands for [struct.error]. *)
Definition internal (v : APEValue_t) (key : string) : option bytes :=
  match pack_uint_le (zlen (value v)), pack_uint_le (Z.shiftl (kind_code (kind v)) 1) with
  | Some l, Some k => Some (l ++ k ++ encode_utf8 key ++ [x00] ++ value v)
  | _, _ => None
  end.

(** ** Python dictionaries, in insertion order *)

Definition pydict (V : Type) : Type := list (string * V).

Fixpoint dict_get {V : Type} (d : pydict V) (k : string) : option V :=
  match d with
  | [] => None
  | (k', v) :: r => if String.eqb k' k then Some v else dict_get r k
  end.

(** [d[k] = v]: an existing key keeps its place. *)
Fixpoint dict_set {V : Type} (d : pydict V) (k : string) (v : V) : pydict V :=
  match d with
  | [] => [(k, v)]
  | (k', v') :: r =>
      if String.eqb k' k then (k', v) :: r else (k', v') :: dict_set r k v
  end.

(** [del d[k]]; [None] stands for [KeyError]. *)
Fixpoint dict_del {V : Type} (d : pydict V) (k : string) : option (pydict V) :=
  match d with
  | [] => None
  | (k', v') :: r =>
      if String.eqb k' k then Some r
      else option_map (cons (k', v')) (dict_del r k)
  end.

Definition dict_keys {V : Type} (d : pydict V) : list string := map fst d.

(** ** [APEv2]: the tag mapping *)

Record APEv2 : Type := mkTag {
  casemap : pydict string;
  dict_ : pydict APEValue_t
}.

Definition new_tag : APEv2 := mkTag [] [].

(** What a caller may assign to a key. *)
Inductive pyvalue : Type :=
| PyValue (v : APEValue_t)
| PyStr (s : string)
| PyList (l : list string)
| PyBytes (b : bytes).

(** [bytearray([0]).join(parts)] *)
Fixpoint join_nul (parts : list bytes) : bytes :=
  match parts with
  | [] => []
  | [p] => p
  | p :: r => p ++ [x00] ++ join_nul r
  end.

(** [APEv2.__getitem__] *)
Definition getitem (key : string) : M APEv2 APEValue_t :=
  fun self =>
    if negb (is_valid_apev2_key key) then (Raise KeyError, self)
    else
      match dict_get (dict_ self) (lower key) with
      | Some v => (Ret v, self)
      | None => (Raise KeyError, self)
      end.

(** [APEv2.__delitem__] *)
Definition delitem (key : string) : M APEv2 unit :=
  fun self =>
    if negb (is_valid_apev2_key key) then (Raise KeyError, self)
    else
      match dict_del (dict_ self) (lower key) with
      | Some d => (Ret tt, mkTag (casemap self) d)
      | None => (Raise KeyError, self)
      end.

(** The guess of [__setitem__] at what kind of value was meant.  On bytes
    that decode, [utf8(value)] gives the bytes back. *)
Definition guess_value (v : pyvalue) : M APEv2 APEValue_t :=
  match v with
  | PyValue v => ret v
  | PyStr s => APEValue (utf8 s) (kind_code TEXT)
  | PyList l => APEValue (join_nul (map utf8 l)) (kind_code TEXT)
  | PyBytes b =>
      match decode_utf8 b with
      | DecErr => APEValue b (kind_code BINARY)
      | _ => APEValue b (kind_code TEXT)
      end
  end.

(** [APEv2.__setitem__] *)
Definition setitem (key : string) (v : pyvalue) : M APEv2 unit :=
  if negb (is_valid_apev2_key key) then raise KeyError
  else
    v' <- guess_value v ;;
    fun self =>
      (Ret tt, mkTag (dict_set (casemap self) (lower key) key)
                     (dict_set (dict_ self) (lower key) v')).

(** [APEv2.keys] *)
Definition keys (self : APEv2) : list string :=
  map (fun key => match dict_get (casemap self) key with
                  | Some k => k
                  | None => key
                  end)
      (dict_keys (dict_ self)).

(** [list(map(f, l))] for an [f] that may raise. *)
Fixpoint mapM {S A B : Type} (f : A -> M S B) (l : list A) : M S (list B) :=
  match l with
  | [] => ret []
  | a :: r => b <- f a ;; bs <- mapM f r ;; ret (b :: bs)
  end.

(** [DictMixin.values], [DictMixin.items], [DictMixin.clear] *)
Definition values : M APEv2 (list APEValue_t) :=
  fun self => mapM getitem (keys self) self.

Definition tag_items : M APEv2 (list (string * APEValue_t)) :=
  fun self => (vs <- values ;; ret (combine (keys self) vs)) self.

Definition clear : M APEv2 unit :=
  fun self => (mapM delitem (keys self) ;; ret tt) self.

Definition casemap_clear : M APEv2 unit :=
  fun self => (Ret tt, mkTag [] (dict_ self)).

(** The key loop of [__parse_tag]: bytes up to and including the first NUL,
    or up to the end of the data; second component: what is left to read. *)
Fixpoint read_key (l : bytes) : bytes * bytes :=
  match l with
  | [] => ([], [])
  | b :: r =>
      if Byte.eqb b x00 then ([b], r)
      else let (k, r') := read_key r in (b :: k, r')
  end.

(** [if key[-1:] == b"\x00": key = key[:-1]] *)
Definition chop_nul (key : bytes) : bytes :=
  match rev key with
  | b :: r => if Byte.eqb b x00 then rev r else key
  | [] => key
  end.

(** [self[key.decode()] = v]; a decoded key with a code point above 255 is
    not ASCII, so [__setitem__] rejects it. *)
Definition setitem_decoded (key : bytes) (v : APEValue_t) : M APEv2 unit :=
  match decode_utf8 key with
  | DecErr => raise UnicodeDecodeError
  | DecWide => raise KeyError
  | DecStr k => setitem k (PyValue v)
  end.

(** [APEv2.__parse_tag]: [rest] is what the [BytesIO] has left to read,
    [count] the number of iterations still to run. *)
Fixpoint parse_items (count : nat) (rest : bytes) : M APEv2 unit :=
  match count with
  | O => ret tt
  | S count' =>
      sz <- lift_struct (uint_le (ztake 4 rest)) ;;
      let rest := zdrop 4 rest in
      fl <- lift_struct (uint_le (ztake 4 rest)) ;;
      let rest := zdrop 4 rest in
      let kind := Z.shiftr (Z.land fl 6) 1 in
      if kind =? 3 then raise APEBadItemError
      else
        let (key, rest) := read_key rest in
        let key := chop_nul key in
        let val := ztake sz rest in
        let rest := zdrop sz rest in
        v <- APEValue val kind ;;
        setitem_decoded key v ;;
        parse_items count' rest
  end.

Definition parse_tag (tag : bytes) (count : Z) : M APEv2 unit :=
  parse_items (Z.to_nat count) tag.

(** Run a file computation on a freshly opened file and keep its result. *)
Definition with_file {S A : Type} (c : bytes) (m : io A) : M S A :=
  fun s =>
    match m (open_file c) with
    | (Ret a, _) => (Ret a, s)
    | (Raise e, _) => (Raise e, s)
    | (Diverge, _) => (Diverge, s)
    end.

(** [APEv2.load], on a file whose contents are [c]. *)
Definition load (c : bytes) : M APEv2 unit :=
  d <- with_file c APEv2Data_init ;;
  match tag d, items d with
  | Some (b :: t), Some n =>
      clear ;;
      casemap_clear ;;
      parse_tag (b :: t) n
  | _, _ => raise APENoHeaderError
  end.

(** [sorted(l, key=key)]: stable insertion, smallest key first. *)
Fixpoint insert_by {A : Type} (key : A -> Z) (x : A) (l : list A) : list A :=
  match l with
  | [] => [x]
  | y :: r => if key x <=? key y then x :: y :: r else y :: insert_by key x r
  end.

Fixpoint sorted_by {A : Type} (key : A -> Z) (l : list A) : list A :=
  match l with
  | [] => []
  | x :: r => insert_by key x (sorted_by key r)
  end.

(** Lift a computation that only reads the tag into a file computation. *)
Definition of_tag {A : Type} (self : APEv2) (m : M APEv2 A) : io A :=
  fun f =>
    match m self with
    | (Ret a, _) => (Ret a, f)
    | (Raise e, _) => (Raise e, f)
    | (Diverge, _) => (Diverge, f)
    end.

(** [(v._internal(k) for k, v in self.items())] *)
Fixpoint internal_all (l : list (string * APEValue_t)) : option (list bytes) :=
  match l with
  | [] => Some []
  | (k, v) :: r =>
      match internal v k, internal_all r with
      | Some b, Some bs => Some (b :: bs)
      | _, _ => None
      end
  end.

(** [APEv2.save], on the open file. *)
Definition save (pf : platform) (self : APEv2) : io unit :=
  d <- APEv2Data_init ;;
  (if is_at_start d then
     match end_ d, start d with
     | Some e, Some s => delete_bytes pf (e - s) s DEFAULT_BUFFER_SIZE
     | _, _ => raise ValueError
     end
   else
     match start d with
     | Some s => seek s 0 ;; truncate None
     | None => ret tt
     end) ;;
  seek 0 2 ;;
  its <- of_tag self tag_items ;;
  tags <- lift_struct (internal_all its) ;;
  let tags := sorted_by zlen tags in
  let num_tags := zlen tags in
  let tags := concat tags in
  hd <- lift_struct (pack_tag_header 2000 (zlen tags + 32) num_tags
                       (Z.lor HAS_HEADER IS_HEADER)) ;;
  write hd ;;
  write tags ;;
  ft <- lift_struct (pack_tag_header 2000 (zlen tags + 32) num_tags HAS_HEADER) ;;
  write ft.

(** The file part of [APEv2.delete]; the method then clears the mapping. *)
Definition delete_tag (pf : platform) : io unit :=
  d <- APEv2Data_init ;;
  match start d, size d with
  | Some s, Some _ =>
      match end_ d with
      | Some e => delete_bytes pf (e - s) s DEFAULT_BUFFER_SIZE
      | None => raise ValueError
      end
  | _, _ => ret tt
  end.

(** ** The locator as the specification words it *)

(** The magic cookie lies at offset [p] of [c]. *)
Definition cookie_at (c : bytes) (p : Z) : bool :=
  (0 <=? p) && bytes_eqb (ztake 8 (zdrop p c)) APETAGEX.

(** The marker [m] lies at offset [p] of [c]. *)
Definition marker_at (c : bytes) (p : Z) (m : string) : bool :=
  (0 <=? p)
  && bytes_eqb (ztake (zlen (list_byte_of_string m)) (zdrop p c)) (list_byte_of_string m).

Inductive location : Type :=
| FooterAt (p : Z)
| TagAtStart
| NoTagFound.

(** The footer behind a legacy trailer.  With [n] the file length: an
    ID3v1 trailer at [n - 128] sends the search 35 bytes back from the end
    of its 3-byte marker, to [n - 160], a slot the file must be long enough
    to have; failing the cookie there, a Lyrics3v2 marker ending at the
    trailer, with its 6-digit size field [off] just before it, sends the
    search to [n - 175 - off].  The size field is read as [int] reads it. *)
Definition footer_behind_trailer (c : bytes) : option Z :=
  let n := zlen c in
  if marker_at c (n - 128) "TAG" && (160 <=? n) then
    if cookie_at c (n - 160) then Some (n - 160)
    else if marker_at c (n - 137) "LYRICS200" then
      match py_int (ztake 6 (zdrop (n - 143) c)) with
      | Some off => if cookie_at c (n - 175 - off) then Some (n - 175 - off) else None
      | None => None
      end
    else None
  else None.

(** Candidate positions in the order of the specification, first success
    wins: the footer slot 32 bytes before the end, the footer behind a
    legacy trailer, offset 0. *)
Definition locate (c : bytes) : location :=
  if cookie_at c (zlen c - 32) then FooterAt (zlen c - 32)
  else
    match footer_behind_trailer c with
    | Some p => FooterAt p
    | None => if cookie_at c 0 then TagAtStart else NoTagFound
    end.

(** The instance [__find_metadata] produces on a file of at least 32
    bytes. *)
Definition found (c : bytes) : APEv2Data :=
  if cookie_at c (zlen c - 32) then
    set_metadata (set_footer new_data (Some (zlen c - 32))) (Some (zlen c - 32))
  else
    match footer_behind_trailer c with
    | Some p => set_footer new_data (Some p)
    | None =>
        if cookie_at c 0 then set_header (set_is_at_start new_data true) (Some 0)
        else new_data
    end.

(** What [__find_metadata] leaves in the instance for a location. *)
Definition located_as (l : location) (d : APEv2Data) : Prop :=
  match l with
  | FooterAt p => footer d = Some p /\ header d = None /\ is_at_start d = false
  | TagAtStart => header d = Some 0 /\ footer d = None /\ is_at_start d = true
  | NoTagFound => header d = None /\ footer d = None /\ is_at_start d = false
  end.

(** The reads the trailer stage makes, in order: the trailer marker, the
    footer slot before it, the lyrics marker, its size field, the footer
    slot before the lyrics block.  Each is made only when the one before
    it did not settle the search. *)
Definition trailer_probes (c : bytes) : list (Z * Z) :=
  let n := zlen c in
  if 0 <=? n - 128 then
    (n - 128, 3) ::
    (if marker_at c (n - 128) "TAG" && (160 <=? n) then
       (n - 160, 8) ::
       (if cookie_at c (n - 160) then []
        else
          (n - 137, 9) ::
          (if marker_at c (n - 137) "LYRICS200" then
             (n - 143, 6) ::
             match py_int (ztake 6 (zdrop (n - 143) c)) with
             | Some off => if 0 <=? n - 175 - off then [(n - 175 - off, 8)] else []
             | None => []
             end
           else []))
     else [])
  else [].

(** All reads of the locator, in order, as (offset, length): the footer
    slot first; the trailer stage only if the cookie was not there;
    offset 0 only if the trailer stage found nothing either. *)
Definition probes (c : bytes) : list (Z * Z) :=
  let n := zlen c in
  (n - 32, 8) ::
  (if cookie_at c (n - 32) then []
   else
     trailer_probes c ++
     match footer_behind_trailer c with
     | Some _ => []
     | None => [(0, 8)]
     end).

(** The locator follows the specified order on the file [c]: what it
    reports is the first success in that order, the positions it reads are
    the candidates in that order up to the first success, and when nothing
    is found loading fails with the no-tag error. *)
Definition locator_follows_order (c : bytes) : Prop :=
  exists d f',
    find_metadata new_data (open_file c) = (Ret d, f') /\
    located_as (locate c) d /\
    reads f' = probes c /\
    (locate c = NoTagFound -> fst (load c new_tag) = Raise APENoHeaderError).

(** The locator gives up on [c] before it reads anything: nothing is
    located, no position has been examined, and loading fails with the
    no-tag error. *)
Definition locator_gives_up (c : bytes) : Prop :=
  exists f',
    find_metadata new_data (open_file c) = (Ret new_data, f') /\
    reads f' = [] /\
    fst (load c new_tag) = Raise APENoHeaderError.

(** The cookie lies at offset [p], wholly within the last 32 bytes of
    [c]. *)
Definition cookie_in_last_32 (c : bytes) (p : Z) : Prop :=
  zlen c - 32 <= p /\ p + 8 <= zlen c /\ cookie_at c p = true.

(** The locator settles on a footer found at the end of [c]: a footer is
    set, [is_at_start] is false, and the one read it made is that of the
    footer slot, so the start of the file was not examined. *)
Definition resolved_by_footer (c : bytes) : Prop :=
  exists d f',
    find_metadata new_data (open_file c) = (Ret d, f') /\
    footer d <> None /\ is_at_start d = false /\
    reads f' = [(zlen c - 32, 8)].

(** The value [__setitem__] stores for what the caller assigned. *)
Definition guessed (v : pyvalue) : APEValue_t :=
  match v with
  | PyValue v => v
  | PyStr s => mkValue TEXT (utf8 s)
  | PyList l => mkValue TEXT (join_nul (map utf8 l))
  | PyBytes b =>
      match decode_utf8 b with
      | DecErr => mkValue BINARY b
      | _ => mkValue TEXT b
      end
  end.

(** ** What [save] writes *)

(** Header, items sorted by length, footer; [None] when an item or a field
    cannot be packed or the items cannot be listed. *)
Definition rendered (self : APEv2) : option bytes :=
  match fst (tag_items self) with
  | Ret its =>
      match internal_all its with
      | Some enc =>
          let tags := sorted_by zlen enc in
          match pack_tag_header 2000 (zlen (concat tags) + 32) (zlen tags)
                                (Z.lor HAS_HEADER IS_HEADER),
                pack_tag_header 2000 (zlen (concat tags) + 32) (zlen tags) HAS_HEADER
          with
          | Some hd, Some ft => Some (hd ++ concat tags ++ ft)
          | _, _ => None
          end
      | None => None
      end
  | _ => None
  end.

(** The file without the span the locator found: a tag at the start is cut
    out; otherwise everything from its start on goes, a legacy trailer
    behind it included. *)
Definition without_tag (c : bytes) (d : APEv2Data) : bytes :=
  match start d, end_ d with
  | Some s, Some e => if is_at_start d then ztake s c ++ zdrop e c else ztake s c
  | _, _ => c
  end.

(** The pairs [self.items()] lists when nothing raises: each stored value
    under the casing its key reports. *)
Definition items_of (t : APEv2) : list (string * APEValue_t) :=
  combine (keys t) (map snd (dict_ t)).

(** The packed form of one item; empty where [_internal] raises. *)
Definition packed (it : string * APEValue_t) : bytes :=
  match internal (snd it) (fst it) with
  | Some b => b
  | None => []
  end.

(** ** The mapping invariant *)

(** The stored keys are pairwise distinct, and each is the folded form of
    the legal key it was last written under, which [casemap] remembers. *)
Definition tag_inv (t : APEv2) : Prop :=
  NoDup (dict_keys (dict_ t)) /\
  forall k, In k (dict_keys (dict_ t)) ->
    exists ck, dict_get (casemap t) k = Some ck /\ lower ck = k
               /\ is_valid_apev2_key ck = true.

(** [for key, value in writes: self[key] = value] *)
Fixpoint set_all (writes : list (string * pyvalue)) : M APEv2 unit :=
  match writes with
  | [] => ret tt
  | (k, v) :: r => setitem k v ;; set_all r
  end.

(** ** Notions the proofs are phrased with *)

(** A file computation that leaves the contents as they were. *)
Definition readonly {A : Type} (m : io A) : Prop :=
  forall f r f', m f = (r, f') -> content f' = content f.

(** A computation on the mapping that keeps [tag_inv], however it ends. *)
Definition preserves {A : Type} (m : M APEv2 A) : Prop :=
  forall t r t', tag_inv t -> m t = (r, t') -> tag_inv t'.

(** What [save] does once the old tag is out of the way. *)
Definition save_tail (self : APEv2) : io unit :=
  seek 0 2 ;;
  its <- of_tag self tag_items ;;
  tags <- lift_struct (internal_all its) ;;
  let tags := sorted_by zlen tags in
  let num_tags := zlen tags in
  let tags := concat tags in
  hd <- lift_struct (pack_tag_header 2000 (zlen tags + 32) num_tags
                       (Z.lor HAS_HEADER IS_HEADER)) ;;
  write hd ;;
  write tags ;;
  ft <- lift_struct (pack_tag_header 2000 (zlen tags + 32) num_tags HAS_HEADER) ;;
  write ft.

(** Every character of the key is printable ASCII. *)
Definition ascii_key (k : string) : Prop :=
  Forall (fun c => 32 <= char_code c <= 126) (list_ascii_of_string k).

(** [for key, value in its: self[key] = value], with ready-made values. *)
Fixpoint set_items (its : list (string * APEValue_t)) : M APEv2 unit :=
  match its with
  | [] => ret tt
  | (k, v) :: r => setitem k (PyValue v) ;; set_items r
  end.

(** The casing a stored key is reported under. *)
Definition cased (t : APEv2) (key : string) : string :=
  match dict_get (casemap t) key with
  | Some k => k
  | None => key
  end.

(** ** Sample files *)

(** An empty tag as [save] writes it: header and footer, no items. *)
Definition empty_tag_bytes : bytes :=
  content (snd (save (mkPlatform true true) new_tag (open_file []))).

(** Ten bytes of audio, two stray 24-byte header remains, then a tag. *)
Definition stray_header_file : bytes :=
  list_byte_of_string "audio-data"
  ++ (APETAGEX ++ zeros 16) ++ (APETAGEX ++ zeros 16)
  ++ empty_tag_bytes.

(** A tag at the start of the file, audio behind it. *)
Definition tag_at_start_file : bytes :=
  empty_tag_bytes ++ list_byte_of_string "audio-data".

(** Audio followed by a bare ID3v1 trailer. *)
Definition id3v1_only_file : bytes :=
  list_byte_of_string "audio-data" ++ list_byte_of_string "TAG" ++ zeros 125.

(** A 159-byte file: the cookie at offset 0, a Lyrics3v2 marker whose size
    field reads -16, and an ID3v1 trailer 128 bytes before the end.  The
    footer slot 35 bytes back from the end of the trailer marker would
    start at offset -1. *)
Definition short_trailer_file : bytes :=
  APETAGEX ++ zeros 8 ++ list_byte_of_string "   -16"
  ++ list_byte_of_string "LYRICS200" ++ list_byte_of_string "TAG" ++ zeros 125.

(** The cookie at offset 0 and in the last 8 bytes, none in the footer
    slot 32 bytes before the end. *)
Definition cookie_at_tail_file : bytes :=
  APETAGEX ++ zeros 48 ++ APETAGEX.

(** The cookie at offset 0 and at the head of the footer slot. *)
Definition cookie_at_both_ends_file : bytes :=
  APETAGEX ++ zeros 24 ++ APETAGEX ++ zeros 24.

(** The mapping after [tag["Artist"] = "X"]. *)
Definition artist_tag : APEv2 := snd (setitem "Artist" (PyStr "X") new_tag).

(** * [struct_unpack], [struct_pack] and [cdata] *)

(** The byte-order marks [<] and [>] and the integer codes [h H i I q Q]
    the [cdata] conversions use. *)
Inductive byte_order := LittleEndian | BigEndian.
Inductive ctype := Short | UShort | Int | UInt | LongLong | ULongLong.

(** [struct_calcsize] of one code under a standard byte order *)
Definition struct_calcsize (t : ctype) : Z :=
  match t with
  | Short | UShort => 2
  | Int | UInt => 4
  | LongLong | ULongLong => 8
  end.

Definition is_signed (t : ctype) : bool :=
  match t with
  | Short | Int | LongLong => true
  | UShort | UInt | ULongLong => false
  end.

Definition ctype_min (t : ctype) : Z :=
  if is_signed t then - 2 ^ (8 * struct_calcsize t - 1) else 0.
Definition ctype_max (t : ctype) : Z :=
  if is_signed t then 2 ^ (8 * struct_calcsize t - 1) else 2 ^ (8 * struct_calcsize t).

Fixpoint unsigned_le (l : bytes) : Z :=
  match l with
  | [] => 0
  | b :: r => byte_val b + 256 * unsigned_le r
  end.

Fixpoint to_unsigned_le (n : nat) (v : Z) : bytes :=
  match n with
  | O => []
  | S k => byte_of_Z v :: to_unsigned_le k (v / 256)
  end.

Definition in_order (o : byte_order) (l : bytes) : bytes :=
  match o with
  | LittleEndian => l
  | BigEndian => rev l
  end.

(** [struct_unpack(fmt, buf)[0]] for a one-code format: [None] stands for
    [struct.error], raised unless [buf] has the size of the code.  A signed
    code reads the bytes in two's complement. *)
Definition struct_unpack (o : byte_order) (t : ctype) (buf : bytes) : option Z :=
  if zlen buf =? struct_calcsize t then
    let u := unsigned_le (in_order o buf) in
    Some (if is_signed t && (2 ^ (8 * struct_calcsize t - 1) <=? u)
          then u - 2 ^ (8 * struct_calcsize t) else u)
  else None.

(** [struct_pack(fmt, v)] for a one-code format and an integer: [None]
    stands for [struct.error], raised when [v] does not fit the code. *)
Definition struct_pack (o : byte_order) (t : ctype) (v : Z) : option bytes :=
  if (ctype_min t <=? v) && (v <? ctype_max t) then
    Some (in_order o (to_unsigned_le (Z.to_nat (struct_calcsize t))
                        (v mod 2 ^ (8 * struct_calcsize t))))
  else None.

Definition zrange (n : nat) : list Z := map Z.of_nat (seq 0 n).

Module cdata.

Definition short_le := struct_unpack LittleEndian Short.
Definition ushort_le := struct_unpack LittleEndian UShort.
Definition short_be := struct_unpack BigEndian Short.
Definition ushort_be := struct_unpack BigEndian UShort.
Definition int_le := struct_unpack LittleEndian Int.
Definition uint_le := struct_unpack LittleEndian UInt.
Definition int_be := struct_unpack BigEndian Int.
Definition uint_be := struct_unpack BigEndian UInt.
Definition longlong_le := struct_unpack LittleEndian LongLong.
Definition ulonglong_le := struct_unpack LittleEndian ULongLong.
Definition longlong_be := struct_unpack BigEndian LongLong.
Definition ulonglong_be := struct_unpack BigEndian ULongLong.

Definition to_short_le := struct_pack LittleEndian Short.
Definition to_ushort_le := struct_pack LittleEndian UShort.
Definition to_short_be := struct_pack BigEndian Short.
Definition to_ushort_be := struct_pack BigEndian UShort.
Definition to_int_le := struct_pack LittleEndian Int.
Definition to_uint_le := struct_pack LittleEndian UInt.
Definition to_int_be := struct_pack BigEndian Int.
Definition to_uint_be := struct_pack BigEndian UInt.
Definition to_longlong_le := struct_pack LittleEndian LongLong.
Definition to_ulonglong_le := struct_pack LittleEndian ULongLong.
Definition to_longlong_be := struct_pack BigEndian LongLong.
Definition to_ulonglong_be := struct_pack BigEndian ULongLong.

(** [sum([((val >> i) & 1) << (7-i) for i in range(8)])] *)
Definition bitswap_entry (val : Z) : Z :=
  fold_right Z.add 0
    (map (fun i => Z.shiftl (Z.land (Z.shiftr val i) 1) (7 - i)) (zrange 8)).

(** The table [bitswap]: one entry for each [val] in [range(256)]. *)
Definition bitswap : bytes :=
  map (fun val => byte_of_Z (bitswap_entry val)) (zrange 256).

(** [bool((value >> n) & 1)]: [None] stands for the [ValueError] of a
    negative shift count. *)
Definition test_bit (value n : Z) : option bool :=
  if n <? 0 then None
  else Some (negb (Z.land (Z.shiftr value n) 1 =? 0)).

End cdata.

(** * [DictMixin]: the dict API on top of four methods *)

(** What [DictMixin] asks of a class: [__getitem__], [__setitem__],
    [__delitem__] and [keys()].  [G] is what a lookup returns, [V] what may
    be assigned. *)
Record mapping (S K G V : Type) : Type := mkMapping {
  getitem_of : K -> M S G;
  setitem_of : K -> V -> M S unit;
  delitem_of : K -> M S unit;
  keys_of : S -> list K
}.

Arguments mkMapping {S K G V}.
Arguments getitem_of {S K G V}.
Arguments setitem_of {S K G V}.
Arguments delitem_of {S K G V}.
Arguments keys_of {S K G V}.

Definition is_KeyError (e : exn) : bool :=
  match e with
  | KeyError => true
  | _ => false
  end.

Module DictMixin.
Section Methods.

Context {S K G V : Type} (self : mapping S K G V).

(** [has_key], which is also [__contains__] *)
Definition has_key (key : K) : M S bool :=
  try_except (getitem_of self key ;; ret true) is_KeyError (ret false).

(** [__iter__] and [iterkeys] run over [list(self.keys())]. *)
Definition iterkeys : M S (list K) :=
  fun s => (Ret (keys_of self s), s).

Definition values : M S (list G) :=
  fun s => mapM (getitem_of self) (keys_of self s) s.

Definition items : M S (list (K * G)) :=
  fun s => (vs <- values ;; ret (combine (keys_of self s) vs)) s.

Definition clear : M S unit :=
  fun s => (mapM (delitem_of self) (keys_of self s) ;; ret tt) s.

(** [pop(key, *args)] with no or one further argument; the result is
    the stored value ([inl]) or [args[0]] ([inr]). *)
Definition pop {D : Type} (key : K) (args : option D) : M S (G + D) :=
  r <- try_except (value <- getitem_of self key ;; ret (inl value)) is_KeyError
         (match args with
          | Some d => ret (inr d)
          | None => raise KeyError
          end) ;;
  match r with
  | inl value => delitem_of self key ;; ret (inl value)
  | inr d => ret (inr d)
  end.

(** [popitem]: the [IndexError] of [list(self.keys())[0]] on an empty
    list becomes a [KeyError]. *)
Definition popitem : M S (K * G) :=
  fun s =>
    match keys_of self s with
    | [] => (Raise KeyError, s)
    | key :: _ =>
        (r <- pop key (@None Empty_set) ;;
         match r with
         | inl value => ret (key, value)
         | inr d => match d with end
         end) s
    end.

(** [self[key] = value] for each pair in turn: what [update] does with the
    keys and values of a dict, and with an iterable of pairs. *)
Fixpoint update_pairs (other : list (K * V)) : M S unit :=
  match other with
  | [] => ret tt
  | (key, value) :: r => setitem_of self key value ;; update_pairs r
  end.

(** [update(other=None, **kwargs)] *)
Definition update (other : option (list (K * V))) (kwargs : list (K * V))
  : M S unit :=
  match other with
  | None => update_pairs kwargs ;; update_pairs []
  | Some o => update_pairs o
  end.

(** [setdefault(key, default)]: the stored value ([inl]) or [default]
    itself ([inr]). *)
Definition setdefault (key : K) (default : V) : M S (G + V) :=
  try_except (value <- getitem_of self key ;; ret (inl value)) is_KeyError
    (setitem_of self key default ;; ret (inr default)).

(** [get(key, default)] *)
Definition get {D : Type} (key : K) (default : D) : M S (G + D) :=
  try_except (value <- getitem_of self key ;; ret (inl value)) is_KeyError
    (ret (inr default)).

(** [__len__] *)
Definition len : M S Z :=
  fun s => (Ret (zlen (keys_of self s)), s).

End Methods.
End DictMixin.

(** [APEv2] as a [DictMixin] *)
Definition APEv2_mapping : mapping APEv2 string APEValue_t pyvalue :=
  mkMapping getitem setitem delitem keys.

(** [DictProxy]: a [DictMixin] over a plain dict, here with string keys. *)
Module DictProxy.
Section Methods.

Context {V : Type}.

Definition init : pydict V := [].

Definition getitem (key : string) : M (pydict V) V :=
  fun d =>
    match dict_get d key with
    | Some v => (Ret v, d)
    | None => (Raise KeyError, d)
    end.

Definition setitem (key : string) (value : V) : M (pydict V) unit :=
  fun d => (Ret tt, dict_set d key value).

Definition delitem (key : string) : M (pydict V) unit :=
  fun d =>
    match dict_del d key with
    | Some d' => (Ret tt, d')
    | None => (Raise KeyError, d)
    end.

Definition keys (d : pydict V) : list string := dict_keys d.

Definition as_mapping : mapping (pydict V) string V V :=
  mkMapping getitem setitem delitem keys.

End Methods.
End DictProxy.

(** * [APETextValue]: a text value as a list of strings *)

(** What a method of a text value gives: a result, a text with a code
    point above 255, which the strings here do not hold, or one of the two
    exceptions the methods can raise. *)
Inductive text_outcome (A : Type) : Type :=
| Text (a : A)
| WideText
| RaisedUnicodeDecodeError
| RaisedIndexError.

Arguments Text {A}.
Arguments WideText {A}.
Arguments RaisedUnicodeDecodeError {A}.
Arguments RaisedIndexError {A}.

Definition is_nul (c : ascii) : bool := char_code c =? 0.

(** [s.split("\0")] *)
Fixpoint split_nul (s : string) : list string :=
  match s with
  | EmptyString => [EmptyString]
  | String c r =>
      if is_nul c then EmptyString :: split_nul r
      else
        match split_nul r with
        | h :: t => String c h :: t
        | [] => [String c EmptyString]
        end
  end.

(** ["\0".join(values)] *)
Fixpoint join_str_nul (values : list string) : string :=
  match values with
  | [] => EmptyString
  | [s] => s
  | s :: r => (s ++ String zero (join_str_nul r))%string
  end.

(** The place [l[index]] names: a negative index counts from the end;
    [None] stands for [IndexError]. *)
Definition list_index {A : Type} (l : list A) (index : Z) : option nat :=
  if (0 <=? index) && (index <? zlen l) then Some (Z.to_nat index)
  else if (- zlen l <=? index) && (index <? 0) then Some (Z.to_nat (zlen l + index))
  else None.

(** [l[index] = x] at a place inside the list *)
Fixpoint list_assign {A : Type} (l : list A) (n : nat) (x : A) : list A :=
  match l, n with
  | [], _ => []
  | _ :: r, O => x :: r
  | a :: r, S k => a :: list_assign r k x
  end.

(** [value.count(b"\0")] *)
Fixpoint count_nul (l : bytes) : Z :=
  match l with
  | [] => 0
  | b :: r => (if Byte.eqb b x00 then 1 else 0) + count_nul r
  end.

Module APETextValue.

(** [__str__] *)
Definition str (self : APEValue_t) : decoded := decode_utf8 (value self).

(** [__iter__], as the list it runs over *)
Definition iter (self : APEValue_t) : text_outcome (list string) :=
  match str self with
  | DecStr s => Text (split_nul s)
  | DecWide => WideText
  | DecErr => RaisedUnicodeDecodeError
  end.

(** [__getitem__] *)
Definition getitem (self : APEValue_t) (index : Z) : text_outcome string :=
  match iter self with
  | Text l =>
      match list_index l index with
      | Some n => Text (nth n l EmptyString)
      | None => RaisedIndexError
      end
  | WideText => WideText
  | RaisedUnicodeDecodeError => RaisedUnicodeDecodeError
  | RaisedIndexError => RaisedIndexError
  end.

(** [__len__] *)
Definition len (self : APEValue_t) : Z := count_nul (value self) + 1.

(** [__setitem__]: the value object after the assignment *)
Definition setitem (self : APEValue_t) (index : Z) (s : string)
  : text_outcome APEValue_t :=
  match iter self with
  | Text values =>
      match list_index values index with
      | Some n =>
          Text (mkValue (kind self)
                  (encode_utf8 (join_str_nul (list_assign values n s))))
      | None => RaisedIndexError
      end
  | WideText => WideText
  | RaisedUnicodeDecodeError => RaisedUnicodeDecodeError
  | RaisedIndexError => RaisedIndexError
  end.

End APETextValue.

(** A string without a NUL character. *)
Definition nul_free (s : string) : Prop :=
  Forall (fun c => is_nul c = false) (list_ascii_of_string s).

(** * [APEv2.delete] and [APEv2File.score] *)

(** [APEv2.delete]: the tag is cut out of the file, then the mapping is
    cleared.  The state is the mapping together with the file. *)
Definition APEv2_delete (pf : platform) : M (APEv2 * fobj) unit :=
  fun st =>
    let (self, f) := st in
    match delete_tag pf f with
    | (Ret _, f') =>
        let (r, self') := clear self in (r, (self', f'))
    | (Raise e, f') => (Raise e, (self, f'))
    | (Diverge, f') => (Diverge, (self, f'))
    end.

(** [l.startswith(prefix)] *)
Fixpoint startswith (l prefix : bytes) : bool :=
  match prefix, l with
  | [], _ => true
  | _ :: _, [] => false
  | p :: ps, b :: r => Byte.eqb b p && startswith r ps
  end.

(** [needle in l] *)
Fixpoint contains (l needle : bytes) : bool :=
  startswith l needle ||
  match l with
  | [] => false
  | _ :: r => contains r needle
  end.

(** [APEv2File.score]; the file name plays no part in the result. *)
Definition score (header : bytes) : io Z :=
  try_except (seek (-160) 2) is_IOError (seek 0 0) ;;
  footer <- read (-1) ;;
  ret ((if contains footer APETAGEX then 1 else 0)
       - (if startswith header (list_byte_of_string "ID3") then 1 else 0)).

(** * Byte-list toolkit: integer-indexed lookup and extensionality *)

Lemma zlen_nonneg {A : Type} (l : list A) : 0 <= zlen l.
Proof. unfold zlen; lia. Qed.

Lemma zlen_nil {A : Type} : zlen (@nil A) = 0.
Proof. reflexivity. Qed.

Lemma zlen_cons {A : Type} (a : A) (l : list A) : zlen (a :: l) = 1 + zlen l.
Proof. unfold zlen; simpl length; lia. Qed.

Lemma zlen_app {A : Type} (a b : list A) : zlen (a ++ b) = zlen a + zlen b.
Proof. unfold zlen; rewrite length_app; lia. Qed.

Lemma zlen_ztake {A : Type} (n : Z) (l : list A) :
  zlen (ztake n l) = Z.max 0 (Z.min n (zlen l)).
Proof. unfold zlen, ztake; rewrite length_firstn; lia. Qed.

Lemma zlen_zdrop {A : Type} (n : Z) (l : list A) :
  zlen (zdrop n l) = Z.max 0 (zlen l - Z.max 0 n).
Proof. unfold zlen, zdrop; rewrite length_skipn; lia. Qed.

Lemma zlen_zeros (n : Z) : zlen (zeros n) = Z.max 0 n.
Proof. unfold zlen, zeros; rewrite repeat_length; lia. Qed.

Lemma zget_app {A : Type} (a b : list A) (i : Z) :
  zget (a ++ b) i = if i <? zlen a then zget a i else zget b (i - zlen a).
Proof.
  unfold zget, zlen.
  destruct (Z.ltb_spec i 0) as [Hi|Hi].
  - destruct (Z.ltb_spec i (Z.of_nat (length a))); [reflexivity|lia].
  - destruct (Z.ltb_spec i (Z.of_nat (length a))) as [H|H].
    + apply nth_error_app1; lia.
    + destruct (Z.ltb_spec (i - Z.of_nat (length a)) 0); [lia|].
      rewrite nth_error_app2 by lia. f_equal; lia.
Qed.

Lemma zget_ztake {A : Type} (n : Z) (l : list A) (i : Z) :
  zget (ztake n l) i = if i <? n then zget l i else None.
Proof.
  unfold zget, ztake.
  destruct (Z.ltb_spec i 0) as [Hi|Hi]; [destruct (i <? n); reflexivity|].
  rewrite nth_error_firstn.
  destruct (Z.ltb_spec i n) as [H|H];
    destruct (Nat.ltb_spec (Z.to_nat i) (Z.to_nat n)); try reflexivity; lia.
Qed.

Lemma zget_zdrop {A : Type} (n : Z) (l : list A) (i : Z) :
  zget (zdrop n l) i = if i <? 0 then None else zget l (i + Z.max 0 n).
Proof.
  unfold zget, zdrop.
  destruct (Z.ltb_spec i 0) as [Hi|Hi]; [reflexivity|].
  destruct (Z.ltb_spec (i + Z.max 0 n) 0); [lia|].
  rewrite nth_error_skipn. f_equal; lia.
Qed.

Lemma zget_zeros (n i : Z) :
  zget (zeros n) i = if (0 <=? i) && (i <? n) then Some x00 else None.
Proof.
  unfold zget, zeros.
  destruct (Z.ltb_spec i 0) as [Hi|Hi].
  - destruct (Z.leb_spec 0 i); [lia|reflexivity].
  - destruct (Z.leb_spec 0 i); [|lia]. simpl.
    destruct (Z.ltb_spec i n).
    + apply nth_error_repeat; lia.
    + apply nth_error_None. rewrite repeat_length; lia.
Qed.

Lemma zget_none {A : Type} (l : list A) (i : Z) : zlen l <= i -> zget l i = None.
Proof.
  unfold zget, zlen; intros H. destruct (i <? 0); [reflexivity|].
  apply nth_error_None; lia.
Qed.

Lemma zget_neg {A : Type} (l : list A) (i : Z) : i < 0 -> zget l i = None.
Proof. unfold zget; intros H. destruct (Z.ltb_spec i 0); [reflexivity|lia]. Qed.

Lemma zget_ext {A : Type} (l1 l2 : list A) :
  (forall i, zget l1 i = zget l2 i) -> l1 = l2.
Proof.
  intros H. apply nth_error_ext. intros n.
  specialize (H (Z.of_nat n)). unfold zget in H.
  destruct (Z.ltb_spec (Z.of_nat n) 0); [lia|].
  now rewrite Nat2Z.id in H.
Qed.

Lemma zget_nil {A : Type} (i : Z) : zget (@nil A) i = None.
Proof. unfold zget. destruct (i <? 0); [reflexivity|]. now destruct (Z.to_nat i). Qed.

Lemma zget_eq_index {A : Type} (l : list A) (i j : Z) : i = j -> zget l i = zget l j.
Proof. now intros ->. Qed.

(** Decide an equation between byte lists built from [++], [ztake],
    [zdrop] and [zeros] by comparing them index by index. *)
Ltac zget_norm :=
  repeat (rewrite ?zget_app, ?zget_ztake, ?zget_zdrop, ?zget_zeros,
            ?zlen_app, ?zlen_ztake, ?zlen_zdrop, ?zlen_zeros, ?zlen_cons, ?zget_nil;
          repeat match goal with
            | |- context [zlen (@nil ?A)] => change (zlen (@nil A)) with 0
            end).

Ltac zlia := unfold zlen in *; lia.

Ltac zget_close :=
  first [ reflexivity
        | exfalso; zlia
        | apply zget_eq_index; zlia
        | rewrite !zget_none by zlia; reflexivity
        | symmetry; apply zget_none; zlia
        | apply zget_none; zlia
        | rewrite !zget_neg by zlia; reflexivity ].

Ltac zminmax :=
  repeat match goal with
    | |- context [Z.max ?a ?b] =>
        first [ rewrite (Z.max_r a b) by zlia | rewrite (Z.max_l a b) by zlia ]
    | |- context [Z.min ?a ?b] =>
        first [ rewrite (Z.min_l a b) by zlia | rewrite (Z.min_r a b) by zlia ]
    end.

Ltac zget_split :=
  repeat match goal with
    | |- context [?a <? ?b] =>
        destruct (Z.ltb_spec a b); try (exfalso; zlia); zminmax
    | |- context [?a <=? ?b] =>
        destruct (Z.leb_spec a b); try (exfalso; zlia); zminmax
    end; simpl andb.

Ltac list_ext :=
  apply zget_ext; intro; zget_norm; zminmax; zget_split; try zget_close.

Lemma ztake_all {A : Type} (n : Z) (l : list A) : zlen l <= n -> ztake n l = l.
Proof. unfold ztake, zlen; intros H. apply firstn_all2; lia. Qed.

Lemma zdrop_0 {A : Type} (n : Z) (l : list A) : n <= 0 -> zdrop n l = l.
Proof. unfold zdrop; intros H. replace (Z.to_nat n) with O by lia. reflexivity. Qed.

Lemma zdrop_all {A : Type} (n : Z) (l : list A) : zlen l <= n -> zdrop n l = [].
Proof. unfold zdrop, zlen; intros H. apply skipn_all2; lia. Qed.

Lemma ztake_0 {A : Type} (n : Z) (l : list A) : n <= 0 -> ztake n l = [].
Proof. unfold ztake; intros H. replace (Z.to_nat n) with O by lia. reflexivity. Qed.

Lemma ztake_zdrop {A : Type} (n : Z) (l : list A) : ztake n l ++ zdrop n l = l.
Proof. apply firstn_skipn. Qed.

Lemma ztake_app_exact {A : Type} (a b : list A) : ztake (zlen a) (a ++ b) = a.
Proof. list_ext. Qed.

Lemma zdrop_app_exact {A : Type} (a b : list A) : zdrop (zlen a) (a ++ b) = b.
Proof. pose proof (zlen_nonneg a). list_ext. Qed.

Lemma zlen_zero_nil {A : Type} (l : list A) : zlen l = 0 -> l = [].
Proof. unfold zlen; destruct l; simpl; [reflexivity|lia]. Qed.

(** * Running the file primitives *)

Lemma bind_ret {S A B : Type} (m : M S A) (k : A -> M S B) (f f' : S) (a : A) :
  m f = (Ret a, f') -> bind m k f = k a f'.
Proof. unfold bind; now intros ->. Qed.

Lemma bind_raise {S A B : Type} (m : M S A) (k : A -> M S B) (f f' : S) (e : exn) :
  m f = (Raise e, f') -> bind m k f = (Raise e, f').
Proof. unfold bind; now intros ->. Qed.

Lemma seek_set_ok (off : Z) (f : fobj) :
  0 <= off -> seek off 0 f = (Ret tt, mkFobj (content f) off (reads f)).
Proof. unfold seek; simpl; intros H. destruct (Z.ltb_spec off 0); [lia|reflexivity]. Qed.

Lemma seek_cur_ok (off : Z) (f : fobj) :
  0 <= pos f + off -> seek off 1 f = (Ret tt, mkFobj (content f) (pos f + off) (reads f)).
Proof. unfold seek; simpl; intros H. destruct (Z.ltb_spec (pos f + off) 0); [lia|reflexivity]. Qed.

Lemma seek_end_ok (off : Z) (f : fobj) :
  0 <= zlen (content f) + off ->
  seek off 2 f = (Ret tt, mkFobj (content f) (zlen (content f) + off) (reads f)).
Proof.
  unfold seek; simpl; intros H.
  destruct (Z.ltb_spec (zlen (content f) + off) 0); [lia|reflexivity].
Qed.

Lemma seek_cur_fail (off : Z) (f : fobj) :
  pos f + off < 0 -> seek off 1 f = (Raise IOError, f).
Proof. unfold seek; simpl; intros H. destruct (Z.ltb_spec (pos f + off) 0); [reflexivity|lia]. Qed.

Lemma seek_end_fail (off : Z) (f : fobj) :
  zlen (content f) + off < 0 -> seek off 2 f = (Raise IOError, f).
Proof.
  unfold seek; simpl; intros H.
  destruct (Z.ltb_spec (zlen (content f) + off) 0); [reflexivity|lia].
Qed.

Lemma read_ok (n : Z) (f : fobj) :
  0 <= n ->
  read n f = (Ret (ztake n (zdrop (pos f) (content f))),
              mkFobj (content f) (pos f + zlen (ztake n (zdrop (pos f) (content f))))
                     (reads f ++ [(pos f, n)])).
Proof.
  unfold read; intros H.
  destruct (Z.ltb_spec n (-1)); [lia|].
  destruct (Z.eqb_spec n (-1)); [lia|reflexivity].
Qed.

Lemma write_ok (d : bytes) (f : fobj) :
  0 < zlen d \/ 0 <= pos f <= zlen (content f) ->
  write d f = (Ret tt, mkFobj (write_at (content f) (pos f) d) (pos f + zlen d) (reads f)).
Proof.
  unfold write; intros H. destruct d as [|b d]; [|reflexivity].
  destruct H as [H|H]; [unfold zlen in H; simpl in H; lia|].
  destruct f as [c p r]; simpl in *. f_equal. f_equal.
  - unfold write_at. list_ext.
  - change (zlen (@nil byte)) with 0; lia.
Qed.

Lemma truncate_ok (n : Z) (f : fobj) :
  0 <= n -> truncate (Some n) f = (Ret tt, mkFobj (resize (content f) n) (pos f) (reads f)).
Proof. unfold truncate; intros H. destruct (Z.ltb_spec n 0); [lia|reflexivity]. Qed.

Lemma write_at_end (c d : bytes) : write_at c (zlen c) d = c ++ d.
Proof.
  unfold write_at. pose proof (zlen_nonneg c). pose proof (zlen_nonneg d). list_ext.
Qed.

Lemma write_at_inside (c d : bytes) (p : Z) :
  0 <= p -> p + zlen d <= zlen c ->
  write_at c p d = ztake p c ++ d ++ zdrop (p + zlen d) c.
Proof. unfold write_at; intros H1 H2. list_ext. Qed.

(** * The splice primitive: what each strategy leaves in the file *)

Lemma insert_pad_ok (fuel : nat) :
  forall (B padsize : Z) (f : fobj),
    0 < B -> 0 <= padsize -> (Z.to_nat padsize <= fuel)%nat ->
    pos f = zlen (content f) ->
    insert_pad fuel B padsize f =
      (Ret tt, mkFobj (content f ++ zeros padsize) (pos f + padsize) (reads f)).
Proof.
  induction fuel as [|fuel IH]; intros B padsize f HB Hp Hfuel Hpos.
  - assert (padsize = 0) by lia; subst. simpl. unfold ret.
    destruct f as [c p r]; simpl. rewrite app_nil_r, Z.add_0_r. reflexivity.
  - simpl. destruct (Z.eqb_spec padsize 0) as [->|Hne].
    + unfold ret. destruct f as [c p r]; simpl.
      rewrite app_nil_r, Z.add_0_r. reflexivity.
    + set (a := Z.min B padsize).
      assert (Ha : 0 < a <= padsize) by (subst a; lia).
      erewrite bind_ret by (apply write_ok; left; rewrite zlen_zeros; lia).
      rewrite IH; simpl; try lia.
      * rewrite Hpos, write_at_end, zlen_zeros. f_equal. f_equal; [|lia].
        rewrite <- app_assoc. f_equal. list_ext.
      * rewrite Hpos, write_at_end, zlen_app, zlen_zeros. lia.
Qed.

Lemma insert_move_ok (fuel : nat) :
  forall (B s o m : Z) (F : bytes) (f : fobj),
    0 < B -> 0 < s -> 0 <= o -> 0 <= m -> o + m <= zlen F ->
    (Z.to_nat m <= fuel)%nat ->
    content f = ztake (o + m + s) (F ++ zeros s) ++ zdrop (o + m) F ->
    pos f = o + m ->
    exists lg,
      insert_move fuel B s m f = (Ret tt, mkFobj (inserted F s o) o lg).
Proof.
  induction fuel as [|fuel IH]; intros B s o m F f HB Hs Ho Hm Hlen Hfuel Hc Hp.
  - assert (m = 0) by lia; subst m. simpl. unfold ret. exists (reads f).
    destruct f as [c p r]; simpl in *. rewrite Hc, Hp, !Z.add_0_r. reflexivity.
  - simpl. destruct (Z.eqb_spec m 0) as [->|Hne].
    + unfold ret. exists (reads f).
      destruct f as [c p r]; simpl in *. rewrite Hc, Hp, !Z.add_0_r. reflexivity.
    + set (t := Z.min B m).
      assert (Ht : 0 < t <= m) by (subst t; lia).
      erewrite bind_ret by (apply seek_cur_ok; lia).
      unfold tell at 1. unfold bind at 1. cbn [pos content reads].
      erewrite bind_ret by (apply read_ok; lia). cbn [pos content reads].
      set (data := ztake t (zdrop (pos f + - t) (content f))).
      assert (Hdata : data = ztake t (zdrop (o + m - t) F)).
      { subst data. rewrite Hc, Hp. list_ext. }
      assert (Hdlen : zlen data = t).
      { rewrite Hdata, zlen_ztake, zlen_zdrop. lia. }
      erewrite bind_ret by (apply seek_cur_ok; cbn [pos]; lia). cbn [pos content reads].
      erewrite bind_ret by (apply write_ok; left; lia). cbn [pos content reads].
      erewrite bind_ret by (apply seek_set_ok; lia).
      replace (m - t) with ((o + m - t) - o) by lia.
      apply IH; cbn [pos content reads]; try lia.
      rewrite write_at_inside.
      * rewrite Hdlen, Hdata, Hc, Hp. list_ext.
      * lia.
      * rewrite Hdlen, Hc, zlen_app, zlen_ztake, zlen_zdrop, zlen_app, zlen_zeros. lia.
Qed.

Lemma insert_bytes_ok (pf : platform) (s o B : Z) (f : fobj) :
  0 < B -> 0 < s -> 0 <= o <= zlen (content f) ->
  exists p lg,
    insert_bytes pf s o B f = (Ret tt, mkFobj (inserted (content f) s o) p lg).
Proof.
  intros HB Hs Ho. unfold insert_bytes.
  destruct (Z.ltb_spec 0 s); [|lia]. destruct (Z.leb_spec 0 o); [|lia]. cbn [negb].
  pose proof (zlen_nonneg (content f)) as Hn.
  erewrite bind_ret by (apply seek_end_ok; lia).
  unfold tell at 1. unfold bind at 1. cbn [pos content reads].
  erewrite bind_ret by (apply write_ok; left; rewrite zlen_zeros; lia).
  cbn [pos content reads]. unfold flush at 1, ret at 1, bind at 1.
  rewrite Z.add_0_r, write_at_end.
  set (F := content f) in *.
  unfold try_except, mmap_move. cbn [pos content reads].
  destruct (has_mmap pf); cbn [negb].
  - destruct (Z.ltb_spec (o + s) 0); [lia|]. destruct (Z.ltb_spec o 0); [lia|].
    destruct (Z.ltb_spec (zlen F - o) 0); [lia|].
    destruct (Z.ltb_spec (zlen F + s - (o + s)) (zlen F - o)); [lia|].
    destruct (Z.ltb_spec (zlen F + s - o) (zlen F - o)); [lia|].
    cbn [orb]. eexists _, _. f_equal. f_equal.
    unfold inserted. list_ext.
  - cbn [mmap_errors]. unfold insert_fallback.
    unfold lock at 1, ret at 1, bind at 1. unfold try_finally.
    assert (Hbody : exists lg,
      (truncate (Some (zlen F));; seek 0 2;; insert_pad (Z.to_nat s) B s;;
       seek (zlen F) 0;; insert_move (Z.to_nat (Z.abs (zlen F - o))) B s (zlen F - o);;
       flush)
        {| content := F ++ zeros s; pos := zlen F + zlen (zeros s); reads := reads f |}
      = (Ret tt, mkFobj (inserted F s o) o lg)).
    { erewrite bind_ret by (apply truncate_ok; lia). cbn [pos content reads].
      assert (Hr : resize (F ++ zeros s) (zlen F) = F) by (unfold resize; list_ext).
      rewrite Hr.
      erewrite bind_ret by (apply seek_end_ok; cbn [content]; lia). cbn [pos content reads].
      erewrite bind_ret by (apply insert_pad_ok; cbn [pos content]; lia).
      cbn [pos content reads].
      erewrite bind_ret by (apply seek_set_ok; lia). cbn [pos content reads].
      destruct (insert_move_ok (Z.to_nat (Z.abs (zlen F - o))) B s o (zlen F - o) F
                  {| content := F ++ zeros s; pos := zlen F; reads := reads f |})
        as [lg Hlg]; cbn [pos content]; try lia.
      { list_ext. }
      erewrite bind_ret by exact Hlg. exists lg. reflexivity. }
    destruct Hbody as [lg ->].
    destruct (has_fcntl pf); unfold unlock, ret; eexists _, _; reflexivity.
Qed.

Lemma delete_move_ok (fuel : nat) :
  forall (B s o k : Z) (F buf : bytes) (f : fobj),
    0 < B -> 0 < s -> 0 <= o -> 0 <= k -> o + s + k <= zlen F ->
    (Z.to_nat (zlen F - o - s - k) <= fuel)%nat ->
    content f = ztake (o + k) (deleted F s o) ++ zdrop (o + k) F ->
    buf = ztake B (zdrop (o + k + s) F) ->
    exists p lg,
      delete_move fuel B s (o + k) buf f =
        (Ret tt, mkFobj (deleted F s o ++ zdrop (zlen F - s) F) p lg).
Proof.
  induction fuel as [|fuel IH]; intros B s o k F buf f HB Hs Ho Hk Hlen Hfuel Hc Hbuf.
  - assert (Hk' : k = zlen F - o - s) by lia.
    assert (buf = []) as ->.
    { apply zlen_zero_nil. rewrite Hbuf, zlen_ztake, zlen_zdrop. lia. }
    simpl. unfold ret. exists (pos f), (reads f).
    destruct f as [c p r]; simpl in *. rewrite Hc. f_equal. f_equal.
    unfold deleted. subst k. list_ext.
  - assert (Hbl : zlen buf = Z.min B (zlen F - o - s - k)).
    { rewrite Hbuf, zlen_ztake, zlen_zdrop. lia. }
    destruct buf as [|b0 buf'] eqn:Ebuf.
    + change (zlen (@nil byte)) with 0 in Hbl.
      assert (Hk' : k = zlen F - o - s) by lia.
      simpl. unfold ret. exists (pos f), (reads f).
      destruct f as [c p r]; simpl in *. rewrite Hc. f_equal. f_equal.
      unfold deleted. subst k. list_ext.
    + assert (Hbpos : 0 < zlen (b0 :: buf')) by (rewrite zlen_cons; zlia).
      rewrite <- Ebuf in *. clear Ebuf.
      assert (Hstep : delete_move (S fuel) B s (o + k) buf f =
        (seek (o + k) 0 ;; write buf ;;
         seek (o + k + zlen buf + s) 0 ;;
         buf' <- read B ;;
         delete_move fuel B s (o + k + zlen buf) buf') f).
      { destruct buf; [unfold zlen in Hbpos; simpl in Hbpos; lia|reflexivity]. }
      rewrite Hstep. clear Hstep.
      erewrite bind_ret by (apply seek_set_ok; lia). cbn [pos content reads].
      erewrite bind_ret by (apply write_ok; left; lia). cbn [pos content reads].
      erewrite bind_ret by (apply seek_set_ok; lia). cbn [pos content reads].
      erewrite bind_ret by (apply read_ok; lia). cbn [pos content reads].
      replace (o + k + zlen buf) with (o + (k + zlen buf)) by lia.
      assert (Hc' : write_at (content f) (o + k) buf =
                    ztake (o + (k + zlen buf)) (deleted F s o)
                      ++ zdrop (o + (k + zlen buf)) F).
      { rewrite write_at_inside.
        - rewrite Hbl, Hc. rewrite Hbuf. unfold deleted. list_ext.
        - lia.
        - rewrite Hc. unfold deleted.
          rewrite !zlen_app, !zlen_ztake, !zlen_app, !zlen_ztake, !zlen_zdrop. lia. }
      apply IH; cbn [pos content reads]; try lia.
      * exact Hc'.
      * rewrite Hc'. unfold deleted. rewrite Hbl. list_ext.
Qed.

Lemma delete_bytes_ok (pf : platform) (s o B : Z) (f : fobj) :
  0 < B -> 0 < s -> 0 <= o -> o + s <= zlen (content f) ->
  exists p lg,
    delete_bytes pf s o B f = (Ret tt, mkFobj (deleted (content f) s o) p lg).
Proof.
  intros HB Hs Ho Hlen. unfold delete_bytes.
  destruct (Z.ltb_spec 0 s); [|lia]. destruct (Z.leb_spec 0 o); [|lia]. cbn [negb].
  erewrite bind_ret by (apply seek_end_ok; lia).
  unfold tell at 1. unfold bind at 1. cbn [pos content reads].
  set (F := content f) in *. rewrite Z.add_0_r.
  destruct (Z.leb_spec 0 (zlen F - o - s)); [|lia]. cbn [negb].
  assert (Hfin : forall c p lg,
            c = deleted F s o ++ zdrop (zlen F - s) F ->
            exists p' lg',
              (truncate (Some (zlen F - s)) ;; flush) (mkFobj c p lg) =
                (Ret tt, mkFobj (deleted F s o) p' lg')).
  { intros c p lg ->. erewrite bind_ret by (apply truncate_ok; lia).
    unfold flush, ret. eexists _, _. f_equal. f_equal. cbn [content].
    unfold resize, deleted. list_ext. }
  destruct (Z.ltb_spec 0 (zlen F - o - s)) as [Hm|Hm].
  - unfold flush at 1, ret at 1, bind at 2.
    unfold try_except, mmap_move. cbn [pos content reads].
    destruct (has_mmap pf); cbn [negb].
    + destruct (Z.ltb_spec o 0); [lia|]. destruct (Z.ltb_spec (o + s) 0); [lia|].
      destruct (Z.ltb_spec (zlen F - o - s) 0); [lia|].
      destruct (Z.ltb_spec (zlen F - o) (zlen F - o - s)); [lia|].
      destruct (Z.ltb_spec (zlen F - (o + s)) (zlen F - o - s)); [lia|].
      cbn [orb]. unfold bind at 1. apply Hfin.
      cbn [pos content reads]. unfold deleted. list_ext.
    + cbn [mmap_errors]. unfold delete_fallback.
      unfold lock at 1, ret at 1, bind at 2. unfold try_finally.
      assert (Hbody : forall f0, content f0 = F -> exists p lg,
        (seek (o + s) 0 ;; buf <- read B ;; delete_move (Z.to_nat (zlen F)) B s o buf) f0
        = (Ret tt, mkFobj (deleted F s o ++ zdrop (zlen F - s) F) p lg)).
      { intros f0 Hf0.
        erewrite bind_ret by (apply seek_set_ok; lia).
        erewrite bind_ret by (apply read_ok; lia). cbn [pos content reads].
        pose proof (delete_move_ok (Z.to_nat (zlen F)) B s o 0 F) as HH.
        rewrite !Z.add_0_r in HH.
        apply HH; cbn [pos content reads]; try lia.
        - rewrite Hf0. unfold deleted. list_ext.
        - rewrite Hf0. reflexivity. }
      destruct (Hbody {| content := F; pos := zlen F; reads := reads f |} eq_refl)
        as (p & lg & Hrun).
      unfold bind at 1. rewrite Hrun.
      destruct (has_fcntl pf); unfold unlock, ret; apply Hfin; reflexivity.
  - unfold ret at 1, bind at 1. destruct f as [c p lg]. apply Hfin.
    subst F; cbn [content] in *. unfold deleted. list_ext.
Qed.

Lemma insert_bytes_rejects (pf : platform) (s o B : Z) (f : fobj) :
  s <= 0 \/ o < 0 -> insert_bytes pf s o B f = (Raise AssertionError, f).
Proof.
  intros H. unfold insert_bytes.
  destruct (Z.ltb_spec 0 s); cbn [negb]; [|reflexivity].
  destruct (Z.leb_spec 0 o); cbn [negb]; [lia|reflexivity].
Qed.

Lemma delete_bytes_rejects (pf : platform) (s o B : Z) (f : fobj) :
  s <= 0 \/ o < 0 \/ zlen (content f) < o + s ->
  exists p, delete_bytes pf s o B f =
              (Raise AssertionError, mkFobj (content f) p (reads f)).
Proof.
  intros H. unfold delete_bytes.
  destruct (Z.ltb_spec 0 s); cbn [negb];
    [|exists (pos f); destruct f; reflexivity].
  destruct (Z.leb_spec 0 o); cbn [negb];
    [|exists (pos f); destruct f; reflexivity].
  pose proof (zlen_nonneg (content f)).
  erewrite bind_ret by (apply seek_end_ok; lia).
  unfold tell at 1. unfold bind at 1. cbn [pos content reads].
  destruct (Z.leb_spec 0 (zlen (content f) + 0 - o - s)); [lia|]. cbn [negb].
  eexists. reflexivity.
Qed.

(** Which platform runs the fallback does not matter: the lock is advisory. *)
Lemma insert_fallback_platform (pf pf' : platform) (B s n m : Z) (f : fobj) :
  insert_fallback pf B s n m f = insert_fallback pf' B s n m f.
Proof.
  unfold insert_fallback, lock, try_finally, unlock, ret, bind.
  destruct (has_fcntl pf), (has_fcntl pf'); reflexivity.
Qed.

(** Past the end of the file the mapped move is refused, so every platform
    ends up in the streaming code. *)
Lemma insert_bytes_past_end (pf : platform) (s o B : Z) (f : fobj) :
  0 < s -> zlen (content f) < o ->
  insert_bytes pf s o B f =
    insert_fallback pf B s (zlen (content f)) (zlen (content f) - o)
      (mkFobj (content f ++ zeros s) (zlen (content f) + s) (reads f)).
Proof.
  intros Hs Ho. unfold insert_bytes. pose proof (zlen_nonneg (content f)) as Hn.
  destruct (Z.ltb_spec 0 s); [|lia]. destruct (Z.leb_spec 0 o); [|lia]. cbn [negb].
  erewrite bind_ret by (apply seek_end_ok; lia).
  unfold tell at 1. unfold bind at 1. cbn [pos content reads].
  erewrite bind_ret by (apply write_ok; left; rewrite zlen_zeros; lia).
  cbn [pos content reads]. unfold flush at 1, ret at 1, bind at 1.
  rewrite Z.add_0_r, write_at_end, zlen_zeros, Z.max_r by lia.
  unfold try_except, mmap_move. cbn [pos content reads].
  destruct (has_mmap pf); cbn [negb]; [|reflexivity].
  destruct (Z.ltb_spec (zlen (content f) - o) 0); [|lia].
  rewrite !orb_true_r. reflexivity.
Qed.

Lemma zlen_inserted (c : bytes) (s o : Z) :
  0 < s -> 0 <= o <= zlen c -> zlen (inserted c s o) = zlen c + s.
Proof.
  intros Hs Ho. unfold inserted.
  rewrite zlen_app, zlen_ztake, zlen_zdrop, zlen_app, zlen_zeros. lia.
Qed.

Lemma zlen_deleted (c : bytes) (s o : Z) :
  0 < s -> 0 <= o -> o + s <= zlen c -> zlen (deleted c s o) = zlen c - s.
Proof.
  intros Hs Ho Hl. unfold deleted. rewrite zlen_app, zlen_ztake, zlen_zdrop. lia.
Qed.

Lemma zget_inserted_low (c : bytes) (s o i : Z) :
  0 < s -> 0 <= o <= zlen c -> i < o -> zget (inserted c s o) i = zget c i.
Proof.
  intros Hs Ho Hi. unfold inserted. zget_norm; zminmax; zget_split; try zget_close.
Qed.

Lemma zget_inserted_high (c : bytes) (s o i : Z) :
  0 < s -> 0 <= o <= zlen c -> o <= i -> zget (inserted c s o) (i + s) = zget c i.
Proof.
  intros Hs Ho Hi. unfold inserted. zget_norm; zminmax; zget_split; try zget_close.
Qed.

Lemma zget_deleted_low (c : bytes) (s o i : Z) :
  0 < s -> 0 <= o -> o + s <= zlen c -> i < o -> zget (deleted c s o) i = zget c i.
Proof.
  intros Hs Ho Hl Hi. unfold deleted. zget_norm; zminmax; zget_split; try zget_close.
Qed.

Lemma zget_deleted_high (c : bytes) (s o i : Z) :
  0 < s -> 0 <= o -> o + s <= zlen c -> o + s <= i ->
  zget (deleted c s o) (i - s) = zget c i.
Proof.
  intros Hs Ho Hl Hi. unfold deleted. zget_norm; zminmax; zget_split; try zget_close.
Qed.

Lemma deleted_inserted (c : bytes) (s o : Z) :
  0 < s -> 0 <= o <= zlen c -> deleted (inserted c s o) s o = c.
Proof. intros Hs Ho. unfold deleted, inserted. list_ext. Qed.

(** * The splice primitive: claims *)

(** C1.  For every file, every size [s > 0] and every offset [o] within the
    file length, [insert_bytes] followed by [delete_bytes] with the same
    [s] and [o] returns normally and restores the file byte for byte,
    whichever strategy either call takes.  [insert_bytes] alone lengthens
    the file by [s], keeps every byte below [o] and moves every byte at or
    above [o] up by [s]; [delete_bytes] alone, on any file holding the range,
    shortens it by [s], keeps every byte below [o] and moves every byte at
    or above [o + s] down by [s]. *)
Theorem splice_roundtrip_and_frame
  (pf pf' : platform) (B B' s o : Z) (f : fobj) :
  0 < B -> 0 < B' -> 0 < s -> 0 <= o <= zlen (content f) ->
  (exists f1 f2,
      insert_bytes pf s o B f = (Ret tt, f1) /\
      delete_bytes pf' s o B' f1 = (Ret tt, f2) /\
      content f2 = content f /\
      zlen (content f1) = zlen (content f) + s /\
      (forall i, i < o -> zget (content f1) i = zget (content f) i) /\
      (forall i, o <= i -> zget (content f1) (i + s) = zget (content f) i)) /\
  (forall g : fobj,
      o + s <= zlen (content g) ->
      exists g1,
        delete_bytes pf' s o B' g = (Ret tt, g1) /\
        zlen (content g1) = zlen (content g) - s /\
        (forall i, i < o -> zget (content g1) i = zget (content g) i) /\
        (forall i, o + s <= i -> zget (content g1) (i - s) = zget (content g) i)).
Proof.
  intros HB HB' Hs Ho. split.
  - destruct (insert_bytes_ok pf s o B f HB Hs Ho) as (p1 & l1 & H1).
    set (f1 := mkFobj (inserted (content f) s o) p1 l1) in *.
    assert (Hl1 : o + s <= zlen (content f1)).
    { subst f1; cbn [content]. rewrite zlen_inserted by lia. lia. }
    destruct (delete_bytes_ok pf' s o B' f1 HB' Hs (proj1 Ho) Hl1) as (p2 & l2 & H2).
    exists f1, (mkFobj (deleted (content f1) s o) p2 l2).
    subst f1; cbn [content] in *.
    repeat split; auto.
    + apply deleted_inserted; lia.
    + apply zlen_inserted; lia.
    + intros i Hi. apply zget_inserted_low; lia.
    + intros i Hi. apply zget_inserted_high; lia.
  - intros g Hg.
    destruct (delete_bytes_ok pf' s o B' g HB' Hs (proj1 Ho) Hg) as (p2 & l2 & H2).
    exists (mkFobj (deleted (content g) s o) p2 l2). cbn [content].
    repeat split; auto.
    + apply zlen_deleted; lia.
    + intros i Hi. apply zget_deleted_low; lia.
    + intros i Hi. apply zget_deleted_high; lia.
Qed.

Lemma splice_roundtrip_and_frame_witness :
  let f := open_file (list_byte_of_string "0123456789") in
  (exists f1 f2,
      insert_bytes (mkPlatform false true) 3 4 2 f = (Ret tt, f1) /\
      delete_bytes (mkPlatform true false) 3 4 5 f1 = (Ret tt, f2) /\
      content f2 = content f /\
      zlen (content f1) = zlen (content f) + 3 /\
      (forall i, i < 4 -> zget (content f1) i = zget (content f) i) /\
      (forall i, 4 <= i -> zget (content f1) (i + 3) = zget (content f) i)) /\
  (forall g : fobj,
      4 + 3 <= zlen (content g) ->
      exists g1,
        delete_bytes (mkPlatform true false) 3 4 5 g = (Ret tt, g1) /\
        zlen (content g1) = zlen (content g) - 3 /\
        (forall i, i < 4 -> zget (content g1) i = zget (content g) i) /\
        (forall i, 4 + 3 <= i -> zget (content g1) (i - 3) = zget (content g) i)).
Proof.
  intro f.
  apply (splice_roundtrip_and_frame (mkPlatform false true) (mkPlatform true false)
           2 5 3 4 f); [lia | lia | lia | vm_compute; split; discriminate].
Defined.

(** C2.  For every file, size and offset, and every positive buffer size,
    [insert_bytes] run where [mmap] works and run where it does not end in
    the same way (both return or both raise the same exception) with the
    same file contents; likewise [delete_bytes].  On the inputs the
    primitives are meant for, both return normally. *)
Theorem splice_strategies_agree
  (pf_mmap pf_stream : platform) (B s o : Z) (f : fobj) :
  has_mmap pf_mmap = true -> has_mmap pf_stream = false -> 0 < B ->
  (fst (insert_bytes pf_mmap s o B f) = fst (insert_bytes pf_stream s o B f) /\
   content (snd (insert_bytes pf_mmap s o B f)) =
     content (snd (insert_bytes pf_stream s o B f))) /\
  (fst (delete_bytes pf_mmap s o B f) = fst (delete_bytes pf_stream s o B f) /\
   content (snd (delete_bytes pf_mmap s o B f)) =
     content (snd (delete_bytes pf_stream s o B f))) /\
  (0 < s -> 0 <= o <= zlen (content f) ->
   fst (insert_bytes pf_mmap s o B f) = Ret tt) /\
  (0 < s -> 0 <= o -> o + s <= zlen (content f) ->
   fst (delete_bytes pf_mmap s o B f) = Ret tt).
Proof.
  intros Hm Hs HB. repeat split.
  - destruct (Z.ltb_spec 0 s) as [H1|H1];
      [|rewrite !insert_bytes_rejects by lia; reflexivity].
    destruct (Z.leb_spec 0 o) as [H2|H2];
      [|rewrite !insert_bytes_rejects by lia; reflexivity].
    destruct (Z.leb_spec o (zlen (content f))) as [H3|H3].
    + destruct (insert_bytes_ok pf_mmap s o B f HB H1 (conj H2 H3)) as (? & ? & ->).
      destruct (insert_bytes_ok pf_stream s o B f HB H1 (conj H2 H3)) as (? & ? & ->).
      reflexivity.
    + rewrite !insert_bytes_past_end by lia.
      now rewrite (insert_fallback_platform pf_mmap pf_stream).
  - destruct (Z.ltb_spec 0 s) as [H1|H1];
      [|rewrite !insert_bytes_rejects by lia; reflexivity].
    destruct (Z.leb_spec 0 o) as [H2|H2];
      [|rewrite !insert_bytes_rejects by lia; reflexivity].
    destruct (Z.leb_spec o (zlen (content f))) as [H3|H3].
    + destruct (insert_bytes_ok pf_mmap s o B f HB H1 (conj H2 H3)) as (? & ? & ->).
      destruct (insert_bytes_ok pf_stream s o B f HB H1 (conj H2 H3)) as (? & ? & ->).
      reflexivity.
    + rewrite !insert_bytes_past_end by lia.
      now rewrite (insert_fallback_platform pf_mmap pf_stream).
  - destruct (Z.ltb_spec 0 s) as [H1|H1].
    2:{ destruct (delete_bytes_rejects pf_mmap s o B f) as (? & ->); [lia|].
        destruct (delete_bytes_rejects pf_stream s o B f) as (? & ->); [lia|].
        reflexivity. }
    destruct (Z.leb_spec 0 o) as [H2|H2].
    2:{ destruct (delete_bytes_rejects pf_mmap s o B f) as (? & ->); [lia|].
        destruct (delete_bytes_rejects pf_stream s o B f) as (? & ->); [lia|].
        reflexivity. }
    destruct (Z.leb_spec (o + s) (zlen (content f))) as [H3|H3].
    2:{ destruct (delete_bytes_rejects pf_mmap s o B f) as (? & ->); [lia|].
        destruct (delete_bytes_rejects pf_stream s o B f) as (? & ->); [lia|].
        reflexivity. }
    destruct (delete_bytes_ok pf_mmap s o B f HB H1 H2 H3) as (? & ? & ->).
    destruct (delete_bytes_ok pf_stream s o B f HB H1 H2 H3) as (? & ? & ->).
    reflexivity.
  - destruct (Z.ltb_spec 0 s) as [H1|H1].
    2:{ destruct (delete_bytes_rejects pf_mmap s o B f) as (? & ->); [lia|].
        destruct (delete_bytes_rejects pf_stream s o B f) as (? & ->); [lia|].
        reflexivity. }
    destruct (Z.leb_spec 0 o) as [H2|H2].
    2:{ destruct (delete_bytes_rejects pf_mmap s o B f) as (? & ->); [lia|].
        destruct (delete_bytes_rejects pf_stream s o B f) as (? & ->); [lia|].
        reflexivity. }
    destruct (Z.leb_spec (o + s) (zlen (content f))) as [H3|H3].
    2:{ destruct (delete_bytes_rejects pf_mmap s o B f) as (? & ->); [lia|].
        destruct (delete_bytes_rejects pf_stream s o B f) as (? & ->); [lia|].
        reflexivity. }
    destruct (delete_bytes_ok pf_mmap s o B f HB H1 H2 H3) as (? & ? & ->).
    destruct (delete_bytes_ok pf_stream s o B f HB H1 H2 H3) as (? & ? & ->).
    reflexivity.
  - intros H1 H2.
    destruct (insert_bytes_ok pf_mmap s o B f HB H1 H2) as (? & ? & ->). reflexivity.
  - intros H1 H2 H3.
    destruct (delete_bytes_ok pf_mmap s o B f HB H1 H2 H3) as (? & ? & ->). reflexivity.
Qed.

Lemma splice_strategies_agree_witness :
  let pm := mkPlatform true true in
  let ps := mkPlatform false false in
  let f := open_file (list_byte_of_string "abcdef") in
  (fst (insert_bytes pm 2 1 4 f) = fst (insert_bytes ps 2 1 4 f) /\
   content (snd (insert_bytes pm 2 1 4 f)) = content (snd (insert_bytes ps 2 1 4 f))) /\
  (fst (delete_bytes pm 2 1 4 f) = fst (delete_bytes ps 2 1 4 f) /\
   content (snd (delete_bytes pm 2 1 4 f)) = content (snd (delete_bytes ps 2 1 4 f))) /\
  (0 < 2 -> 0 <= 1 <= zlen (content f) -> fst (insert_bytes pm 2 1 4 f) = Ret tt) /\
  (0 < 2 -> 0 <= 1 -> 1 + 2 <= zlen (content f) -> fst (delete_bytes pm 2 1 4 f) = Ret tt).
Proof.
  intros pm ps f.
  apply (splice_strategies_agree pm ps 4 2 1 f); [reflexivity | reflexivity | lia].
Defined.

(** C5 (defect).  [delete_bytes] asserts that the range lies inside the
    file, [insert_bytes] has no such assertion for its offset.  On a
    two-byte file, inserting one byte at offset 3 returns normally with the
    file grown by a zero byte, and inserting at offset 4 raises
    [ValueError] only after the file has grown; neither leaves the file as
    it was. *)
Theorem insert_bytes_offset_past_end_unchecked (pf : platform) :
  let f := open_file (list_byte_of_string "ab") in
  (fst (insert_bytes pf 1 3 DEFAULT_BUFFER_SIZE f) = Ret tt /\
   content (snd (insert_bytes pf 1 3 DEFAULT_BUFFER_SIZE f)) =
     list_byte_of_string "ab" ++ [x00]) /\
  (fst (insert_bytes pf 1 4 DEFAULT_BUFFER_SIZE f) = Raise ValueError /\
   content (snd (insert_bytes pf 1 4 DEFAULT_BUFFER_SIZE f)) =
     list_byte_of_string "ab" ++ [x00]).
Proof. destruct pf as [[|] [|]]; vm_compute; repeat split. Qed.

(** * The flat-tag locator *)

Lemma try_except_ret {S A : Type} (m h : M S A) (c : exn -> bool) (f f' : S) (a : A) :
  m f = (Ret a, f') -> try_except m c h f = (Ret a, f').
Proof. unfold try_except; now intros ->. Qed.

Lemma try_except_catch {S A : Type} (m h : M S A) (c : exn -> bool) (f f' : S) (e : exn) :
  m f = (Raise e, f') -> c e = true -> try_except m c h f = h f'.
Proof. unfold try_except; intros -> ->. reflexivity. Qed.

Lemma bind_tell {A : Type} (k : Z -> io A) (f : fobj) :
  bind tell k f = k (pos f) f.
Proof. reflexivity. Qed.

Lemma bind_ret_l {S A B : Type} (a : A) (k : A -> M S B) (f : S) :
  bind (ret a) k f = k a f.
Proof. reflexivity. Qed.

Lemma bytes_eqb_eq (a b : bytes) : bytes_eqb a b = true <-> a = b.
Proof.
  unfold bytes_eqb. destruct (list_eq_dec Byte.byte_eq_dec a b); split;
    intros; congruence.
Qed.

Lemma bytes_eqb_refl (a : bytes) : bytes_eqb a a = true.
Proof. now apply bytes_eqb_eq. Qed.

Lemma zlen_read_full (c : bytes) (p k : Z) :
  0 <= p -> 0 <= k -> p + k <= zlen c -> zlen (ztake k (zdrop p c)) = k.
Proof. intros. rewrite zlen_ztake, zlen_zdrop. lia. Qed.

(** Seek to [p] bytes before the end, read [k]: one probe. *)
Ltac zneg_norm :=
  repeat match goal with
    | |- context [?a + Zneg ?p] => change (a + Zneg p) with (a - Zpos p)
    end.

Ltac io_seek :=
  erewrite bind_ret by
    (lazymatch goal with
     | |- seek _ 0 _ = _ => apply seek_set_ok
     | |- seek _ 1 _ = _ => apply seek_cur_ok
     | |- seek _ 2 _ = _ => apply seek_end_ok
     end;
     cbn [pos content reads]; rewrite ?zlen_read_full by zlia; zlia);
  cbn [pos content reads]; zneg_norm.

Ltac io_read :=
  erewrite bind_ret by (apply read_ok; lia);
  cbn [pos content reads]; rewrite ?zlen_read_full by zlia.

Lemma find_metadata_footer (self : APEv2Data) (f : fobj) :
  cookie_at (content f) (zlen (content f) - 32) = true ->
  find_metadata self f =
    (Ret (set_metadata (set_footer self (Some (zlen (content f) - 32)))
                       (Some (zlen (content f) - 32))),
     mkFobj (content f) (zlen (content f) - 32)
            (reads f ++ [(zlen (content f) - 32, 8)])).
Proof.
  unfold cookie_at. intros H. apply andb_prop in H as [Hn Hc].
  apply Z.leb_le in Hn. unfold find_metadata.
  erewrite bind_ret.
  2:{ apply try_except_ret. erewrite bind_ret by (apply seek_end_ok; lia).
      reflexivity. }
  cbn [negb pos content reads]. zneg_norm.
  io_read. rewrite Hc. io_seek. rewrite bind_tell. cbn [pos].
  rewrite Z.add_simpl_r. reflexivity.
Qed.

Lemma bind_inv {S A B : Type} (m : M S A) (k : A -> M S B) (f f'' : S) (b : B) :
  bind m k f = (Ret b, f'') ->
  exists a f', m f = (Ret a, f') /\ k a f' = (Ret b, f'').
Proof.
  unfold bind. destruct (m f) as [[a|e|] f']; intros H; try discriminate.
  now exists a, f'.
Qed.

Lemma ret_inv {S A : Type} (a b : A) (f f' : S) :
  ret a f = (Ret b, f') -> a = b /\ f = f'.
Proof. unfold ret; intros H; inversion H; auto. Qed.

Lemma lift_struct_inv {S A : Type} (o : option A) (a : A) (f f' : S) :
  lift_struct o f = (Ret a, f') -> o = Some a /\ f = f'.
Proof.
  destruct o; simpl; unfold ret, raise; intros H; inversion H; auto.
Qed.

(** Peel the leading binds off a hypothesis [H : (x <- m ;; k) f = (Ret b, f')]. *)
Ltac bind_inv H :=
  let a := fresh "a" in
  let f := fresh "f" in
  let H1 := fresh "Hm" in
  apply bind_inv in H; destruct H as (a & f & H1 & H); cbv beta in H.

Lemma fill_missing_keeps (self r : APEv2Data) (m : Z) (f f' : fobj) :
  fill_missing self m f = (Ret r, f') ->
  is_at_start r = is_at_start self /\
  (header self = None -> footer r = footer self) /\
  (header self <> None -> header r = header self).
Proof.
  unfold fill_missing. intros H.
  do 8 bind_inv H.
  destruct self as [st hd dt ft en md tg vr sz it fl ias]; cbn in H.
  destruct hd as [h|]; [|destruct ft as [t|]].
  - do 2 bind_inv H.
    match type of H with context [bytes_eqb ?x ?y] => destruct (bytes_eqb x y) end;
      apply ret_inv in H as [<- _]; cbn; repeat split; auto; intros; congruence.
  - match type of H with context [?x =? 0] => destruct (x =? 0) end;
      apply ret_inv in H as [<- _]; cbn; repeat split; auto; intros; congruence.
  - discriminate H.
Qed.

Lemma fix_brokenness_keeps (self r : APEv2Data) (f f' : fobj) :
  fix_brokenness self f = (Ret r, f') ->
  is_at_start r = is_at_start self /\ footer r = footer self
  /\ header r = header self /\ end_ r = end_ self /\ data r = data self
  /\ size r = size self /\ items r = items self.
Proof.
  unfold fix_brokenness. intros H.
  destruct (match header self with Some h => Some h | None => data self end);
    [|discriminate H].
  do 2 bind_inv H. apply ret_inv in H as [<- _].
  destruct self; cbn; repeat split; reflexivity.
Qed.

(** C9 (amended).  When the magic cookie stands both at offset 0 and at
    the head of the 32-byte footer slot that ends the file, the locator
    settles on the footer: it reads the file once, at that slot, never at
    the start; [is_at_start] is false, and stays false in the instance
    [__init__] returns. *)
Theorem cookie_at_both_ends_located_by_footer (c : bytes) :
  cookie_at c 0 = true -> cookie_at c (zlen c - 32) = true ->
  (exists d f',
      find_metadata new_data (open_file c) = (Ret d, f') /\
      footer d = Some (zlen c - 32) /\ header d = None /\
      is_at_start d = false /\
      reads f' = [(zlen c - 32, 8)]) /\
  (forall d f',
      APEv2Data_init (open_file c) = (Ret d, f') ->
      is_at_start d = false /\ footer d = Some (zlen c - 32)).
Proof.
  intros _ Hend.
  pose proof (find_metadata_footer new_data (open_file c) Hend) as Hfind.
  cbn [content reads open_file app] in Hfind.
  split.
  - eexists _, _. split; [exact Hfind|]. cbn. auto.
  - intros d f' H. unfold APEv2Data_init in H.
    erewrite bind_ret in H by exact Hfind. cbn in H.
    do 2 bind_inv H.
    apply fill_missing_keeps in Hm as (Ha & Hb & _).
    apply fix_brokenness_keeps in Hm0 as (Hc & Hd & He & _ & Hg & Hh & _).
    cbn in Ha, Hb. specialize (Hb eq_refl).
    assert (is_at_start a0 = false /\ footer a0 = Some (zlen c - 32)) as [Hx Hy]
      by (split; congruence).
    destruct (data a0), (size a0).
    2,3,4: apply ret_inv in H as [<- _]; auto.
    do 2 bind_inv H. apply ret_inv in H as [<- _]. destruct a0; cbn in *; auto.
Qed.

Lemma cookie_at_both_ends_located_by_footer_witness :
  let c := cookie_at_both_ends_file in
  (exists d f',
      find_metadata new_data (open_file c) = (Ret d, f') /\
      footer d = Some (zlen c - 32) /\ header d = None /\
      is_at_start d = false /\
      reads f' = [(zlen c - 32, 8)]) /\
  (forall d f',
      APEv2Data_init (open_file c) = (Ret d, f') ->
      is_at_start d = false /\ footer d = Some (zlen c - 32)).
Proof.
  intro c.
  apply (cookie_at_both_ends_located_by_footer c); vm_compute; reflexivity.
Defined.

(** C9, as stated, fails when the cookie within the last 32 bytes does
    not open the footer slot: in the 64-byte file with the cookie at
    offset 0 and in its last 8 bytes the footer slot holds no cookie, so
    the locator goes on to read offset 0 and reports a tag at the start,
    with [is_at_start] true and no footer. *)
Lemma cookie_in_last_32_bytes_counterexample :
  cookie_at cookie_at_tail_file 0 = true /\
  cookie_in_last_32 cookie_at_tail_file (zlen cookie_at_tail_file - 8) /\
  ~ resolved_by_footer cookie_at_tail_file /\
  exists d f',
    find_metadata new_data (open_file cookie_at_tail_file) = (Ret d, f') /\
    is_at_start d = true /\ footer d = None /\
    reads f' = [(zlen cookie_at_tail_file - 32, 8); (0, 8)].
Proof.
  split; [reflexivity|]. split; [vm_compute; repeat split; discriminate|].
  split.
  - intros (d & f' & Hrun & _ & Hstart & _).
    vm_compute in Hrun. inversion Hrun; subst d.
    vm_compute in Hstart. discriminate Hstart.
  - eexists _, _. split; [vm_compute; reflexivity|].
    vm_compute. repeat split.
Qed.

Lemma bind_raise_catch {A : Type} (m : io A) (h : io A) (f f' : fobj) :
  m f = (Raise IOError, f') -> try_except m is_IOError h f = h f'.
Proof. intros H. eapply try_except_catch; [exact H|reflexivity]. Qed.

Ltac io_seek_fail :=
  erewrite bind_raise by
    (lazymatch goal with
     | |- seek _ 1 _ = _ => apply seek_cur_fail
     | |- seek _ 2 _ = _ => apply seek_end_fail
     end;
     cbn [pos content reads]; rewrite ?zlen_read_full by zlia; zlia).

Ltac trailer_done :=
  eexists; split; [reflexivity|]; split; [reflexivity|];
  cbn [reads]; rewrite <- ?app_assoc; reflexivity.

Lemma find_before_id3v1_spec (self : APEv2Data) (f : fobj) :
  exists f',
    try_except (find_before_id3v1 self) is_IOError (ret None) f =
      (Ret (option_map (fun p => set_footer self (Some p))
                       (footer_behind_trailer (content f))), f')
    /\ content f' = content f
    /\ reads f' = reads f ++ trailer_probes (content f).
Proof.
  destruct f as [c p0 r0]. cbn [content reads].
  unfold footer_behind_trailer, trailer_probes, marker_at.
  change (zlen (list_byte_of_string "TAG")) with 3.
  change (zlen (list_byte_of_string "LYRICS200")) with 9.
  unfold find_before_id3v1.
  destruct (Z.leb_spec 0 ((zlen c) - 128)) as [H128|H128]; cbn [andb].
  2:{ eexists. split; [|split].
      - apply bind_raise_catch. io_seek_fail. reflexivity.
      - reflexivity.
      - cbn [reads]. now rewrite app_nil_r. }
  unfold try_except. io_seek. io_read.
  destruct (bytes_eqb (ztake 3 (zdrop ((zlen c) - 128) c)) (list_byte_of_string "TAG"));
    cbn [andb]; [|trailer_done].
  destruct (Z.leb_spec 160 (zlen c)) as [H160|H160].
  2:{ io_seek_fail. cbn [is_IOError]. trailer_done. }
  io_seek. io_read.
  replace ((zlen c) - 128 + 3 - 35) with ((zlen c) - 160) by lia.
  unfold cookie_at. destruct (Z.leb_spec 0 ((zlen c) - 160)); [|lia]. cbn [andb].
  destruct (bytes_eqb (ztake 8 (zdrop ((zlen c) - 160) c)) APETAGEX).
  { io_seek. rewrite bind_tell. cbn [pos]. rewrite Z.add_simpl_r. trailer_done. }
  io_seek. io_read.
  replace ((zlen c) - 160 + 8 + 15) with ((zlen c) - 137) by lia.
  destruct (Z.leb_spec 0 ((zlen c) - 137)); [|lia]. cbn [andb].
  destruct (bytes_eqb (ztake 9 (zdrop ((zlen c) - 137) c)) (list_byte_of_string "LYRICS200"));
    [|trailer_done].
  io_seek. io_read.
  replace ((zlen c) - 137 + 9 - 15) with ((zlen c) - 143) by lia.
  destruct (py_int (ztake 6 (zdrop ((zlen c) - 143) c))) as [off|];
    [|trailer_done].
  destruct (Z.leb_spec 0 ((zlen c) - 175 - off)) as [Hp|Hp]; cbn [andb].
  2:{ io_seek_fail. cbn [is_IOError]. trailer_done. }
  io_seek. replace ((zlen c) - 143 + 6 + (-32 - off - 6)) with ((zlen c) - 175 - off) by lia.
  io_read.
  destruct (bytes_eqb (ztake 8 (zdrop ((zlen c) - 175 - off) c)) APETAGEX) eqn:Hck;
    [|trailer_done].
  apply bytes_eqb_eq in Hck. rewrite Hck.
  change (zlen APETAGEX) with 8.
  io_seek. rewrite bind_tell. cbn [pos]. rewrite Z.add_simpl_r.
  trailer_done.
Qed.

Lemma find_metadata_spec (c : bytes) :
  32 <= zlen c ->
  exists f',
    find_metadata new_data (open_file c) = (Ret (found c), f') /\
    reads f' = probes c.
Proof.
  intros Hn. unfold found, probes.
  destruct (cookie_at c (zlen c - 32)) eqn:H32.
  - rewrite (find_metadata_footer new_data (open_file c) H32).
    eexists. split; reflexivity.
  - unfold find_metadata.
    erewrite bind_ret.
    2:{ apply try_except_ret. erewrite bind_ret by (apply seek_end_ok; cbn; lia).
        reflexivity. }
    cbn [negb pos content reads open_file]. zneg_norm. io_read.
    unfold cookie_at in H32. destruct (Z.leb_spec 0 (zlen c - 32)); [|lia].
    cbn [andb] in H32. rewrite H32.
    match goal with
    | |- context [bind (try_except (find_before_id3v1 ?s) _ _) _ ?f] =>
        destruct (find_before_id3v1_spec s f) as (f' & Hrun & Hcont & Hreads)
    end.
    cbn [content reads app] in Hrun, Hcont, Hreads.
    erewrite bind_ret by exact Hrun.
    destruct (footer_behind_trailer c) as [p|]; cbn [option_map].
    + eexists. split; [reflexivity|]. rewrite Hreads, app_nil_r. reflexivity.
    + io_seek. io_read. rewrite Hcont, Hreads.
      unfold cookie_at. cbn [Z.leb andb].
      destruct (bytes_eqb (ztake 8 (zdrop 0 c)) APETAGEX); eexists;
        (split; [reflexivity|]); reflexivity.
Qed.

Lemma found_located (c : bytes) : located_as (locate c) (found c).
Proof.
  unfold locate, found.
  destruct (cookie_at c (zlen c - 32)); [cbn; auto|].
  destruct (footer_behind_trailer c); [cbn; auto|].
  destruct (cookie_at c 0); cbn; auto.
Qed.

Lemma load_nothing_found (c : bytes) (self : APEv2) :
  32 <= zlen c -> locate c = NoTagFound ->
  fst (load c self) = Raise APENoHeaderError.
Proof.
  intros Hn Hl. destruct (find_metadata_spec c Hn) as (f' & Hrun & _).
  assert (Hf : found c = new_data).
  { unfold locate in Hl. unfold found.
    destruct (cookie_at c (zlen c - 32)); [discriminate|].
    destruct (footer_behind_trailer c); [discriminate|].
    destruct (cookie_at c 0); [discriminate|reflexivity]. }
  rewrite Hf in Hrun.
  unfold load, with_file, APEv2Data_init, bind at 1.
  erewrite bind_ret by exact Hrun. reflexivity.
Qed.

Lemma find_metadata_short_reads (c : bytes) :
  zlen c < 32 ->
  exists f',
    find_metadata new_data (open_file c) = (Ret new_data, f') /\ reads f' = [].
Proof.
  intros Hn. unfold find_metadata.
  erewrite bind_ret.
  2:{ erewrite bind_raise_catch
        by (erewrite bind_raise
              by (apply seek_end_fail; cbn [content open_file]; lia);
            reflexivity).
      erewrite bind_ret by (apply seek_end_ok; cbn [content open_file]; zlia).
      reflexivity. }
  cbn [negb]. eexists. split; reflexivity.
Qed.

Lemma locator_short (c : bytes) : zlen c < 32 -> locator_gives_up c.
Proof.
  intros Hn. destruct (find_metadata_short_reads c Hn) as (f' & Hrun & Hreads).
  exists f'. split; [exact Hrun|]. split; [exact Hreads|].
  unfold load, with_file, APEv2Data_init, bind at 1.
  erewrite bind_ret by exact Hrun. reflexivity.
Qed.

Lemma locator_long (c : bytes) : 32 <= zlen c -> locator_follows_order c.
Proof.
  intros Hn. destruct (find_metadata_spec c Hn) as (f' & Hrun & Hreads).
  exists (found c), f'. split; [exact Hrun|]. split; [|split].
  - apply found_located.
  - exact Hreads.
  - intros Hl. now apply load_nothing_found.
Qed.

(** In a file shorter than 160 bytes an ID3v1 trailer settles nothing: the
    footer slot before it would start before the file does, the seek to
    it fails, and the search goes on at offset 0 without a probe for the
    lyrics marker.  On [short_trailer_file] the lyrics size field would
    lead to offset 0 as a footer; the locator reports a tag at the start
    instead, having read the footer slot, the trailer marker and offset
    0. *)
Lemma locator_short_trailer_skips_lyrics :
  zlen short_trailer_file = 159 /\
  marker_at short_trailer_file (159 - 128) "TAG" = true /\
  marker_at short_trailer_file (159 - 137) "LYRICS200" = true /\
  py_int (ztake 6 (zdrop (159 - 143) short_trailer_file)) = Some (-16) /\
  cookie_at short_trailer_file (159 - 175 - -16) = true /\
  locate short_trailer_file = TagAtStart /\
  exists d f',
    find_metadata new_data (open_file short_trailer_file) = (Ret d, f') /\
    is_at_start d = true /\ header d = Some 0 /\ footer d = None /\
    reads f' = [(127, 8); (31, 3); (0, 8)].
Proof.
  repeat (split; [vm_compute; reflexivity|]).
  eexists _, _. split; [vm_compute; reflexivity|]. vm_compute. repeat split.
Qed.

(** C4 (amended).  A file shorter than 32 bytes is given up on before
    anything is read: nothing is located, offset 0 is not examined, and
    [load] raises the no-tag error.  On every file of at least 32 bytes
    the locator examines the candidate positions in the specified order
    and stops at the first success: the cookie 32 bytes before the end is
    the footer; otherwise, in a file of at least 160 bytes, an ID3v1
    trailer 128 bytes before the end leads to a cookie check 35 bytes back
    from the end of its marker and, failing that, to the check behind a
    Lyrics3v2 block sized by its ASCII decimal field, made only at a
    position that is not negative; otherwise a cookie at offset 0 is a tag
    at the start with [is_at_start] set; otherwise nothing is found and
    [load] raises the no-tag error.  The reads it makes are exactly
    [probes]: those positions, in that order, none after the first
    success. *)
Theorem locator_order (c : bytes) :
  (zlen c < 32 -> locator_gives_up c) /\
  (32 <= zlen c -> locator_follows_order c).
Proof.
  split; [apply locator_short|apply locator_long].
Qed.

Lemma locator_order_witness :
  locator_gives_up APETAGEX /\
  locator_follows_order (APETAGEX ++ zeros 16 ++ APETAGEX ++ zeros 24).
Proof.
  split.
  - apply (proj1 (locator_order APETAGEX)). vm_compute. reflexivity.
  - apply (proj2 (locator_order (APETAGEX ++ zeros 16 ++ APETAGEX ++ zeros 24))).
    vm_compute. discriminate.
Defined.

(** C4, as stated, fails on a file shorter than 32 bytes: the 8-byte file
    holding just the cookie has it at offset 0, yet the locator gives up
    after the first seek and reports no tag. *)
Lemma locator_order_short_file_counterexample :
  ~ locator_follows_order APETAGEX.
Proof.
  intros (d & f' & Hrun & Hloc & _ & _).
  vm_compute in Hrun. inversion Hrun; subst d.
  vm_compute in Hloc. destruct Hloc as [H _]. discriminate H.
Qed.

(** * Computations that only read the file *)


Create HintDb readonly.

Lemma readonly_ret {A : Type} (a : A) : readonly (ret a).
Proof. intros f r f' H; inversion H; reflexivity. Qed.

Lemma readonly_raise {A : Type} (e : exn) : readonly (@raise fobj A e).
Proof. intros f r f' H; inversion H; reflexivity. Qed.

Lemma readonly_diverge {A : Type} : readonly (@diverge fobj A).
Proof. intros f r f' H; inversion H; reflexivity. Qed.

Lemma readonly_seek (off whence : Z) : readonly (seek off whence).
Proof.
  intros f r f' H. unfold seek in H.
  destruct (_ <? 0) in H; inversion H; reflexivity.
Qed.

Lemma readonly_tell : readonly tell.
Proof. intros f r f' H; inversion H; reflexivity. Qed.

Lemma readonly_read (n : Z) : readonly (read n).
Proof.
  intros f r f' H. unfold read in H.
  destruct (n <? -1); inversion H; reflexivity.
Qed.

Lemma readonly_lift_struct {A : Type} (o : option A) : readonly (lift_struct o).
Proof. destruct o; [apply readonly_ret|apply readonly_raise]. Qed.

Lemma readonly_bind {A B : Type} (m : io A) (k : A -> io B) :
  readonly m -> (forall a, readonly (k a)) -> readonly (bind m k).
Proof.
  intros Hm Hk f r f' H. unfold bind in H.
  destruct (m f) as [[a|e|] f1] eqn:E.
  - apply Hk in H. apply Hm in E. congruence.
  - inversion H; subst. now apply Hm in E.
  - inversion H; subst. now apply Hm in E.
Qed.

Lemma readonly_try_except {A : Type} (m h : io A) (c : exn -> bool) :
  readonly m -> readonly h -> readonly (try_except m c h).
Proof.
  intros Hm Hh f r f' H. unfold try_except in H.
  destruct (m f) as [[a|e|] f1] eqn:E.
  - inversion H; subst. now apply Hm in E.
  - destruct (c e).
    + apply Hh in H. apply Hm in E. congruence.
    + inversion H; subst. now apply Hm in E.
  - inversion H; subst. now apply Hm in E.
Qed.

Lemma readonly_if {A : Type} (b : bool) (m1 m2 : io A) :
  readonly m1 -> readonly m2 -> readonly (if b then m1 else m2).
Proof. destruct b; auto. Qed.

#[local] Hint Resolve readonly_ret readonly_raise readonly_diverge readonly_seek
  readonly_tell readonly_read readonly_lift_struct readonly_bind
  readonly_try_except readonly_if : readonly.

Lemma readonly_let {A B : Type} (x : A) (k : A -> io B) :
  readonly (k x) -> readonly (let y := x in k y).
Proof. auto. Qed.

Ltac readonly_step :=
  first
    [ match goal with |- forall _, _ => intro end
    | apply readonly_ret | apply readonly_raise | apply readonly_diverge
    | apply readonly_seek | apply readonly_tell | apply readonly_read
    | apply readonly_lift_struct
    | match goal with
      | |- readonly (bind _ _) => apply readonly_bind
      | |- readonly (try_except _ _ _) => apply readonly_try_except
      | |- readonly (if _ then _ else _) => apply readonly_if
      | |- readonly (match ?x with _ => _ end) => destruct x
      | |- readonly (let _ := _ in _) => cbv zeta
      end ].

Ltac readonly_tac := repeat readonly_step.

Lemma readonly_find_metadata (self : APEv2Data) : readonly (find_metadata self).
Proof. unfold find_metadata, find_before_id3v1. readonly_tac. Qed.

Lemma readonly_fill_missing (self : APEv2Data) (m : Z) : readonly (fill_missing self m).
Proof. unfold fill_missing. readonly_tac. Qed.

Lemma readonly_fix_brokenness_loop (fuel : nat) :
  forall start, readonly (fix_brokenness_loop fuel start).
Proof.
  induction fuel as [|fuel IH]; intros start; simpl; readonly_tac. apply IH.
Qed.

Lemma readonly_fix_brokenness (self : APEv2Data) : readonly (fix_brokenness self).
Proof.
  unfold fix_brokenness. readonly_tac. apply readonly_fix_brokenness_loop.
Qed.

Lemma readonly_init : readonly APEv2Data_init.
Proof.
  unfold APEv2Data_init. readonly_tac;
    first [ apply readonly_find_metadata | apply readonly_fill_missing
          | apply readonly_fix_brokenness ].
Qed.

(** * The backward scan for stray headers *)

Lemma cookie_at_true (c : bytes) (p : Z) :
  cookie_at c p = true -> 0 <= p /\ ztake 8 (zdrop p c) = APETAGEX.
Proof.
  unfold cookie_at. intros H. apply andb_prop in H as [H1 H2].
  apply Z.leb_le in H1. apply bytes_eqb_eq in H2. auto.
Qed.

Lemma cookie_at_false (c : bytes) (p : Z) :
  cookie_at c p = false -> 0 <= p -> bytes_eqb (ztake 8 (zdrop p c)) APETAGEX = false.
Proof.
  unfold cookie_at. intros H Hp. destruct (Z.leb_spec 0 p); [|lia]. exact H.
Qed.

Lemma fix_loop_stop (fuel : nat) (start : Z) (f : fobj) :
  pos f = start -> 0 <= start -> (Z.to_nat start <= fuel)%nat ->
  cookie_at (content f) (start - 24) = false ->
  exists f', fix_brokenness_loop fuel start f = (Ret start, f').
Proof.
  intros Hpos Hs Hfuel Hck.
  destruct fuel as [|fuel]; simpl.
  - destruct (Z.ltb_spec 0 start); [lia|]. eexists; reflexivity.
  - destruct (Z.ltb_spec 0 start); [|eexists; reflexivity].
    destruct (Z.ltb_spec (start - 24) 0) as [Hlt|Hge].
    + erewrite bind_ret.
      2:{ apply bind_raise_catch. erewrite bind_raise by (apply seek_cur_fail; lia).
          reflexivity. }
      cbn [negb]. eexists; reflexivity.
    + erewrite bind_ret.
      2:{ apply try_except_ret. erewrite bind_ret by (apply seek_cur_ok; lia).
          reflexivity. }
      cbn [negb]. io_read. rewrite Hpos. zneg_norm.
      rewrite (cookie_at_false _ _ Hck) by lia. eexists; reflexivity.
Qed.

Lemma fix_loop_chain (k : nat) :
  forall (fuel : nat) (start : Z) (f : fobj),
    pos f = start -> 0 <= start -> (Z.to_nat start <= fuel)%nat ->
    (forall i, 1 <= i <= Z.of_nat k ->
               cookie_at (content f) (start - 24 * i) = true) ->
    cookie_at (content f) (start - 24 * (Z.of_nat k + 1)) = false ->
    exists f', fix_brokenness_loop fuel start f = (Ret (start - 24 * Z.of_nat k), f').
Proof.
  induction k as [|k IH]; intros fuel start f Hpos Hs Hfuel Hchain Hend.
  - replace (start - 24 * Z.of_nat 0) with start by lia.
    apply fix_loop_stop; auto.
  - pose proof (Hchain 1 ltac:(lia)) as H1.
    apply cookie_at_true in H1 as [Hp1 Hc1].
    replace (start - 24 * 1) with (start - 24) in * by lia.
    destruct fuel as [|fuel]; [lia|]. simpl.
    destruct (Z.ltb_spec 0 start); [|lia].
    erewrite bind_ret.
    2:{ apply try_except_ret. erewrite bind_ret by (apply seek_cur_ok; lia).
        reflexivity. }
    cbn [negb]. io_read. rewrite Hpos. zneg_norm.
    rewrite Hc1, bytes_eqb_refl. change (zlen APETAGEX) with 8.
    io_seek. rewrite bind_tell. cbn [pos]. rewrite Z.add_simpl_r.
    destruct (IH fuel (start - 24)
                {| content := content f; pos := start - 24;
                   reads := reads f ++ [(start - 24, 8)] |})
      as (f' & Hrun); cbn [pos content]; try lia.
    + intros i Hi. replace (start - 24 - 24 * i) with (start - 24 * (i + 1)) by lia.
      apply Hchain. lia.
    + replace (start - 24 - 24 * (Z.of_nat k + 1))
        with (start - 24 * (Z.of_nat (S k) + 1)) by lia.
      exact Hend.
    + rewrite Hrun. exists f'. do 2 f_equal. lia.
Qed.

Lemma fix_loop_total (fuel : nat) :
  forall (start : Z) (f : fobj),
    pos f = start -> 0 <= start -> (Z.to_nat start <= fuel)%nat ->
    exists s' f', fix_brokenness_loop fuel start f = (Ret s', f') /\ 0 <= s' <= start.
Proof.
  induction fuel as [|fuel IH]; intros start f Hpos Hs Hfuel; simpl.
  - destruct (Z.ltb_spec 0 start); [lia|]. eexists _, _; split; [reflexivity|lia].
  - destruct (Z.ltb_spec 0 start); [|eexists _, _; split; [reflexivity|lia]].
    destruct (Z.ltb_spec (start - 24) 0) as [Hlt|Hge].
    + erewrite bind_ret.
      2:{ apply bind_raise_catch. erewrite bind_raise by (apply seek_cur_fail; lia).
          reflexivity. }
      cbn [negb]. eexists _, _; split; [reflexivity|lia].
    + erewrite bind_ret.
      2:{ apply try_except_ret. erewrite bind_ret by (apply seek_cur_ok; lia).
          reflexivity. }
      cbn [negb]. io_read. rewrite Hpos. zneg_norm.
      destruct (bytes_eqb (ztake 8 (zdrop (start - 24) (content f))) APETAGEX) eqn:E;
        [|eexists _, _; split; [reflexivity|lia]].
      apply bytes_eqb_eq in E. rewrite E. change (zlen APETAGEX) with 8.
      io_seek. rewrite bind_tell. cbn [pos]. rewrite Z.add_simpl_r.
      destruct (IH (start - 24)
                  {| content := content f; pos := start - 24;
                     reads := reads f ++ [(start - 24, 8)] |})
        as (s' & f' & Hrun & Hb); cbn [pos]; try lia.
      rewrite Hrun. eexists _, _; split; [reflexivity|lia].
Qed.

Lemma seek_set_inv (off : Z) (f f' : fobj) (a : unit) :
  seek off 0 f = (Ret a, f') -> 0 <= off /\ f' = mkFobj (content f) off (reads f).
Proof.
  unfold seek. cbn [Z.eqb]. destruct (Z.ltb_spec off 0) as [Hlt|Hge];
    intros Hrun; inversion Hrun.
  split; [lia|reflexivity].
Qed.

Lemma fix_brokenness_chain (self r : APEv2Data) (f f' : fobj) (h : Z) (k : nat) :
  fix_brokenness self f = (Ret r, f') ->
  header self = Some h ->
  (forall i, 1 <= i <= Z.of_nat k -> cookie_at (content f) (h - 24 * i) = true) ->
  cookie_at (content f) (h - 24 * (Z.of_nat k + 1)) = false ->
  start r = Some (h - 24 * Z.of_nat k).
Proof.
  unfold fix_brokenness. intros H Hh Hchain Hend. rewrite Hh in H.
  do 2 bind_inv H. apply ret_inv in H as [<- _].
  apply seek_set_inv in Hm as [Hh0 ->].
  destruct (fix_loop_chain k (Z.to_nat h) h
              {| content := content f; pos := h; reads := reads f |})
    as (f2 & Hrun); cbn [pos content]; auto; try lia.
  rewrite Hrun in Hm0. inversion Hm0; subst. reflexivity.
Qed.

Lemma max_offset_none (a b : option Z) :
  max_offset a b = None -> a = None /\ b = None.
Proof. destruct a, b; simpl; intros H; try discriminate; auto. Qed.

(** The stages [__init__] went through when it returned. *)
Lemma init_inv (f f' : fobj) (d : APEv2Data) :
  APEv2Data_init f = (Ret d, f') ->
  exists d0 f0,
    find_metadata new_data f = (Ret d0, f0) /\
    ((header d0 = None /\ footer d0 = None /\ d = d0) \/
     (exists m d1 f1 d2 f2,
         max_offset (header d0) (footer d0) = Some m /\
         fill_missing (set_metadata d0 (Some m)) m f0 = (Ret d1, f1) /\
         fix_brokenness d1 f1 = (Ret d2, f2) /\
         (d = d2 \/ exists t, d = set_tag d2 (Some t)))).
Proof.
  unfold APEv2Data_init. intros H. bind_inv H. exists a, f0. split; [exact Hm|].
  destruct (max_offset (header a) (footer a)) as [m|] eqn:E.
  - right. do 2 bind_inv H. exists m, a0, f1, a1, f2. repeat split; auto.
    destruct (data a1), (size a1).
    2,3,4: apply ret_inv in H as [<- _]; auto.
    do 2 bind_inv H. apply ret_inv in H as [<- _]. right. eexists; reflexivity.
  - left. apply max_offset_none in E as [? ?]. apply ret_inv in H as [<- _]. auto.
Qed.

Lemma fill_missing_size (self r : APEv2Data) (m : Z) (f f' : fobj) :
  fill_missing self m f = (Ret r, f') -> exists sz, size r = Some sz.
Proof.
  unfold fill_missing. intros H. do 8 bind_inv H.
  destruct self as [st hd dt ft en md tg vr sz it fl ias]; cbn in H.
  destruct hd as [h|]; [|destruct ft as [t|]].
  - do 2 bind_inv H.
    match type of H with context [bytes_eqb ?x ?y] => destruct (bytes_eqb x y) end;
      apply ret_inv in H as [<- _]; cbn; eauto.
  - match type of H with context [?x =? 0] => destruct (x =? 0) end;
      apply ret_inv in H as [<- _]; cbn; eauto.
  - discriminate H.
Qed.

Lemma set_tag_fields (d : APEv2Data) (t : option bytes) :
  start (set_tag d t) = start d /\ header (set_tag d t) = header d
  /\ end_ (set_tag d t) = end_ d /\ size (set_tag d t) = size d
  /\ is_at_start (set_tag d t) = is_at_start d /\ data (set_tag d t) = data d
  /\ items (set_tag d t) = items d /\ footer (set_tag d t) = footer d.
Proof. destruct d; cbn; repeat split. Qed.

Lemma default_buffer_positive : 0 < DEFAULT_BUFFER_SIZE.
Proof. reflexivity. Qed.

(** Removing the located span: what [delete_tag] leaves. *)
Lemma delete_tag_ok (pf : platform) (c : bytes) (d : APEv2Data) (f1 : fobj) (s e sz : Z) :
  APEv2Data_init (open_file c) = (Ret d, f1) ->
  start d = Some s -> end_ d = Some e -> size d = Some sz ->
  0 <= s -> s < e -> e <= zlen c ->
  exists f',
    delete_tag pf (open_file c) = (Ret tt, f') /\
    content f' = ztake s c ++ zdrop e c.
Proof.
  intros Hinit Hs He Hsz H0 H1 H2.
  pose proof (readonly_init _ _ _ Hinit) as Hc. cbn [content open_file] in Hc.
  unfold delete_tag. erewrite bind_ret by exact Hinit. rewrite Hs, Hsz, He.
  destruct (delete_bytes_ok pf (e - s) s DEFAULT_BUFFER_SIZE f1) as (p & lg & Hrun);
    [apply default_buffer_positive | lia | lia | rewrite Hc; lia |].
  rewrite Hrun. eexists. split; [reflexivity|]. cbn [content].
  unfold deleted. rewrite Hc. do 2 f_equal. lia.
Qed.

(** C6.  Let [__init__] locate a tag whose header is at [h] and whose end
    [e] lies in the file, and let [k] stray copies of the cookie precede
    it, 24 bytes apart, with none before them.  Then the reported start is
    the earliest copy, [h - 24 k], and [delete] returns normally having cut
    exactly the span from that copy to the tag's end out of the file. *)
Theorem stray_headers_found_and_deleted
  (pf : platform) (c : bytes) (d : APEv2Data) (f1 : fobj) (h e : Z) (k : nat) :
  APEv2Data_init (open_file c) = (Ret d, f1) ->
  header d = Some h -> end_ d = Some e ->
  (forall i, 1 <= i <= Z.of_nat k -> cookie_at c (h - 24 * i) = true) ->
  cookie_at c (h - 24 * (Z.of_nat k + 1)) = false ->
  h - 24 * Z.of_nat k < e -> e <= zlen c ->
  start d = Some (h - 24 * Z.of_nat k) /\
  exists f',
    delete_tag pf (open_file c) = (Ret tt, f') /\
    content f' = ztake (h - 24 * Z.of_nat k) c ++ zdrop e c.
Proof.
  intros Hinit Hh He Hchain Hend Hlt Hle.
  destruct (init_inv _ _ _ Hinit) as (d0 & f0 & Hfind & [(Hn & _ & ->)|Hfound]);
    [congruence|].
  destruct Hfound as (m & d1 & f1' & d2 & f2 & Hmax & Hfill & Hfix & Hd).
  pose proof (readonly_find_metadata _ _ _ _ Hfind) as Hc0.
  pose proof (readonly_fill_missing _ _ _ _ _ Hfill) as Hc1.
  cbn [content open_file] in Hc0. rewrite Hc0 in Hc1.
  destruct (fill_missing_size _ _ _ _ _ Hfill) as (sz & Hsz).
  destruct (fix_brokenness_keeps _ _ _ _ Hfix) as (_ & _ & Hh2 & He2 & _ & Hsz2 & _).
  assert (Hd2 : header d2 = Some h /\ end_ d2 = Some e /\ start d = start d2
                /\ size d = Some sz).
  { destruct Hd as [->|(t & ->)].
    - repeat split; congruence.
    - destruct (set_tag_fields d2 (Some t)) as (E1 & E2 & E3 & E4 & _).
      rewrite E2 in Hh. rewrite E3 in He. rewrite E1, E4.
      repeat split; congruence. }
  destruct Hd2 as (Hh' & He' & Hst & Hsz').
  assert (Hstart : start d = Some (h - 24 * Z.of_nat k)).
  { rewrite Hst. eapply fix_brokenness_chain; eauto; rewrite ?Hc1; auto. congruence. }
  split; [exact Hstart|].
  assert (0 <= h - 24 * Z.of_nat k).
  { destruct k as [|k].
    - unfold fix_brokenness in Hfix. rewrite <- Hh2, Hh' in Hfix.
      bind_inv Hfix. apply seek_set_inv in Hm as [? _]. lia.
    - specialize (Hchain (Z.of_nat (S k)) ltac:(lia)).
      apply cookie_at_true in Hchain. lia. }
  eapply delete_tag_ok; eauto.
Qed.

Lemma stray_headers_found_and_deleted_witness :
  let c := stray_header_file in
  let r := APEv2Data_init (open_file c) in
  let d := match fst r with Ret d => d | _ => new_data end in
  start d = Some (58 - 24 * Z.of_nat 2) /\
  exists f',
    delete_tag (mkPlatform false true) (open_file c) = (Ret tt, f') /\
    content f' = ztake (58 - 24 * Z.of_nat 2) c ++ zdrop 122 c.
Proof.
  intros c r d.
  apply (stray_headers_found_and_deleted (mkPlatform false true) c d (snd r) 58 122 2).
  - vm_compute. reflexivity.
  - vm_compute. reflexivity.
  - vm_compute. reflexivity.
  - intros i Hi. assert (Hc : i = 1 \/ i = 2) by lia.
    destruct Hc as [-> | ->]; vm_compute; reflexivity.
  - vm_compute. reflexivity.
  - vm_compute. reflexivity.
  - vm_compute. discriminate.
Defined.

(** * Python dictionaries *)

Lemma dict_get_set {V : Type} (d : pydict V) (k k' : string) (v : V) :
  dict_get (dict_set d k v) k' = if String.eqb k k' then Some v else dict_get d k'.
Proof.
  induction d as [|[k0 v0] d IH]; simpl.
  - reflexivity.
  - destruct (String.eqb_spec k0 k) as [->|Hne]; simpl.
    + destruct (String.eqb_spec k k'); reflexivity.
    + destruct (String.eqb_spec k0 k') as [->|Hne'].
      * destruct (String.eqb_spec k k'); [congruence|reflexivity].
      * exact IH.
Qed.

Lemma dict_get_in {V : Type} (d : pydict V) (k : string) :
  In k (dict_keys d) <-> dict_get d k <> None.
Proof.
  induction d as [|[k0 v0] d IH]; simpl.
  - split; [tauto|congruence].
  - destruct (String.eqb_spec k0 k) as [->|Hne].
    + split; [congruence|auto].
    + rewrite <- IH. split; [intros [?|?]; [congruence|auto]|auto].
Qed.

Lemma dict_keys_set {V : Type} (d : pydict V) (k : string) (v : V) :
  dict_keys (dict_set d k v) =
    if in_dec string_dec k (dict_keys d) then dict_keys d else dict_keys d ++ [k].
Proof.
  induction d as [|[k0 v0] d IH]; simpl.
  - reflexivity.
  - destruct (String.eqb_spec k0 k) as [->|Hne]; simpl.
    + destruct (string_dec k k); [reflexivity|congruence].
    + rewrite IH. destruct (string_dec k0 k); [congruence|].
      destruct (in_dec string_dec k (dict_keys d)); reflexivity.
Qed.

Lemma dict_keys_set_in {V : Type} (d : pydict V) (k k' : string) (v : V) :
  In k' (dict_keys (dict_set d k v)) <-> k' = k \/ In k' (dict_keys d).
Proof.
  rewrite dict_keys_set. destruct (in_dec string_dec k (dict_keys d)).
  - split; [auto|intros [->|?]; auto].
  - rewrite in_app_iff. simpl. split; [intros [?|[?|[]]]; auto|intros [->|?]; auto].
Qed.

Lemma dict_set_nodup {V : Type} (d : pydict V) (k : string) (v : V) :
  NoDup (dict_keys d) -> NoDup (dict_keys (dict_set d k v)).
Proof.
  intros H. rewrite dict_keys_set.
  destruct (in_dec string_dec k (dict_keys d)) as [Hin|Hnin]; [exact H|].
  apply NoDup_app; [exact H|constructor; [simpl; tauto|constructor]|].
  intros x Hx [<-|[]]. contradiction.
Qed.

Lemma dict_del_keys {V : Type} (d d' : pydict V) (k : string) :
  dict_del d k = Some d' ->
  (forall k', In k' (dict_keys d') -> In k' (dict_keys d)) /\
  (NoDup (dict_keys d) -> NoDup (dict_keys d') /\ ~ In k (dict_keys d')).
Proof.
  revert d'. induction d as [|[k0 v0] d IH]; simpl; intros d' H.
  - discriminate.
  - destruct (String.eqb_spec k0 k) as [->|Hne].
    + inversion H; subst. split; [auto|]. intros Hnd. inversion Hnd; auto.
    + destruct (dict_del d k) as [d1|]; [|discriminate]. simpl in H.
      inversion H; subst. destruct (IH d1 eq_refl) as [Hin Hnd]. simpl. split.
      * intros k' [?|?]; auto.
      * intros Hn. inversion Hn; subst. destruct (Hnd H3) as [Hn1 Hn2].
        split; [constructor; auto|]. intros [?|?]; [congruence|auto].
Qed.

(** * The tag mapping keeps one entry per folded key *)


Lemma preserves_ret {A : Type} (a : A) : preserves (ret a).
Proof. intros t r t' Ht H; inversion H; subst; exact Ht. Qed.

Lemma preserves_raise {A : Type} (e : exn) : preserves (@raise APEv2 A e).
Proof. intros t r t' Ht H; inversion H; subst; exact Ht. Qed.

Lemma preserves_bind {A B : Type} (m : M APEv2 A) (k : A -> M APEv2 B) :
  preserves m -> (forall a, preserves (k a)) -> preserves (bind m k).
Proof.
  intros Hm Hk t r t' Ht H. unfold bind in H.
  destruct (m t) as [[a|e|] t1] eqn:E.
  - eapply Hk; [eapply Hm; eauto|exact H].
  - inversion H; subst. eapply Hm; eauto.
  - inversion H; subst. eapply Hm; eauto.
Qed.

Lemma preserves_lift_struct {A : Type} (o : option A) : preserves (lift_struct o).
Proof. destruct o; [apply preserves_ret|apply preserves_raise]. Qed.

Lemma preserves_APEValue (b : bytes) (k : Z) : preserves (APEValue b k).
Proof.
  unfold APEValue.
  repeat match goal with |- context [?x =? ?y] => destruct (x =? y) end;
    first [apply preserves_ret | apply preserves_raise].
Qed.

Lemma preserves_guess (v : pyvalue) : preserves (guess_value v).
Proof.
  destruct v; simpl; try apply preserves_ret; try apply preserves_APEValue.
  destruct (decode_utf8 b); apply preserves_APEValue.
Qed.

Lemma tag_inv_set (t : APEv2) (key : string) (v : APEValue_t) :
  tag_inv t -> is_valid_apev2_key key = true ->
  tag_inv (mkTag (dict_set (casemap t) (lower key) key)
                 (dict_set (dict_ t) (lower key) v)).
Proof.
  intros [Hnd Hcm] Hvalid. split; cbn [dict_ casemap].
  - now apply dict_set_nodup.
  - intros k Hk. rewrite dict_get_set.
    destruct (String.eqb_spec (lower key) k) as [<-|Hne].
    + exists key. auto.
    + apply dict_keys_set_in in Hk as [->|Hk]; [congruence|]. now apply Hcm.
Qed.

Lemma preserves_setitem (key : string) (v : pyvalue) : preserves (setitem key v).
Proof.
  unfold setitem. destruct (is_valid_apev2_key key) eqn:Hv; cbn [negb];
    [|apply preserves_raise].
  apply preserves_bind; [apply preserves_guess|].
  intros v' t r t' Ht H. inversion H; subst. now apply tag_inv_set.
Qed.

Lemma preserves_delitem (key : string) : preserves (delitem key).
Proof.
  intros t r t' [Hnd Hcm] H. unfold delitem in H.
  destruct (is_valid_apev2_key key); cbn [negb] in H;
    [|inversion H; subst; split; auto].
  destruct (dict_del (dict_ t) (lower key)) as [d|] eqn:E;
    inversion H; subst; [|split; auto].
  destruct (dict_del_keys _ _ _ E) as [Hin Hn]. split; cbn [dict_ casemap].
  - now apply Hn.
  - intros k Hk. apply Hcm. now apply Hin.
Qed.

Lemma preserves_setitem_decoded (key : bytes) (v : APEValue_t) :
  preserves (setitem_decoded key v).
Proof.
  unfold setitem_decoded. destruct (decode_utf8 key);
    [apply preserves_setitem|apply preserves_raise|apply preserves_raise].
Qed.

Lemma preserves_parse_items (count : nat) :
  forall rest, preserves (parse_items count rest).
Proof.
  induction count as [|count IH]; intros rest; simpl.
  - apply preserves_ret.
  - apply preserves_bind; [apply preserves_lift_struct|intros sz].
    apply preserves_bind; [apply preserves_lift_struct|intros fl].
    destruct (_ =? 3); [apply preserves_raise|].
    destruct (read_key (zdrop 4 (zdrop 4 rest))) as [key rest'].
    apply preserves_bind; [apply preserves_APEValue|intros v].
    apply preserves_bind; [apply preserves_setitem_decoded|intros _].
    apply IH.
Qed.

Lemma tag_inv_new : tag_inv new_tag.
Proof. split; [constructor|intros k []]. Qed.

(** Under the invariant the reported keys fold to the stored keys. *)
Lemma folded_keys_stored (t : APEv2) :
  tag_inv t -> map lower (keys t) = dict_keys (dict_ t).
Proof.
  intros [_ Hcm]. unfold keys. rewrite map_map.
  rewrite <- (map_id (dict_keys (dict_ t))) at 2.
  apply map_ext_in. intros k Hk.
  destruct (Hcm k Hk) as (ck & -> & Hl & _). exact Hl.
Qed.

Lemma guess_value_run (v : pyvalue) (t : APEv2) :
  guess_value v t = (Ret (guessed v), t).
Proof.
  destruct v; simpl; try reflexivity. destruct (decode_utf8 b); reflexivity.
Qed.

Lemma setitem_run (key : string) (v : pyvalue) (t : APEv2) :
  is_valid_apev2_key key = true ->
  setitem key v t =
    (Ret tt, mkTag (dict_set (casemap t) (lower key) key)
                   (dict_set (dict_ t) (lower key) (guessed v))).
Proof.
  intros Hv. unfold setitem. rewrite Hv. cbn [negb].
  erewrite bind_ret by apply guess_value_run. reflexivity.
Qed.

Lemma setitem_invalid (key : string) (v : pyvalue) (t : APEv2) :
  is_valid_apev2_key key = false -> setitem key v t = (Raise KeyError, t).
Proof. intros Hv. unfold setitem. rewrite Hv. reflexivity. Qed.

Lemma set_all_same_key (ws : list (string * pyvalue)) :
  forall (t : APEv2) (k : string) (v : pyvalue) (l : string),
    tag_inv t ->
    (forall w, In w (ws ++ [(k, v)]) ->
               is_valid_apev2_key (fst w) = true /\ lower (fst w) = l) ->
    exists t',
      set_all (ws ++ [(k, v)]) t = (Ret tt, t') /\ tag_inv t' /\
      dict_get (dict_ t') l = Some (guessed v) /\
      dict_get (casemap t') l = Some k.
Proof.
  induction ws as [|[k0 v0] ws IH]; intros t k v l Ht Hall.
  - destruct (Hall (k, v)) as [Hv Hl]; [left; reflexivity|]. cbn [fst] in *.
    simpl. erewrite bind_ret by (apply setitem_run; exact Hv).
    eexists. split; [reflexivity|]. split; [now apply tag_inv_set|].
    cbn [dict_ casemap]. rewrite !dict_get_set, Hl, String.eqb_refl. auto.
  - destruct (Hall (k0, v0)) as [Hv Hl]; [left; reflexivity|]. cbn [fst] in *.
    simpl. erewrite bind_ret by (apply setitem_run; exact Hv).
    apply IH; [now apply tag_inv_set|].
    intros w Hw. apply Hall. right. exact Hw.
Qed.

Lemma keys_casing (t : APEv2) (l k x : string) :
  tag_inv t -> dict_get (casemap t) l = Some k ->
  In x (keys t) -> lower x = l -> x = k.
Proof.
  intros [_ Hcm] Hk Hx Hl. unfold keys in Hx. apply in_map_iff in Hx as (s & Hs & Hin).
  destruct (Hcm s Hin) as (ck & Hget & Hlo & _). rewrite Hget in Hs. subst x.
  assert (s = l) by congruence. subst s. congruence.
Qed.

(** C7.  The mapping holds at most one entry per case-folded key, and
    every set, delete and parse keeps it so.  After the same folded key has
    been set under any number of casings, exactly one reported key folds to
    it; that key has the casing of the last write and the value of the last
    write. *)
Theorem one_entry_per_folded_key
  (t : APEv2) (ws : list (string * pyvalue)) (k : string) (v : pyvalue) (l : string) :
  tag_inv t ->
  (forall w, In w (ws ++ [(k, v)]) ->
             is_valid_apev2_key (fst w) = true /\ lower (fst w) = l) ->
  NoDup (map lower (keys t)) /\
  (forall key val, tag_inv (snd (setitem key val t))) /\
  (forall key, tag_inv (snd (delitem key t))) /\
  (forall tag count, tag_inv (snd (parse_tag tag count t))) /\
  exists t',
    set_all (ws ++ [(k, v)]) t = (Ret tt, t') /\
    tag_inv t' /\ NoDup (map lower (keys t')) /\
    count_occ string_dec (map lower (keys t')) l = 1%nat /\
    In k (keys t') /\
    (forall x, In x (keys t') -> lower x = l -> x = k) /\
    getitem k t' = (Ret (guessed v), t').
Proof.
  intros Ht Hall.
  split; [rewrite folded_keys_stored by exact Ht; apply Ht|].
  split; [intros key val; destruct (setitem key val t) as [r t1] eqn:E;
          eapply preserves_setitem; eauto|].
  split; [intros key; destruct (delitem key t) as [r t1] eqn:E;
          eapply preserves_delitem; eauto|].
  split; [intros tag count; destruct (parse_tag tag count t) as [r t1] eqn:E;
          eapply preserves_parse_items; eauto|].
  destruct (set_all_same_key ws t k v l Ht Hall) as (t' & Hrun & Ht' & Hget & Hcase).
  exists t'. split; [exact Hrun|]. split; [exact Ht'|].
  assert (Hin : In l (dict_keys (dict_ t'))) by (apply dict_get_in; congruence).
  rewrite folded_keys_stored by exact Ht'.
  destruct (Hall (k, v)) as [Hv Hl]; [apply in_or_app; right; left; reflexivity|].
  cbn [fst] in *.
  split; [apply Ht'|].
  split; [apply NoDup_count_occ'; [apply Ht'|exact Hin]|].
  split.
  { unfold keys. apply in_map_iff. exists l. rewrite Hcase. auto. }
  split; [intros x Hx Hlx; eapply keys_casing; eauto|].
  unfold getitem. rewrite Hv, Hl, Hget. reflexivity.
Qed.

Lemma one_entry_per_folded_key_witness :
  let ws := [("artist"%string, PyStr "a"); ("ARTIST"%string, PyStr "b")] in
  let k := "Artist"%string in
  let v := PyStr "c" in
  let t := new_tag in
  NoDup (map lower (keys t)) /\
  (forall key val, tag_inv (snd (setitem key val t))) /\
  (forall key, tag_inv (snd (delitem key t))) /\
  (forall tag count, tag_inv (snd (parse_tag tag count t))) /\
  exists t',
    set_all (ws ++ [(k, v)]) t = (Ret tt, t') /\
    tag_inv t' /\ NoDup (map lower (keys t')) /\
    count_occ string_dec (map lower (keys t')) "artist"%string = 1%nat /\
    In k (keys t') /\
    (forall x, In x (keys t') -> lower x = "artist"%string -> x = k) /\
    getitem k t' = (Ret (guessed v), t').
Proof.
  intros ws k v t.
  apply (one_entry_per_folded_key t ws k v "artist"%string).
  - split; [constructor|intros x []].
  - intros w [<-|[<-|[<-|[]]]]; vm_compute; split; reflexivity.
Defined.

(** * Writing the tag *)


Lemma write_append (d : bytes) (f : fobj) :
  pos f = zlen (content f) ->
  write d f = (Ret tt, mkFobj (content f ++ d) (zlen (content f ++ d)) (reads f)).
Proof.
  intros Hp. rewrite write_ok by (right; rewrite Hp; zlia).
  rewrite Hp, write_at_end, zlen_app. reflexivity.
Qed.

Lemma save_tail_cases (self : APEv2) (f : fobj) :
  (exists t f',
      rendered self = Some t /\ save_tail self f = (Ret tt, f') /\
      content f' = content f ++ t) \/
  (rendered self = None /\ fst (save_tail self f) <> Ret tt).
Proof.
  unfold save_tail, rendered.
  erewrite bind_ret by (apply seek_end_ok; zlia). rewrite Z.add_0_r.
  destruct (tag_items self) as [[its|e|] t1] eqn:Eit; cbn [fst].
  2,3: right; split; [reflexivity|]; unfold bind at 1, of_tag; rewrite Eit;
       cbn [fst]; discriminate.
  erewrite bind_ret by (unfold of_tag; rewrite Eit; reflexivity).
  destruct (internal_all its) as [enc|]; cbn [lift_struct].
  2:{ right. split; [reflexivity|]. cbn. discriminate. }
  rewrite bind_ret_l.
  destruct (pack_tag_header 2000 (zlen (concat (sorted_by zlen enc)) + 32)
              (zlen (sorted_by zlen enc)) (Z.lor HAS_HEADER IS_HEADER)) as [hd|];
    cbn [lift_struct].
  2:{ right. split; [reflexivity|]. cbn. discriminate. }
  rewrite bind_ret_l.
  erewrite bind_ret by (apply write_append; reflexivity).
  erewrite bind_ret by (apply write_append; reflexivity).
  destruct (pack_tag_header 2000 (zlen (concat (sorted_by zlen enc)) + 32)
              (zlen (sorted_by zlen enc)) HAS_HEADER) as [ft|];
    cbn [lift_struct].
  2:{ right. split; [reflexivity|]. cbn. discriminate. }
  rewrite bind_ret_l. rewrite write_append by reflexivity.
  left. eexists _, _. split; [reflexivity|]. split; [reflexivity|].
  cbn [content]. now rewrite <- !app_assoc.
Qed.

(** * What [__init__] reports *)

Lemma find_metadata_short (self : APEv2Data) (f : fobj) :
  zlen (content f) < 32 ->
  exists f', find_metadata self f = (Ret self, f').
Proof.
  intros Hn. unfold find_metadata.
  erewrite bind_ret.
  2:{ erewrite bind_raise_catch
        by (erewrite bind_raise by (apply seek_end_fail; lia); reflexivity).
      erewrite bind_ret by (apply seek_end_ok; zlia). reflexivity. }
  cbn [negb]. eexists. reflexivity.
Qed.

Lemma find_metadata_cases (c : bytes) (d0 : APEv2Data) (f0 : fobj) :
  find_metadata new_data (open_file c) = (Ret d0, f0) ->
  d0 = new_data \/ (32 <= zlen c /\ d0 = found c).
Proof.
  intros H. destruct (Z.ltb_spec (zlen c) 32) as [Hlt|Hge].
  - destruct (find_metadata_short new_data (open_file c) Hlt) as (f' & Hrun).
    rewrite Hrun in H. inversion H. auto.
  - destruct (find_metadata_spec c Hge) as (f' & Hrun & _).
    rewrite Hrun in H. inversion H. auto.
Qed.

Lemma found_at_start (c : bytes) :
  is_at_start (found c) = true ->
  header (found c) = Some 0 /\ footer (found c) = None.
Proof.
  unfold found. destruct (cookie_at c (zlen c - 32)); [discriminate|].
  destruct (footer_behind_trailer c); [discriminate|].
  destruct (cookie_at c 0); [auto|discriminate].
Qed.

Lemma byte_val_range (b : byte) : 0 <= byte_val b < 256.
Proof.
  unfold byte_val. pose proof (Byte.to_N_bounded b). lia.
Qed.

Lemma some_inj {A : Type} (a b : A) : Some a = Some b -> a = b.
Proof. now intros [= ->]. Qed.

Lemma uint_le_range (b : bytes) (n : Z) : uint_le b = Some n -> 0 <= n < 2 ^ 32.
Proof.
  unfold uint_le. destruct b as [|b0 [|b1 [|b2 [|b3 [|]]]]]; try discriminate.
  intros H. apply some_inj in H. subst n.
  pose proof (byte_val_range b0). pose proof (byte_val_range b1).
  pose proof (byte_val_range b2). pose proof (byte_val_range b3).
  change (2 ^ 32) with 4294967296. lia.
Qed.

Lemma fill_missing_span (self r : APEv2Data) (m : Z) (f f' : fobj) :
  fill_missing self m f = (Ret r, f') ->
  exists h e sz,
    header r = Some h /\ end_ r = Some e /\ size r = Some sz /\
    0 <= sz /\ h <= e /\
    (forall h0, header self = Some h0 -> h = h0 /\ e = h0 + 32 + sz) /\
    is_at_start r = is_at_start self.
Proof.
  unfold fill_missing. intros H. do 8 bind_inv H.
  apply lift_struct_inv in Hm2 as [Hsz _]. apply uint_le_range in Hsz.
  destruct self as [st hd dt ft en md tg vr sz it fl ias]; cbn in H.
  destruct hd as [h|]; [|destruct ft as [t|]].
  - do 2 bind_inv H.
    match type of H with context [bytes_eqb ?x ?y] => destruct (bytes_eqb x y) end;
      apply ret_inv in H as [<- _]; cbn; exists h, (h + 32 + a2), a2;
      repeat split; auto; try lia; intros;
      repeat match goal with E : Some _ = Some _ |- _ => apply some_inj in E end;
      subst; auto; lia.
  - match type of H with context [?x =? 0] => destruct (x =? 0) end;
      apply ret_inv in H as [<- _]; cbn; eexists _, _, a2;
      repeat split; auto; try lia; intros; discriminate.
  - discriminate H.
Qed.

Lemma fix_brokenness_start (self r : APEv2Data) (f f' : fobj) (h : Z) :
  fix_brokenness self f = (Ret r, f') -> header self = Some h ->
  exists s, start r = Some s /\ 0 <= s <= h.
Proof.
  unfold fix_brokenness. intros H Hh. rewrite Hh in H.
  do 2 bind_inv H. apply ret_inv in H as [<- _].
  apply seek_set_inv in Hm as [Hh0 ->].
  destruct (fix_loop_total (Z.to_nat h) h
              {| content := content f; pos := h; reads := reads f |})
    as (s' & f2 & Hrun & Hb); cbn [pos]; auto; try lia.
  rewrite Hrun in Hm0. inversion Hm0; subst.
  exists a0. destruct self; cbn. split; [reflexivity|lia].
Qed.

(** The span [__init__] reports lies at a non-negative offset and is not
    reversed; a tag at the start begins at offset 0 and spans 32 bytes at
    least. *)
Lemma init_span (c : bytes) (d : APEv2Data) (f1 : fobj) (s : Z) :
  APEv2Data_init (open_file c) = (Ret d, f1) -> start d = Some s ->
  exists e sz,
    end_ d = Some e /\ size d = Some sz /\ 0 <= s /\ s <= e /\
    (is_at_start d = true -> s = 0 /\ 32 <= e).
Proof.
  intros Hinit Hs.
  destruct (init_inv _ _ _ Hinit) as (d0 & f0 & Hfind & [(Hn & _ & ->)|Hfound]).
  { apply find_metadata_cases in Hfind as [->|[_ ->]]; [discriminate Hs|].
    unfold found in Hs.
    destruct (cookie_at c (zlen c - 32)); [discriminate|].
    destruct (footer_behind_trailer c); [discriminate|].
    destruct (cookie_at c 0); discriminate. }
  destruct Hfound as (m & d1 & f1' & d2 & f2 & Hmax & Hfill & Hfix & Hd).
  destruct (fill_missing_span _ _ _ _ _ Hfill)
    as (h & e & sz & Hh & He & Hsz & Hsz0 & Hhe & Hhdr & Hias).
  destruct (fix_brokenness_start _ _ _ _ h Hfix Hh) as (s2 & Hs2 & Hb).
  destruct (fix_brokenness_keeps _ _ _ _ Hfix) as (Hi2 & _ & Hh2 & He2 & _ & Hsz2 & _).
  assert (Hsame : start d = start d2 /\ end_ d = end_ d2 /\ size d = size d2
                  /\ is_at_start d = is_at_start d2).
  { destruct Hd as [->|(t & ->)]; [auto|].
    destruct (set_tag_fields d2 (Some t)) as (E1 & _ & E3 & E4 & E5 & _). auto. }
  destruct Hsame as (E1 & E3 & E4 & E5).
  exists e, sz. rewrite E3, E4, E5, He2, Hsz2, Hi2, Hias.
  assert (s = s2) by congruence. subst s2.
  repeat split; auto; try lia.
  - cbn in H. apply find_metadata_cases in Hfind as [->|[_ ->]]; [discriminate H|].
    destruct (found_at_start c H) as [Hh0 _].
    destruct (Hhdr 0) as [-> _]; [destruct (found c); cbn in *; exact Hh0|]. lia.
  - cbn in H. apply find_metadata_cases in Hfind as [->|[_ ->]]; [discriminate H|].
    destruct (found_at_start c H) as [Hh0 _].
    destruct (Hhdr 0) as [_ ->]; [destruct (found c); cbn in *; exact Hh0|]. lia.
Qed.

Lemma init_no_start (c : bytes) (d : APEv2Data) (f1 : fobj) :
  APEv2Data_init (open_file c) = (Ret d, f1) -> start d = None ->
  is_at_start d = false.
Proof.
  intros Hinit Hs.
  destruct (init_inv _ _ _ Hinit) as (d0 & f0 & Hfind & [(Hn & Hft & ->)|Hfound]).
  - apply find_metadata_cases in Hfind as [->|[_ ->]]; [reflexivity|].
    destruct (is_at_start (found c)) eqn:E; [|reflexivity].
    apply found_at_start in E as [E _]. congruence.
  - destruct Hfound as (m & d1 & f1' & d2 & f2 & Hmax & Hfill & Hfix & Hd).
    destruct (fill_missing_span _ _ _ _ _ Hfill) as (h & e & sz & Hh & _).
    destruct (fix_brokenness_start _ _ _ _ h Hfix Hh) as (s2 & Hs2 & _).
    destruct Hd as [->|(t & ->)]; [congruence|].
    destruct (set_tag_fields d2 (Some t)) as (E1 & _). congruence.
Qed.

(** * Saving *)

Lemma save_unfold (pf : platform) (self : APEv2) :
  save pf self =
    (d <- APEv2Data_init ;;
     (if is_at_start d then
        match end_ d, start d with
        | Some e, Some s => delete_bytes pf (e - s) s DEFAULT_BUFFER_SIZE
        | _, _ => raise ValueError
        end
      else
        match start d with
        | Some s => seek s 0 ;; truncate None
        | None => ret tt
        end) ;;
     save_tail self).
Proof. reflexivity. Qed.

Lemma truncate_here (f : fobj) :
  0 <= pos f <= zlen (content f) ->
  truncate None f = (Ret tt, mkFobj (ztake (pos f) (content f)) (pos f) (reads f)).
Proof.
  intros H. unfold truncate. destruct (Z.ltb_spec (pos f) 0); [lia|].
  do 2 f_equal. unfold resize. list_ext.
Qed.

(** [save] on a file whose old tag, if any, has been located by [d]. *)
Lemma save_ok (pf : platform) (self : APEv2) (c t : bytes) (d : APEv2Data) (f1 : fobj) :
  APEv2Data_init (open_file c) = (Ret d, f1) ->
  (forall e, end_ d = Some e -> e <= zlen c) ->
  rendered self = Some t ->
  exists f',
    save pf self (open_file c) = (Ret tt, f') /\
    content f' = without_tag c d ++ t.
Proof.
  intros Hinit Hend Hr.
  pose proof (readonly_init _ _ _ Hinit) as Hc. cbn [content open_file] in Hc.
  rewrite save_unfold. erewrite bind_ret by exact Hinit.
  assert (Htail : forall f2, exists f',
             save_tail self f2 = (Ret tt, f') /\ content f' = content f2 ++ t).
  { intros f2. destruct (save_tail_cases self f2) as [(t' & f' & Ht & Hrun & Hcont)|[Hn _]];
      [|congruence].
    exists f'. split; [exact Hrun|]. congruence. }
  unfold without_tag.
  destruct (start d) as [s|] eqn:Hs.
  - destruct (init_span c d f1 s Hinit Hs) as (e & sz & He & Hsz & Hs0 & Hse & Hat).
    rewrite He. specialize (Hend e He).
    destruct (is_at_start d) eqn:Hias.
    + destruct (Hat eq_refl) as [-> He32].
      destruct (delete_bytes_ok pf (e - 0) 0 DEFAULT_BUFFER_SIZE f1)
        as (p & lg & Hdel);
        [apply default_buffer_positive | lia | lia | rewrite Hc; lia |].
      erewrite bind_ret by exact Hdel.
      destruct (Htail {| content := deleted (content f1) (e - 0) 0; pos := p; reads := lg |})
        as (f' & Hrun & Hcont).
      exists f'. split; [exact Hrun|]. rewrite Hcont. cbn [content]. f_equal.
      unfold deleted. rewrite Hc. do 2 f_equal. lia.
    + erewrite bind_ret.
      2:{ erewrite bind_ret by (apply seek_set_ok; lia).
          apply truncate_here. cbn [pos content]. rewrite Hc. lia. }
      cbn [pos content reads].
      match goal with |- context [save_tail self ?f2] =>
        destruct (Htail f2) as (f' & Hrun & Hcont) end.
      exists f'. split; [exact Hrun|]. rewrite Hcont. cbn [content]. now rewrite Hc.
  - rewrite (init_no_start c d f1 Hinit Hs). rewrite bind_ret_l.
    destruct (Htail f1) as (f' & Hrun & Hcont).
    exists f'. split; [exact Hrun|]. now rewrite Hcont, Hc.
Qed.

(** C8.  When the file already holds a tag that the locator has found,
    lying within the file, [save] first removes the whole located span -
    for a tag at the end everything from its start on, a legacy trailer
    behind it included; for a tag at the start the tag itself - and writes
    header, items and footer behind what remains, at end-of-file, also
    when the old tag was at the start. *)
Theorem save_replaces_located_tag
  (pf : platform) (self : APEv2) (c t : bytes) (d : APEv2Data) (f1 : fobj) (s e : Z) :
  APEv2Data_init (open_file c) = (Ret d, f1) ->
  start d = Some s -> end_ d = Some e -> e <= zlen c ->
  rendered self = Some t ->
  exists f',
    save pf self (open_file c) = (Ret tt, f') /\
    content f' =
      (if is_at_start d then ztake s c ++ zdrop e c else ztake s c) ++ t /\
    (is_at_start d = true -> s = 0 /\ content f' = zdrop e c ++ t).
Proof.
  intros Hinit Hs He Hle Hr.
  destruct (save_ok pf self c t d f1 Hinit) as (f' & Hrun & Hcont); auto.
  { intros e' He'. congruence. }
  exists f'. split; [exact Hrun|].
  unfold without_tag in Hcont. rewrite Hs, He in Hcont. split; [exact Hcont|].
  intros Hat. destruct (init_span c d f1 s Hinit Hs) as (e' & sz & _ & _ & _ & _ & H0).
  destruct (H0 Hat) as [-> _]. split; [reflexivity|].
  rewrite Hcont, Hat. reflexivity.
Qed.

(** C10.  When the locator finds no tag - [start] is [None], as on a file
    that ends in a bare ID3v1 trailer - [save] deletes and truncates
    nothing: it returns with the old contents intact and the new header,
    items and footer appended behind them. *)
Theorem save_appends_when_no_tag
  (pf : platform) (self : APEv2) (c t : bytes) (d : APEv2Data) (f1 : fobj) :
  APEv2Data_init (open_file c) = (Ret d, f1) ->
  start d = None ->
  rendered self = Some t ->
  exists f',
    save pf self (open_file c) = (Ret tt, f') /\
    content f' = c ++ t /\
    ztake (zlen c) (content f') = c.
Proof.
  intros Hinit Hs Hr.
  destruct (save_ok pf self c t d f1 Hinit) as (f' & Hrun & Hcont); auto.
  { intros e He.
    destruct (init_inv _ _ _ Hinit) as (d0 & f0 & Hfind & [(Hn & Hft & ->)|Hfound]).
    - apply find_metadata_cases in Hfind as [->|[_ ->]]; [discriminate He|].
      unfold found in He, Hn, Hft.
      destruct (cookie_at c (zlen c - 32)); [discriminate|].
      destruct (footer_behind_trailer c); [discriminate|].
      destruct (cookie_at c 0); discriminate.
    - destruct Hfound as (m & d1 & f1' & d2 & f2 & Hmax & Hfill & Hfix & Hd).
      destruct (fill_missing_span _ _ _ _ _ Hfill) as (h & e' & sz & Hh & _).
      destruct (fix_brokenness_start _ _ _ _ h Hfix Hh) as (s2 & Hs2 & _).
      destruct Hd as [->|(t' & ->)]; [congruence|].
      destruct (set_tag_fields d2 (Some t')) as (E1 & _). congruence. }
  exists f'. split; [exact Hrun|].
  unfold without_tag in Hcont. rewrite Hs in Hcont.
  split; [exact Hcont|]. rewrite Hcont. apply ztake_app_exact.
Qed.

Lemma save_replaces_located_tag_witness :
  let c := tag_at_start_file in
  let d := match fst (APEv2Data_init (open_file c)) with Ret d => d | _ => new_data end in
  let t := match rendered artist_tag with Some t => t | None => [] end in
  exists f',
    save (mkPlatform true true) artist_tag (open_file c) = (Ret tt, f') /\
    content f' =
      (if is_at_start d then ztake 0 c ++ zdrop 64 c else ztake 0 c) ++ t /\
    (is_at_start d = true -> 0 = 0 /\ content f' = zdrop 64 c ++ t).
Proof.
  intros c d t.
  apply (save_replaces_located_tag (mkPlatform true true) artist_tag c t d
           (snd (APEv2Data_init (open_file c))) 0 64).
  - vm_compute. reflexivity.
  - vm_compute. reflexivity.
  - vm_compute. reflexivity.
  - vm_compute. discriminate.
  - vm_compute. reflexivity.
Defined.

Lemma save_appends_when_no_tag_witness :
  let c := id3v1_only_file in
  let t := match rendered artist_tag with Some t => t | None => [] end in
  exists f',
    save (mkPlatform false false) artist_tag (open_file c) = (Ret tt, f') /\
    content f' = c ++ t /\
    ztake (zlen c) (content f') = c.
Proof.
  intros c t.
  apply (save_appends_when_no_tag (mkPlatform false false) artist_tag c t
           (match fst (APEv2Data_init (open_file c)) with Ret d => d | _ => new_data end)
           (snd (APEv2Data_init (open_file c)))).
  - vm_compute. reflexivity.
  - vm_compute. reflexivity.
  - vm_compute. reflexivity.
Defined.

(** * Little-endian fields *)

Lemma byte_val_of_Z (n : Z) : byte_val (byte_of_Z n) = n mod 256.
Proof.
  unfold byte_val, byte_of_Z.
  pose proof (Z.mod_pos_bound n 256 ltac:(lia)) as Hb.
  destruct (Byte.of_N (Z.to_N (n mod 256))) as [b|] eqn:E.
  - apply Byte.to_of_N in E. rewrite E. lia.
  - apply Byte.of_N_None_iff in E. lia.
Qed.

Lemma byte_of_Z_val (b : byte) : byte_of_Z (byte_val b) = b.
Proof.
  unfold byte_of_Z, byte_val. pose proof (Byte.to_N_bounded b).
  rewrite Z.mod_small by lia. rewrite N2Z.id, Byte.of_to_N. reflexivity.
Qed.

Lemma pack_uint_le_inv (n : Z) (l : bytes) :
  pack_uint_le n = Some l -> zlen l = 4 /\ uint_le l = Some n /\ 0 <= n < 2 ^ 32.
Proof.
  unfold pack_uint_le.
  destruct (Z.leb_spec 0 n) as [Hge|]; [|discriminate].
  destruct (Z.ltb_spec n (2 ^ 32)) as [Hlt|]; [|discriminate].
  cbn [andb]. intros Hp. apply some_inj in Hp. subst l.
  split; [reflexivity|]. split; [|lia].
  unfold uint_le. rewrite !byte_val_of_Z. f_equal.
  change (2 ^ 32) with 4294967296 in Hlt.
  Z.div_mod_to_equations. lia.
Qed.

Lemma pack_uint_le_ok (n : Z) :
  0 <= n < 2 ^ 32 -> exists l, pack_uint_le n = Some l.
Proof.
  intros H. unfold pack_uint_le.
  destruct (Z.leb_spec 0 n); [|lia]. destruct (Z.ltb_spec n (2 ^ 32)); [|lia].
  eexists. reflexivity.
Qed.

Lemma pack_tag_header_inv (v s i fl : Z) (hd : bytes) :
  pack_tag_header v s i fl = Some hd ->
  exists bv bs bi bf,
    hd = APETAGEX ++ bv ++ bs ++ bi ++ bf ++ zeros 8 /\
    zlen bv = 4 /\ zlen bs = 4 /\ zlen bi = 4 /\ zlen bf = 4 /\
    uint_le bs = Some s /\ uint_le bi = Some i /\ uint_le bf = Some fl /\
    zlen hd = 32.
Proof.
  unfold pack_tag_header.
  destruct (pack_uint_le v) as [bv|] eqn:Ev; [|discriminate].
  destruct (pack_uint_le s) as [bs|] eqn:Es; [|discriminate].
  destruct (pack_uint_le i) as [bi|] eqn:Ei; [|discriminate].
  destruct (pack_uint_le fl) as [bf|] eqn:Ef; [|discriminate].
  intros H. apply some_inj in H. subst hd.
  apply pack_uint_le_inv in Ev as (Lv & _ & _).
  apply pack_uint_le_inv in Es as (Ls & Us & _).
  apply pack_uint_le_inv in Ei as (Li & Ui & _).
  apply pack_uint_le_inv in Ef as (Lf & Uf & _).
  exists bv, bs, bi, bf. repeat split; auto.
  rewrite !zlen_app, Lv, Ls, Li, Lf. reflexivity.
Qed.

Lemma ztake_app_len {A : Type} (a b : list A) (n : Z) :
  zlen a = n -> ztake n (a ++ b) = a.
Proof. intros <-. apply ztake_app_exact. Qed.

Lemma zdrop_app_len {A : Type} (a b : list A) (n : Z) :
  zlen a = n -> zdrop n (a ++ b) = b.
Proof. intros <-. apply zdrop_app_exact. Qed.

(** The [k] bytes at offset [p] of [a ++ b ++ c] when [a] is [p] long and
    [b] is [k] long. *)
Lemma slice_at {A : Type} (a b c : list A) (p k : Z) :
  zlen a = p -> zlen b = k -> ztake k (zdrop p (a ++ b ++ c)) = b.
Proof.
  intros Ha Hb. rewrite (zdrop_app_len a _ p Ha). now apply ztake_app_len.
Qed.

Lemma slice_to_end {A : Type} (a b : list A) (p k : Z) :
  zlen a = p -> zlen b = k -> ztake k (zdrop p (a ++ b)) = b.
Proof.
  intros Ha Hb. rewrite (zdrop_app_len a _ p Ha). apply ztake_all. lia.
Qed.

(** * Keys on the wire *)


Lemma char_code_range (c : ascii) : 0 <= char_code c < 256.
Proof.
  unfold char_code. pose proof (N_ascii_bounded c). lia.
Qed.

Lemma bytes_min_ge (l : bytes) :
  32 <= bytes_min l -> Forall (fun b => 32 <= byte_val b) l.
Proof.
  induction l as [|b l IH]; simpl; intros H; constructor.
  - lia.
  - apply IH. lia.
Qed.

Lemma bytes_max_le (l : bytes) :
  bytes_max l <= 126 -> Forall (fun b => byte_val b <= 126) l.
Proof.
  induction l as [|b l IH]; simpl; intros H; constructor.
  - lia.
  - apply IH. lia.
Qed.

Lemma encode_ascii_key (k : string) :
  Forall (fun b => 32 <= byte_val b <= 126) (encode_utf8 k) -> ascii_key k.
Proof.
  unfold ascii_key. induction k as [|c k IH]; simpl; intros H; constructor.
  - unfold encode_char in H. pose proof (char_code_range c) as Hc.
    destruct (Z.ltb_spec (char_code c) 128).
    + apply Forall_inv in H. rewrite byte_val_of_Z, Z.mod_small in H by lia. exact H.
    + apply Forall_inv in H. rewrite byte_val_of_Z in H.
      assert (0 <= char_code c / 64 < 4) by (Z.div_mod_to_equations; lia).
      rewrite Z.mod_small in H by lia. lia.
  - apply IH. apply Forall_app in H. apply H.
Qed.

Lemma valid_key_ascii (k : string) :
  is_valid_apev2_key k = true -> ascii_key k.
Proof.
  unfold is_valid_apev2_key, utf8. intros H.
  apply andb_prop in H as [H _]. apply andb_prop in H as [H Hmax].
  apply andb_prop in H as [_ Hmin].
  apply encode_ascii_key.
  apply Z.leb_le, bytes_min_ge in Hmin. apply Z.leb_le, bytes_max_le in Hmax.
  rewrite Forall_forall in *. intros b Hb. split; auto.
Qed.

Lemma decode_encode_ascii (k : string) :
  ascii_key k -> decode_utf8 (encode_utf8 k) = DecStr k.
Proof.
  unfold ascii_key. induction k as [|c k IH]; cbn [list_ascii_of_string]; intros H.
  - reflexivity.
  - pose proof (Forall_inv H) as Hc. apply Forall_inv_tail in H.
    cbn beta in Hc. cbn [encode_utf8]. unfold encode_char.
    destruct (Z.ltb_spec (char_code c) 128); [|lia].
    cbn [app decode_utf8]. rewrite byte_val_of_Z, Z.mod_small by lia.
    destruct (Z.ltb_spec (char_code c) 128); [|lia].
    rewrite IH by assumption. cbn [dec_cons]. unfold char_code.
    rewrite N2Z.id, ascii_N_embedding. reflexivity.
Qed.

Lemma encode_no_nul (k : string) :
  ascii_key k -> Forall (fun b => Byte.eqb b x00 = false) (encode_utf8 k).
Proof.
  unfold ascii_key. induction k as [|c k IH]; cbn [list_ascii_of_string]; intros H.
  - constructor.
  - pose proof (Forall_inv H) as Hc. apply Forall_inv_tail in H.
    cbn beta in Hc. cbn [encode_utf8]. unfold encode_char.
    destruct (Z.ltb_spec (char_code c) 128); [|lia].
    cbn [app]. constructor; [|now apply IH].
    destruct (Byte.eqb (byte_of_Z (char_code c)) x00) eqn:E; [|reflexivity].
    apply Byte.byte_dec_bl in E.
    assert (Hv : byte_val (byte_of_Z (char_code c)) = 0) by (rewrite E; reflexivity).
    rewrite byte_val_of_Z, Z.mod_small in Hv by lia. lia.
Qed.

Lemma read_key_nul (key rest : bytes) :
  Forall (fun b => Byte.eqb b x00 = false) key ->
  read_key (key ++ x00 :: rest) = (key ++ [x00], rest).
Proof.
  induction key as [|b key IH]; intros H.
  - reflexivity.
  - pose proof (Forall_inv H) as Hb. apply Forall_inv_tail in H.
    cbn beta in Hb. cbn [app read_key]. rewrite Hb, IH by assumption. reflexivity.
Qed.

Lemma chop_nul_snoc (key : bytes) : chop_nul (key ++ [x00]) = key.
Proof.
  unfold chop_nul. rewrite rev_app_distr. cbn. apply rev_involutive.
Qed.

(** * Parsing what [save] wrote *)

Lemma parse_items_S (count : nat) (rest : bytes) :
  parse_items (S count) rest =
    (sz <- lift_struct (uint_le (ztake 4 rest)) ;;
     fl <- lift_struct (uint_le (ztake 4 (zdrop 4 rest))) ;;
     if Z.shiftr (Z.land fl 6) 1 =? 3 then raise APEBadItemError
     else
       let (key, rest') := read_key (zdrop 4 (zdrop 4 rest)) in
       v <- APEValue (ztake sz rest') (Z.shiftr (Z.land fl 6) 1) ;;
       setitem_decoded (chop_nul key) v ;;
       parse_items count (zdrop sz rest')).
Proof. reflexivity. Qed.

Lemma kind_code_roundtrip (k : value_kind) :
  Z.shiftr (Z.land (Z.shiftl (kind_code k) 1) 6) 1 = kind_code k.
Proof. destruct k; reflexivity. Qed.

Lemma APEValue_kind {S : Type} (b : bytes) (k : value_kind) (s : S) :
  APEValue b (kind_code k) s = (Ret (mkValue k b), s).
Proof. destruct k; reflexivity. Qed.

Lemma parse_item (ck : string) (v : APEValue_t) (e rest : bytes) (count : nat) (t : APEv2) :
  internal v ck = Some e -> is_valid_apev2_key ck = true ->
  parse_items (S count) (e ++ rest) t =
    (setitem ck (PyValue v) ;; parse_items count rest) t.
Proof.
  unfold internal. intros He Hv.
  destruct (pack_uint_le (zlen (value v))) as [l4|] eqn:El; [|discriminate].
  destruct (pack_uint_le (Z.shiftl (kind_code (kind v)) 1)) as [k4|] eqn:Ek;
    [|discriminate].
  apply some_inj in He. subst e.
  apply pack_uint_le_inv in El as (Ll & Ul & _).
  apply pack_uint_le_inv in Ek as (Lk & Uk & _).
  pose proof (valid_key_ascii ck Hv) as Hascii.
  rewrite parse_items_S.
  replace ((l4 ++ k4 ++ encode_utf8 ck ++ [x00] ++ value v) ++ rest)
    with (l4 ++ k4 ++ encode_utf8 ck ++ x00 :: (value v ++ rest))
    by (rewrite <- !app_assoc; reflexivity).
  rewrite (ztake_app_len l4 _ 4 Ll), (zdrop_app_len l4 _ 4 Ll).
  rewrite (ztake_app_len k4 _ 4 Lk), (zdrop_app_len k4 _ 4 Lk).
  rewrite Ul, Uk. cbn [lift_struct]. rewrite !bind_ret_l.
  rewrite kind_code_roundtrip.
  destruct (Z.eqb_spec (kind_code (kind v)) 3) as [E|_];
    [destruct (kind v); discriminate E|].
  rewrite read_key_nul by (apply encode_no_nul; exact Hascii).
  rewrite chop_nul_snoc.
  rewrite (ztake_app_len (value v) _ _ eq_refl), (zdrop_app_len (value v) _ _ eq_refl).
  erewrite bind_ret by apply APEValue_kind.
  unfold setitem_decoded. rewrite decode_encode_ascii by exact Hascii.
  destruct v as [kd vb]. reflexivity.
Qed.


Lemma internal_all_packed (its : list (string * APEValue_t)) (encs : list bytes) :
  internal_all its = Some encs ->
  encs = map packed its /\
  Forall (fun it => internal (snd it) (fst it) = Some (packed it)) its.
Proof.
  revert encs. induction its as [|[k v] its IH]; simpl; intros encs H.
  - apply some_inj in H. subst. split; [reflexivity|constructor].
  - destruct (internal v k) as [b|] eqn:Eb; [|discriminate].
    destruct (internal_all its) as [bs|]; [|discriminate].
    apply some_inj in H. subst encs. destruct (IH bs eq_refl) as [-> Hall].
    split.
    + cbn [map]. f_equal. unfold packed. cbn [fst snd]. now rewrite Eb.
    + constructor; [|exact Hall]. unfold packed. cbn [fst snd]. now rewrite Eb.
Qed.

Lemma parse_packed (its : list (string * APEValue_t)) :
  forall (rest : bytes) (t : APEv2),
    Forall (fun it => internal (snd it) (fst it) = Some (packed it)) its ->
    Forall (fun it => is_valid_apev2_key (fst it) = true) its ->
    parse_items (length its) (concat (map packed its) ++ rest) t = set_items its t.
Proof.
  induction its as [|[k v] its IH]; intros rest t Hint Hval.
  - reflexivity.
  - pose proof (Forall_inv Hint) as Hi. pose proof (Forall_inv Hval) as Hv.
    apply Forall_inv_tail in Hint. apply Forall_inv_tail in Hval.
    cbn [fst snd] in Hi, Hv.
    cbn [length map concat set_items]. rewrite <- app_assoc.
    rewrite (parse_item k v _ _ _ _ Hi Hv).
    unfold bind. destruct (setitem k (PyValue v) t) as [[[]|e|] t1]; try reflexivity.
    now apply IH.
Qed.

(** * Sorting by length *)

Lemma insert_by_perm {A : Type} (key : A -> Z) (x : A) (l : list A) :
  Permutation (insert_by key x l) (x :: l).
Proof.
  induction l as [|y l IH]; simpl.
  - apply Permutation_refl.
  - destruct (key x <=? key y); [apply Permutation_refl|].
    eapply perm_trans; [apply perm_skip; exact IH|apply perm_swap].
Qed.

Lemma sorted_by_perm {A : Type} (key : A -> Z) (l : list A) :
  Permutation (sorted_by key l) l.
Proof.
  induction l as [|x l IH]; simpl.
  - apply perm_nil.
  - eapply perm_trans; [apply insert_by_perm|apply perm_skip; exact IH].
Qed.

Lemma insert_by_map {A B : Type} (key : B -> Z) (g : A -> B) (x : A) (l : list A) :
  insert_by key (g x) (map g l) = map g (insert_by (fun a => key (g a)) x l).
Proof.
  induction l as [|y l IH]; simpl.
  - reflexivity.
  - destruct (key (g x) <=? key (g y)); simpl; [reflexivity|]. now rewrite IH.
Qed.

Lemma sorted_by_map {A B : Type} (key : B -> Z) (g : A -> B) (l : list A) :
  sorted_by key (map g l) = map g (sorted_by (fun a => key (g a)) l).
Proof.
  induction l as [|x l IH]; simpl.
  - reflexivity.
  - now rewrite IH, insert_by_map.
Qed.

(** * Listing and rebuilding the mapping *)

Lemma dict_get_nodup_in {V : Type} (d : pydict V) (k : string) (v : V) :
  NoDup (dict_keys d) -> In (k, v) d -> dict_get d k = Some v.
Proof.
  induction d as [|[k0 v0] d IH]; simpl; intros Hnd Hin.
  - contradiction.
  - apply NoDup_cons_iff in Hnd as [Hn Hnd].
    destruct Hin as [E|Hin].
    + inversion E; subst. now rewrite String.eqb_refl.
    + destruct (String.eqb_spec k0 k) as [->|Hne]; [|now apply IH].
      exfalso. apply Hn. unfold dict_keys. apply in_map_iff. now exists (k, v).
Qed.

Lemma dict_get_some_in {V : Type} (d : pydict V) (k : string) (v : V) :
  dict_get d k = Some v -> In (k, v) d.
Proof.
  induction d as [|[k0 v0] d IH]; simpl; intros H.
  - discriminate.
  - destruct (String.eqb_spec k0 k) as [->|Hne].
    + apply some_inj in H. subst. now left.
    + right. now apply IH.
Qed.


Lemma items_of_map (t : APEv2) :
  items_of t = map (fun kv => (cased t (fst kv), snd kv)) (dict_ t).
Proof.
  unfold items_of, keys, dict_keys, cased.
  induction (dict_ t) as [|[k v] d IH]; simpl; [reflexivity|]. now rewrite IH.
Qed.

Lemma mapM_getitem (t : APEv2) (l : pydict APEValue_t) :
  tag_inv t -> (forall kv, In kv l -> In kv (dict_ t)) ->
  mapM getitem (map (cased t) (map fst l)) t = (Ret (map snd l), t).
Proof.
  intros [Hnd Hcm]. induction l as [|[k v] l IH]; intros Hin.
  - reflexivity.
  - cbn [map fst snd mapM].
    assert (Hk : In (k, v) (dict_ t)) by (apply Hin; now left).
    destruct (Hcm k) as (ck & Hget & Hlo & Hval).
    { unfold dict_keys. apply in_map_iff. now exists (k, v). }
    erewrite bind_ret.
    2:{ unfold getitem, cased. rewrite Hget, Hval, Hlo. cbn [negb].
        rewrite (dict_get_nodup_in _ _ _ Hnd Hk). reflexivity. }
    erewrite bind_ret by (apply IH; intros kv Hkv; apply Hin; now right).
    reflexivity.
Qed.

Lemma tag_items_run (t : APEv2) :
  tag_inv t -> tag_items t = (Ret (items_of t), t).
Proof.
  intros Ht. unfold tag_items, values.
  erewrite bind_ret.
  2:{ unfold keys, dict_keys. fold (cased t). apply mapM_getitem; auto. }
  reflexivity.
Qed.

Lemma items_of_valid (t : APEv2) :
  tag_inv t ->
  Forall (fun it => is_valid_apev2_key (fst it) = true) (items_of t) /\
  map (fun it => (lower (fst it), snd it)) (items_of t) = dict_ t /\
  NoDup (map (fun it => lower (fst it)) (items_of t)).
Proof.
  intros [Hnd Hcm]. rewrite items_of_map.
  assert (Hc : forall kv, In kv (dict_ t) ->
             lower (cased t (fst kv)) = fst kv /\
             is_valid_apev2_key (cased t (fst kv)) = true).
  { intros [k v] Hin. cbn [fst]. destruct (Hcm k) as (ck & Hget & Hlo & Hval).
    - unfold dict_keys. apply in_map_iff. now exists (k, v).
    - unfold cased. rewrite Hget. auto. }
  split; [|split].
  - apply Forall_forall. intros it Hit. apply in_map_iff in Hit as (kv & <- & Hkv).
    cbn [fst]. now apply Hc.
  - rewrite map_map. cbn [fst snd]. rewrite <- (map_id (dict_ t)) at 2.
    apply map_ext_in. intros [k v] Hin. cbn [fst snd].
    pose proof (proj1 (Hc (k, v) Hin)) as E. cbn [fst] in E. now rewrite E.
  - rewrite map_map. cbn [fst].
    replace (map (fun x => lower (cased t (fst x))) (dict_ t)) with (dict_keys (dict_ t));
      [exact Hnd|].
    unfold dict_keys. apply map_ext_in. intros kv Hin. symmetry. now apply Hc.
Qed.

Lemma dict_set_fresh {V : Type} (d : pydict V) (k : string) (v : V) :
  ~ In k (dict_keys d) -> dict_set d k v = d ++ [(k, v)].
Proof.
  induction d as [|[k0 v0] d IH]; simpl; intros Hn.
  - reflexivity.
  - destruct (String.eqb_spec k0 k) as [->|Hne]; [tauto|].
    rewrite IH by tauto. reflexivity.
Qed.

Lemma set_items_run (its : list (string * APEValue_t)) :
  forall t : APEv2,
    Forall (fun it => is_valid_apev2_key (fst it) = true) its ->
    NoDup (map (fun it => lower (fst it)) its) ->
    (forall it, In it its ->
                ~ In (lower (fst it)) (dict_keys (dict_ t)) /\
                ~ In (lower (fst it)) (dict_keys (casemap t))) ->
    set_items its t =
      (Ret tt, mkTag (casemap t ++ map (fun it => (lower (fst it), fst it)) its)
                     (dict_ t ++ map (fun it => (lower (fst it), snd it)) its)).
Proof.
  induction its as [|[k v] its IH]; intros t Hval Hnd Hfresh.
  - simpl. rewrite !app_nil_r. destruct t; reflexivity.
  - pose proof (Forall_inv Hval) as Hv. apply Forall_inv_tail in Hval.
    cbn [fst] in Hv. cbn [map fst] in Hnd. apply NoDup_cons_iff in Hnd as [Hnk Hnd].
    destruct (Hfresh (k, v) (or_introl eq_refl)) as [Hf1 Hf2]. cbn [fst] in Hf1, Hf2.
    cbn [set_items]. erewrite bind_ret by (apply setitem_run; exact Hv).
    cbn [guessed]. rewrite (dict_set_fresh _ _ _ Hf1), (dict_set_fresh _ _ _ Hf2).
    rewrite IH; cbn [casemap dict_]; auto.
    + cbn [map fst snd]. rewrite <- !app_assoc. reflexivity.
    + intros it Hit. unfold dict_keys. rewrite !map_app, !in_app_iff. cbn [map fst In].
      destruct (Hfresh it (or_intror Hit)) as [G1 G2].
      assert (lower (fst it) <> lower k).
      { intros E. apply Hnk. rewrite <- E. apply in_map_iff. now exists it. }
      split; intros [?|[?|[]]]; auto.
Qed.

Lemma dict_get_map_nodup {V : Type} (its : list (string * APEValue_t))
      (h : string * APEValue_t -> V) (it : string * APEValue_t) :
  NoDup (map (fun it => lower (fst it)) its) -> In it its ->
  dict_get (map (fun it => (lower (fst it), h it)) its) (lower (fst it)) = Some (h it).
Proof.
  intros Hnd Hin. apply dict_get_nodup_in.
  - unfold dict_keys. rewrite map_map. exact Hnd.
  - apply in_map_iff. now exists it.
Qed.

(** The mapping rebuilt from an item list with distinct folded keys lists
    exactly those items. *)
Lemma items_of_rebuilt (its : list (string * APEValue_t)) :
  Forall (fun it => is_valid_apev2_key (fst it) = true) its ->
  NoDup (map (fun it => lower (fst it)) its) ->
  let t := mkTag (map (fun it => (lower (fst it), fst it)) its)
                 (map (fun it => (lower (fst it), snd it)) its) in
  items_of t = its /\ tag_inv t.
Proof.
  intros Hval Hnd t. split.
  - rewrite items_of_map. subst t. cbn [dict_]. rewrite map_map. cbn [fst snd].
    rewrite <- (map_id its) at 2. apply map_ext_in. intros [k v] Hin.
    unfold cased. cbn [casemap fst snd].
    pose proof (dict_get_map_nodup its fst (k, v) Hnd Hin) as E.
    cbn [fst] in E. now rewrite E.
  - split; subst t; cbn [dict_ casemap].
    + unfold dict_keys. rewrite map_map. exact Hnd.
    + intros k Hk. unfold dict_keys in Hk. rewrite map_map in Hk.
      apply in_map_iff in Hk as (it & <- & Hin). cbn [fst].
      exists (fst it). split; [now apply (dict_get_map_nodup its fst it)|].
      split; [reflexivity|]. rewrite Forall_forall in Hval. now apply Hval.
Qed.

(** * Locating the tag that [save] wrote *)

Lemma fix_brokenness_total (self : APEv2Data) (f : fobj) (h : Z) :
  header self = Some h -> 0 <= h ->
  exists s f',
    fix_brokenness self f = (Ret (set_start self (Some s)), f') /\
    content f' = content f.
Proof.
  intros Hh H0.
  destruct (fix_brokenness self f) as [r f'] eqn:E.
  pose proof (readonly_fix_brokenness _ _ _ _ E) as Hc.
  unfold fix_brokenness in E. rewrite Hh in E.
  erewrite bind_ret in E by (apply seek_set_ok; lia).
  destruct (fix_loop_total (Z.to_nat h) h
              {| content := content f; pos := h; reads := reads f |})
    as (s & f2 & Hrun & _); cbn [pos]; auto; try lia.
  erewrite bind_ret in E by exact Hrun. unfold ret in E. inversion E; subst.
  exists s, f'. auto.
Qed.

Lemma init_saved (P tags ft bv bs bi bf : bytes) (n : Z) :
  32 <= zlen P ->
  ft = APETAGEX ++ bv ++ bs ++ bi ++ bf ++ zeros 8 ->
  zlen bv = 4 -> zlen bs = 4 -> zlen bi = 4 -> zlen bf = 4 ->
  uint_le bs = Some (zlen tags + 32) -> uint_le bi = Some n ->
  uint_le bf = Some HAS_HEADER ->
  exists d f',
    APEv2Data_init (open_file (P ++ tags ++ ft)) = (Ret d, f') /\
    tag d = Some (tags ++ ft) /\ items d = Some n.
Proof.
  intros HP Hft Lv Ls Li Lf Us Ui Uf.
  set (X := P ++ tags ++ ft).
  assert (Lft : zlen ft = 32).
  { rewrite Hft, !zlen_app, Lv, Ls, Li, Lf. reflexivity. }
  assert (LX : zlen X = zlen P + zlen tags + 32).
  { unfold X. rewrite !zlen_app, Lft. lia. }
  pose proof (zlen_nonneg tags) as Ht.
  assert (HX : forall a b c p k,
             X = a ++ b ++ c -> zlen a = p -> zlen b = k ->
             ztake k (zdrop p X) = b).
  { intros a b c p k -> Ha Hb. now apply slice_at. }
  assert (S0 : ztake 8 (zdrop (zlen X - 32) X) = APETAGEX).
  { apply (HX (P ++ tags) APETAGEX (bv ++ bs ++ bi ++ bf ++ zeros 8)).
    - unfold X. rewrite Hft, <- !app_assoc. reflexivity.
    - rewrite zlen_app. lia.
    - reflexivity. }
  assert (S1 : ztake 4 (zdrop (zlen X - 32 + 8) X) = bv).
  { apply (HX ((P ++ tags) ++ APETAGEX) bv (bs ++ bi ++ bf ++ zeros 8)).
    - unfold X. rewrite Hft, <- !app_assoc. reflexivity.
    - rewrite !zlen_app. change (zlen APETAGEX) with 8. lia.
    - exact Lv. }
  assert (S2 : ztake 4 (zdrop (zlen X - 32 + 8 + 4) X) = bs).
  { apply (HX (((P ++ tags) ++ APETAGEX) ++ bv) bs (bi ++ bf ++ zeros 8)).
    - unfold X. rewrite Hft, <- !app_assoc. reflexivity.
    - rewrite !zlen_app. change (zlen APETAGEX) with 8. lia.
    - exact Ls. }
  assert (S3 : ztake 4 (zdrop (zlen X - 32 + 8 + 4 + 4) X) = bi).
  { apply (HX ((((P ++ tags) ++ APETAGEX) ++ bv) ++ bs) bi (bf ++ zeros 8)).
    - unfold X. rewrite Hft, <- !app_assoc. reflexivity.
    - rewrite !zlen_app. change (zlen APETAGEX) with 8. lia.
    - exact Li. }
  assert (S4 : ztake 4 (zdrop (zlen X - 32 + 8 + 4 + 4 + 4) X) = bf).
  { apply (HX (((((P ++ tags) ++ APETAGEX) ++ bv) ++ bs) ++ bi) bf (zeros 8)).
    - unfold X. rewrite Hft, <- !app_assoc. reflexivity.
    - rewrite !zlen_app. change (zlen APETAGEX) with 8. lia.
    - exact Lf. }
  assert (S5 : ztake (zlen tags + 32) (zdrop (zlen X - (zlen tags + 32)) X) = tags ++ ft).
  { unfold X at 2. apply slice_to_end; [lia|]. rewrite zlen_app. lia. }
  assert (Hcookie : cookie_at X (zlen X - 32) = true).
  { unfold cookie_at. rewrite S0, bytes_eqb_refl.
    destruct (Z.leb_spec 0 (zlen X - 32)); [reflexivity|lia]. }
  unfold APEv2Data_init.
  erewrite bind_ret by (apply (find_metadata_footer new_data (open_file X)); exact Hcookie).
  cbn [open_file content reads app header footer set_metadata set_footer new_data
       max_offset start data end_ metadata tag version size items flags is_at_start].
  erewrite bind_ret.
  2:{ unfold fill_missing. io_seek.
      io_read. rewrite S1. rewrite ?Lv.
      io_read. rewrite S2. rewrite ?Ls.
      rewrite Us. cbn [lift_struct]. rewrite bind_ret_l.
      io_read. rewrite S3. rewrite ?Li.
      rewrite Ui. cbn [lift_struct]. rewrite bind_ret_l.
      io_read. rewrite S4. rewrite ?Lf.
      rewrite Uf. cbn [lift_struct]. rewrite bind_ret_l.
      cbn [header footer set_fields].
      change (Z.land HAS_HEADER HAS_HEADER =? 0) with false. cbv iota.
      reflexivity. }
  match goal with |- context [bind (fix_brokenness ?s) _ ?f] =>
    destruct (fix_brokenness_total s f (zlen X - 32 + 32 - (zlen tags + 32) - 32))
      as (st & f2 & Hfix & Hcont); [reflexivity|lia|]
  end.
  erewrite bind_ret by exact Hfix.
  cbn [content] in Hcont.
  cbn [data size set_start set_header set_data set_end set_fields].
  erewrite bind_ret by (apply seek_set_ok; lia).
  erewrite bind_ret by (apply read_ok; lia).
  cbn [pos content reads]. rewrite Hcont.
  replace (zlen X - 32 + 32 - (zlen tags + 32)) with (zlen X - (zlen tags + 32)) by lia.
  rewrite S5.
  eexists _, _. split; [reflexivity|]. cbn. auto.
Qed.

(** * Round trip *)

Lemma save_inv (pf : platform) (self : APEv2) (f f' : fobj) :
  save pf self f = (Ret tt, f') ->
  exists P t, rendered self = Some t /\ content f' = P ++ t.
Proof.
  rewrite save_unfold. intros H. do 2 bind_inv H.
  destruct (save_tail_cases self f1) as [(t & f2 & Hr & Hrun & Hc)|[_ Hn]].
  - rewrite Hrun in H. inversion H; subst. now exists (content f1), t.
  - exfalso. apply Hn. rewrite H. reflexivity.
Qed.

Lemma dict_get_perm {V : Type} (d d' : pydict V) (k : string) :
  Permutation d d' -> NoDup (dict_keys d) -> dict_get d k = dict_get d' k.
Proof.
  intros Hp Hnd.
  assert (Hnd' : NoDup (dict_keys d')).
  { eapply Permutation_NoDup; [|exact Hnd]. unfold dict_keys. now apply Permutation_map. }
  destruct (dict_get d k) as [v|] eqn:E.
  - symmetry. apply dict_get_nodup_in; [exact Hnd'|].
    eapply Permutation_in; [exact Hp|]. now apply dict_get_some_in.
  - destruct (dict_get d' k) as [v'|] eqn:E'; [|reflexivity].
    apply dict_get_some_in in E'. apply Permutation_sym in Hp.
    apply (Permutation_in _ Hp) in E'.
    rewrite (dict_get_nodup_in _ _ _ Hnd E') in E. discriminate.
Qed.

Lemma load_rendered (M : APEv2) (P t : bytes) :
  tag_inv M -> rendered M = Some t ->
  exists M',
    load (P ++ t) new_tag = (Ret tt, M') /\
    items_of M' = sorted_by (fun it => zlen (packed it)) (items_of M) /\
    dict_ M' = map (fun it => (lower (fst it), snd it)) (items_of M') /\
    tag_inv M'.
Proof.
  intros HM Hr. unfold rendered in Hr. rewrite (tag_items_run M HM) in Hr.
  cbn [fst] in Hr.
  destruct (internal_all (items_of M)) as [encs|] eqn:Eenc; [|discriminate].
  destruct (internal_all_packed _ _ Eenc) as [-> Hint].
  rewrite sorted_by_map in Hr.
  set (L := sorted_by (fun a => zlen (packed a)) (items_of M)) in *.
  match type of Hr with
  | match ?x with _ => _ end = _ => destruct x as [hd|] eqn:Ehd; [|discriminate Hr]
  end.
  match type of Hr with
  | match ?x with _ => _ end = _ => destruct x as [ft|] eqn:Eft; [|discriminate Hr]
  end.
  apply some_inj in Hr. subst t.
  apply pack_tag_header_inv in Ehd as (_ & _ & _ & _ & _ & _ & _ & _ & _ & _ & _ & _ & Lhd).
  apply pack_tag_header_inv in Eft
    as (bv & bs & bi & bf & Hft & Lv & Ls & Li & Lf & Us & Ui & Uf & Lft).
  destruct (items_of_valid M HM) as (Hval & _ & Hnd).
  assert (Hperm : Permutation L (items_of M)) by apply sorted_by_perm.
  assert (HintL : Forall (fun it => internal (snd it) (fst it) = Some (packed it)) L).
  { rewrite Forall_forall in *. intros it Hit. apply Hint.
    eapply Permutation_in; eauto. }
  assert (HvalL : Forall (fun it => is_valid_apev2_key (fst it) = true) L).
  { rewrite Forall_forall in *. intros it Hit. apply Hval.
    eapply Permutation_in; eauto. }
  assert (HndL : NoDup (map (fun it => lower (fst it)) L)).
  { eapply Permutation_NoDup; [|exact Hnd].
    apply Permutation_map, Permutation_sym, Hperm. }
  set (tags := concat (map packed L)) in *.
  replace (P ++ hd ++ tags ++ ft) with ((P ++ hd) ++ tags ++ ft)
    by (rewrite <- app_assoc; reflexivity).
  destruct (init_saved (P ++ hd) tags ft bv bs bi bf (zlen (map packed L)))
    as (d & f' & Hinit & Htag & Hitems); auto.
  { rewrite zlen_app. pose proof (zlen_nonneg P). lia. }
  destruct (items_of_rebuilt L HvalL HndL) as [Hitems' Hinv'].
  eexists. split; [|split; [exact Hitems'|split; [|exact Hinv']]].
  - match goal with
    | |- load ?x _ = _ =>
        replace x with ((P ++ hd) ++ tags ++ ft)
          by (subst tags; rewrite <- app_assoc; reflexivity)
    end.
    unfold load. erewrite bind_ret by (unfold with_file; rewrite Hinit; reflexivity).
    rewrite Htag, Hitems.
    destruct (tags ++ ft) as [|b0 r0] eqn:Etf.
    { exfalso. assert (E : zlen (tags ++ ft) = 0) by (rewrite Etf; reflexivity).
      rewrite zlen_app, Lft in E. pose proof (zlen_nonneg tags). lia. }
    rewrite <- Etf.
    erewrite bind_ret by reflexivity.
    erewrite bind_ret by reflexivity.
    unfold parse_tag, zlen. rewrite Nat2Z.id, length_map.
    rewrite parse_packed by assumption.
    rewrite set_items_run; auto.
  - cbn [dict_]. now rewrite Hitems'.
Qed.

(** C3.  Let [M] be a valid tag model: its keys legal and folded as the
    mapping keeps them, and small enough for [save] to serialise, so that
    [save] returns.  Loading the file [save] left then returns a model with
    the same items: the same keys in the casing of their last write, each
    with the same kind and payload bytes ([items_of] differs only in
    order, which is the order of serialised length), and every lookup
    answers alike. *)
Theorem save_load_roundtrip
  (pf : platform) (M : APEv2) (c : bytes) (f' : fobj) :
  tag_inv M ->
  save pf M (open_file c) = (Ret tt, f') ->
  exists M',
    load (content f') new_tag = (Ret tt, M') /\
    tag_inv M' /\
    Permutation (items_of M') (items_of M) /\
    items_of M' = sorted_by (fun it => zlen (packed it)) (items_of M) /\
    (forall key, fst (getitem key M') = fst (getitem key M)).
Proof.
  intros HM Hsave.
  destruct (save_inv _ _ _ _ Hsave) as (P & t & Hr & Hc).
  destruct (load_rendered M P t HM Hr) as (M' & Hload & Hitems & Hdict & Hinv).
  exists M'. rewrite Hc. split; [exact Hload|]. split; [exact Hinv|].
  assert (Hperm : Permutation (items_of M') (items_of M))
    by (rewrite Hitems; apply sorted_by_perm).
  split; [exact Hperm|]. split; [exact Hitems|].
  intros key. unfold getitem.
  destruct (is_valid_apev2_key key); cbn [negb]; [|reflexivity].
  destruct (items_of_valid M HM) as (_ & HdM & _).
  rewrite (dict_get_perm (dict_ M') (dict_ M) (lower key)).
  - destruct (dict_get (dict_ M) (lower key)); reflexivity.
  - rewrite Hdict, <- HdM. now apply Permutation_map.
  - apply Hinv.
Qed.

Lemma save_load_roundtrip_witness :
  let M := snd ((setitem "Artist" (PyStr "X") ;;
                 setitem "ALBUM" (PyBytes (list_byte_of_string "hello")) ;;
                 setitem "album" (PyValue (mkValue EXTERNAL (list_byte_of_string "u"))))
                  new_tag) in
  let c := stray_header_file in
  let f' := snd (save (mkPlatform true true) M (open_file c)) in
  exists M',
    load (content f') new_tag = (Ret tt, M') /\
    tag_inv M' /\
    Permutation (items_of M') (items_of M) /\
    items_of M' = sorted_by (fun it => zlen (packed it)) (items_of M) /\
    (forall key, fst (getitem key M') = fst (getitem key M)).
Proof.
  intros M c f'.
  apply (save_load_roundtrip (mkPlatform true true) M c f').
  - split.
    + vm_compute. repeat constructor; simpl; intuition discriminate.
    + intros k Hk. vm_compute in Hk.
      destruct Hk as [<-|[<-|[]]].
      * exists "Artist"%string. vm_compute. repeat split.
      * exists "album"%string. vm_compute. repeat split.
  - vm_compute. reflexivity.
Defined.

(** * Further properties of the splice primitive *)

(** X1.  [delete_bytes] refuses a size that is not positive, a negative
    offset and a range that runs past the end of the file with
    [AssertionError]; nothing has been read or written by then. *)
Theorem delete_bytes_refuses_bad_arguments
  (pf : platform) (s o B : Z) (f : fobj) :
  s <= 0 \/ o < 0 \/ zlen (content f) < o + s ->
  fst (delete_bytes pf s o B f) = Raise AssertionError /\
  content (snd (delete_bytes pf s o B f)) = content f /\
  reads (snd (delete_bytes pf s o B f)) = reads f.
Proof.
  intros H. destruct (delete_bytes_rejects pf s o B f H) as (p & ->). auto.
Qed.

Lemma delete_bytes_refuses_bad_arguments_witness :
  let f := open_file (list_byte_of_string "abc") in
  fst (delete_bytes (mkPlatform false false) 2 2 4 f) = Raise AssertionError /\
  content (snd (delete_bytes (mkPlatform false false) 2 2 4 f)) = content f /\
  reads (snd (delete_bytes (mkPlatform false false) 2 2 4 f)) = reads f.
Proof.
  intro f. apply delete_bytes_refuses_bad_arguments. right. right.
  vm_compute. reflexivity.
Defined.

(** X2.  The gap [insert_bytes] opens is not cleared: each of its bytes is
    the byte that stood at that offset before, or zero where the offset
    lies past the old end.  Inserting at the very end therefore appends
    [size] zero bytes. *)
Theorem insert_bytes_gap_contents
  (pf : platform) (s o B : Z) (f : fobj) :
  0 < B -> 0 < s -> 0 <= o <= zlen (content f) ->
  exists f1,
    insert_bytes pf s o B f = (Ret tt, f1) /\
    (forall i, o <= i < o + s ->
               zget (content f1) i =
                 if i <? zlen (content f) then zget (content f) i else Some x00) /\
    (o = zlen (content f) -> content f1 = content f ++ zeros s).
Proof.
  intros HB Hs Ho.
  destruct (insert_bytes_ok pf s o B f HB Hs Ho) as (p & lg & Hrun).
  eexists. split; [exact Hrun|]. cbn [content]. split.
  - intros i Hi. unfold inserted. zget_norm; zminmax; zget_split; try zget_close.
  - intros ->. unfold inserted. list_ext.
Qed.

Lemma insert_bytes_gap_contents_witness :
  let f := open_file (list_byte_of_string "abcdef") in
  exists f1,
    insert_bytes (mkPlatform false true) 3 4 2 f = (Ret tt, f1) /\
    (forall i, 4 <= i < 4 + 3 ->
               zget (content f1) i =
                 if i <? zlen (content f) then zget (content f) i else Some x00) /\
    (4 = zlen (content f) -> content f1 = content f ++ zeros 3).
Proof.
  intro f. apply (insert_bytes_gap_contents (mkPlatform false true) 3 4 2 f);
    [lia | lia | vm_compute; split; discriminate].
Defined.

Lemma deleted_twice (c : bytes) (a b o : Z) :
  0 < a -> 0 < b -> 0 <= o -> o + a + b <= zlen c ->
  deleted (deleted c a o) b o = deleted c (a + b) o.
Proof. intros Ha Hb Ho Hl. unfold deleted. list_ext. Qed.

(** X3.  Deletions at one offset add up: deleting [a] bytes at [o] and then
    [b] bytes at [o] returns normally and leaves what deleting [a + b]
    bytes at [o] in one call leaves, whichever strategies run. *)
Theorem delete_bytes_twice
  (pf pf' pf'' : platform) (a b o B B' B'' : Z) (f : fobj) :
  0 < B -> 0 < B' -> 0 < B'' ->
  0 < a -> 0 < b -> 0 <= o -> o + a + b <= zlen (content f) ->
  exists f1 f2 g,
    delete_bytes pf a o B f = (Ret tt, f1) /\
    delete_bytes pf' b o B' f1 = (Ret tt, f2) /\
    delete_bytes pf'' (a + b) o B'' f = (Ret tt, g) /\
    content f2 = content g.
Proof.
  intros HB HB' HB'' Ha Hb Ho Hl.
  destruct (delete_bytes_ok pf a o B f) as (p1 & l1 & H1); try lia.
  destruct (delete_bytes_ok pf' b o B' (mkFobj (deleted (content f) a o) p1 l1))
    as (p2 & l2 & H2); try lia.
  { cbn [content]. rewrite zlen_deleted by lia. lia. }
  destruct (delete_bytes_ok pf'' (a + b) o B'' f) as (p3 & l3 & H3); try lia.
  cbn [content] in H2.
  exists (mkFobj (deleted (content f) a o) p1 l1).
  exists (mkFobj (deleted (deleted (content f) a o) b o) p2 l2).
  exists (mkFobj (deleted (content f) (a + b) o) p3 l3).
  split; [exact H1|]. split; [exact H2|]. split; [exact H3|].
  cbn [content]. apply deleted_twice; lia.
Qed.

Lemma delete_bytes_twice_witness :
  let f := open_file (list_byte_of_string "0123456789") in
  exists f1 f2 g,
    delete_bytes (mkPlatform true true) 2 3 4 f = (Ret tt, f1) /\
    delete_bytes (mkPlatform false true) 1 3 2 f1 = (Ret tt, f2) /\
    delete_bytes (mkPlatform false false) (2 + 1) 3 3 f = (Ret tt, g) /\
    content f2 = content g.
Proof.
  intro f.
  apply (delete_bytes_twice (mkPlatform true true) (mkPlatform false true)
           (mkPlatform false false) 2 1 3 4 2 3 f); try lia.
  vm_compute. discriminate.
Defined.

(** * [cdata]: packing and unpacking integers *)

Lemma unsigned_le_range (l : bytes) :
  0 <= unsigned_le l < 256 ^ zlen l.
Proof.
  induction l as [|b r IH].
  - cbn. change (zlen (@nil byte)) with 0. lia.
  - cbn [unsigned_le]. rewrite zlen_cons.
    pose proof (byte_val_range b). pose proof (zlen_nonneg r).
    replace (1 + zlen r) with (Z.succ (zlen r)) by lia.
    rewrite Z.pow_succ_r by lia. lia.
Qed.

Lemma length_to_unsigned_le (n : nat) (v : Z) :
  length (to_unsigned_le n v) = n.
Proof. revert v. induction n; intros v; cbn; [reflexivity | now rewrite IHn]. Qed.

Lemma unsigned_le_to (n : nat) (v : Z) :
  unsigned_le (to_unsigned_le n v) = v mod 256 ^ Z.of_nat n.
Proof.
  revert v. induction n as [|n IH]; intros v.
  - cbn. now rewrite Z.mod_1_r.
  - cbn [to_unsigned_le unsigned_le]. rewrite byte_val_of_Z, IH.
    rewrite Nat2Z.inj_succ, Z.pow_succ_r by lia.
    rewrite Z.rem_mul_r by lia. reflexivity.
Qed.

Lemma to_unsigned_le_of (l : bytes) :
  to_unsigned_le (length l) (unsigned_le l) = l.
Proof.
  induction l as [|b r IH]; [reflexivity|].
  cbn [length to_unsigned_le unsigned_le].
  pose proof (byte_val_range b) as Hb.
  assert (Hd : (byte_val b + 256 * unsigned_le r) / 256 = unsigned_le r).
  { replace (byte_val b + 256 * unsigned_le r)
      with (unsigned_le r * 256 + byte_val b) by lia.
    rewrite Z.div_add_l by lia. rewrite Z.div_small by lia. lia. }
  assert (Hm : byte_of_Z (byte_val b + 256 * unsigned_le r) = b).
  { rewrite <- (byte_of_Z_val b) at 2. unfold byte_of_Z.
    replace (byte_val b + 256 * unsigned_le r)
      with (byte_val b + unsigned_le r * 256) by lia.
    rewrite Z.mod_add by lia. reflexivity. }
  rewrite Hm, Hd, IH. reflexivity.
Qed.

Lemma in_order_involutive (o : byte_order) (l : bytes) :
  in_order o (in_order o l) = l.
Proof. destruct o; cbn; [reflexivity | apply rev_involutive]. Qed.

Lemma zlen_in_order (o : byte_order) (l : bytes) :
  zlen (in_order o l) = zlen l.
Proof. destruct o; cbn; [reflexivity|]. unfold zlen. now rewrite length_rev. Qed.

Lemma ctype_bits (t : ctype) :
  8 * struct_calcsize t = 16 \/ 8 * struct_calcsize t = 32 \/
  8 * struct_calcsize t = 64.
Proof. destruct t; cbn; lia. Qed.

Lemma pow_256_calcsize (t : ctype) :
  256 ^ struct_calcsize t = 2 ^ (8 * struct_calcsize t).
Proof. destruct t; reflexivity. Qed.

Lemma struct_pack_unpack (o : byte_order) (t : ctype) (v : Z) :
  ctype_min t <= v < ctype_max t ->
  exists b, struct_pack o t v = Some b /\ zlen b = struct_calcsize t /\
            struct_unpack o t b = Some v.
Proof.
  intros Hv. unfold struct_pack.
  destruct (Z.leb_spec (ctype_min t) v); [|lia].
  destruct (Z.ltb_spec v (ctype_max t)); [|lia]. cbn [andb].
  eexists. split; [reflexivity|].
  assert (Hs : 0 <= struct_calcsize t) by (destruct t; cbn; lia).
  assert (Hl : zlen (in_order o (to_unsigned_le (Z.to_nat (struct_calcsize t))
                       (v mod 2 ^ (8 * struct_calcsize t)))) = struct_calcsize t).
  { rewrite zlen_in_order. unfold zlen. rewrite length_to_unsigned_le. lia. }
  split; [exact Hl|].
  unfold struct_unpack. rewrite Hl, Z.eqb_refl, in_order_involutive.
  rewrite unsigned_le_to, Z2Nat.id, pow_256_calcsize by lia.
  rewrite Z.mod_mod by (destruct t; cbn; lia).
  f_equal.
  unfold ctype_min, ctype_max in Hv.
  destruct t; cbn [is_signed struct_calcsize andb] in *;
    match goal with
    | |- context [?a <=? ?b] => destruct (Z.leb_spec a b) as [Hc|Hc]
    | _ => idtac
    end;
    match goal with
    | |- context [v mod ?m] =>
        let m' := eval cbv in m in change m with m' in *
    end;
    cbn in Hv;
    try (rewrite Z.mod_small by lia; reflexivity);
    try (rewrite Z.mod_small in Hc by lia);
    try (destruct (Z.neg_nonneg_cases v) as [Hn|Hn]).
  all: try (rewrite Z.mod_small in * by lia; lia).
  all: try (rewrite <- (Z.mod_add v 1) in * by lia;
            rewrite Z.mod_small in * by lia; lia).
Qed.

Lemma struct_unpack_pack (o : byte_order) (t : ctype) (b : bytes) :
  zlen b = struct_calcsize t ->
  exists v, struct_unpack o t b = Some v /\ ctype_min t <= v < ctype_max t /\
            struct_pack o t v = Some b.
Proof.
  intros Hl. unfold struct_unpack. rewrite Hl, Z.eqb_refl.
  eexists. split; [reflexivity|].
  pose proof (unsigned_le_range (in_order o b)) as Hu.
  rewrite zlen_in_order, Hl, pow_256_calcsize in Hu.
  assert (Hlen : Z.to_nat (struct_calcsize t) = length (in_order o b)).
  { pose proof (zlen_in_order o b) as E. unfold zlen in *. lia. }
  set (u := unsigned_le (in_order o b)) in *.
  assert (Hback : in_order o (to_unsigned_le (Z.to_nat (struct_calcsize t)) u) = b).
  { rewrite Hlen. subst u. rewrite to_unsigned_le_of. apply in_order_involutive. }
  assert (HP : 2 ^ (8 * struct_calcsize t) = 2 * 2 ^ (8 * struct_calcsize t - 1))
    by (destruct t; reflexivity).
  assert (HH : 0 < 2 ^ (8 * struct_calcsize t - 1)) by (destruct t; reflexivity).
  unfold struct_pack, ctype_min, ctype_max.
  set (P := 2 ^ (8 * struct_calcsize t)) in *.
  set (H := 2 ^ (8 * struct_calcsize t - 1)) in *.
  destruct (is_signed t); cbn [andb].
  - destruct (Z.leb_spec H u) as [Hc|Hc].
    + destruct (Z.leb_spec (- H) (u - P)); [|lia].
      destruct (Z.ltb_spec (u - P) H); [|lia]. cbn [andb].
      split; [lia|]. f_equal.
      replace (u - P) with (u + (-1) * P) by lia.
      rewrite Z.mod_add by lia. rewrite Z.mod_small by lia. exact Hback.
    + destruct (Z.leb_spec (- H) u); [|lia].
      destruct (Z.ltb_spec u H); [|lia]. cbn [andb].
      split; [lia|]. f_equal. rewrite Z.mod_small by lia. exact Hback.
  - destruct (Z.leb_spec 0 u); [|lia].
    destruct (Z.ltb_spec u P); [|lia]. cbn [andb].
    split; [lia|]. f_equal. rewrite Z.mod_small by lia. exact Hback.
Qed.

(** X4.  Every [cdata.to_*] packer accepts exactly the integers of its
    code's range, returns as many bytes as the code has, and the matching
    [cdata.*] reader gives the integer back; an integer outside the range
    is refused with [struct.error]. *)
Theorem cdata_pack_then_unpack (o : byte_order) (t : ctype) (v : Z) :
  match struct_pack o t v with
  | Some b => ctype_min t <= v < ctype_max t /\
              zlen b = struct_calcsize t /\ struct_unpack o t b = Some v
  | None => ~ ctype_min t <= v < ctype_max t
  end.
Proof.
  destruct (struct_pack o t v) as [b|] eqn:E.
  - assert (Hv : ctype_min t <= v < ctype_max t).
    { unfold struct_pack in E.
      destruct (Z.leb_spec (ctype_min t) v); [|discriminate].
      destruct (Z.ltb_spec v (ctype_max t)); [|discriminate]. lia. }
    destruct (struct_pack_unpack o t v Hv) as (b' & E' & Hl & Hu).
    rewrite E in E'. injection E' as ->. auto.
  - intros Hv. destruct (struct_pack_unpack o t v Hv) as (b' & E' & _).
    congruence.
Qed.

(** X5.  Every [cdata.*] reader accepts exactly the buffers that have the
    size of its code; the integer it returns lies in the code's range and
    the matching packer gives the buffer back.  A buffer of any other
    length is refused with [struct.error]. *)
Theorem cdata_unpack_then_pack (o : byte_order) (t : ctype) (b : bytes) :
  match struct_unpack o t b with
  | Some v => zlen b = struct_calcsize t /\
              ctype_min t <= v < ctype_max t /\ struct_pack o t v = Some b
  | None => zlen b <> struct_calcsize t
  end.
Proof.
  destruct (struct_unpack o t b) as [v|] eqn:E.
  - assert (Hl : zlen b = struct_calcsize t).
    { unfold struct_unpack in E.
      destruct (Z.eqb_spec (zlen b) (struct_calcsize t)); [assumption|discriminate]. }
    destruct (struct_unpack_pack o t b Hl) as (v' & E' & Hr & Hp).
    rewrite E in E'. injection E' as ->. auto.
  - intros Hl. destruct (struct_unpack_pack o t b Hl) as (v' & E' & _).
    congruence.
Qed.

(** X6.  [cdata.bitswap] has an entry for every byte value, each entry fits
    a byte, and the entry of [b] is [b] with its eight bits in reverse
    order: bit [n] of the entry is bit [7 - n] of [b], as [cdata.test_bit]
    reads them.  Looking the entry up again gives [b] back. *)
Theorem bitswap_reverses_bits (b : byte) :
  exists b',
    zget cdata.bitswap (byte_val b) = Some b' /\
    cdata.bitswap_entry (byte_val b) = byte_val b' /\
    (forall n, 0 <= n < 8 ->
               cdata.test_bit (byte_val b') n = cdata.test_bit (byte_val b) (7 - n)) /\
    zget cdata.bitswap (byte_val b') = Some b.
Proof.
  assert (Hn : forall n, 0 <= n < 8 ->
               n = 0 \/ n = 1 \/ n = 2 \/ n = 3 \/ n = 4 \/ n = 5 \/ n = 6 \/ n = 7)
    by (intros; lia).
  destruct b;
    (eexists; split; [vm_compute; reflexivity|];
     split; [vm_compute; reflexivity|];
     split; [|vm_compute; reflexivity];
     intros n H; destruct (Hn n H) as [->|[->|[->|[->|[->|[->|[->| ->]]]]]]];
     vm_compute; reflexivity).
Qed.

(** * [DictMixin] over the tag mapping *)

Lemma dict_del_some {V : Type} (d : pydict V) (k : string) (v : V) :
  dict_get d k = Some v -> exists d', dict_del d k = Some d'.
Proof.
  induction d as [|[k0 v0] d IH]; simpl; intros H; [discriminate|].
  destruct (String.eqb_spec k0 k) as [->|Hne]; [eauto|].
  destruct (IH H) as (d' & ->). simpl. eauto.
Qed.

Lemma dict_del_none {V : Type} (d : pydict V) (k : string) :
  dict_get d k = None -> dict_del d k = None.
Proof.
  induction d as [|[k0 v0] d IH]; simpl; intros H; [reflexivity|].
  destruct (String.eqb_spec k0 k) as [->|Hne]; [discriminate|].
  rewrite (IH H). reflexivity.
Qed.

Lemma dict_del_get {V : Type} (d d' : pydict V) (k k' : string) :
  NoDup (dict_keys d) -> dict_del d k = Some d' ->
  dict_get d' k' = if String.eqb k k' then None else dict_get d k'.
Proof.
  revert d'. induction d as [|[k0 v0] d IH]; simpl; intros d' Hnd H; [discriminate|].
  apply NoDup_cons_iff in Hnd as [Hn Hnd].
  destruct (String.eqb_spec k0 k) as [->|Hne].
  - apply some_inj in H. subst d'.
    destruct (String.eqb_spec k k') as [Hk|Hk]; [|reflexivity].
    subst k'. destruct (dict_get d k) eqn:E; [|reflexivity].
    exfalso. apply Hn. apply dict_get_in. congruence.
  - destruct (dict_del d k) as [d1|] eqn:E; [|discriminate].
    simpl in H. apply some_inj in H. subst d'. simpl.
    rewrite (IH d1 Hnd eq_refl).
    destruct (String.eqb_spec k0 k') as [Hk0|Hk0]; [|reflexivity].
    subst k'. destruct (String.eqb_spec k k0); [congruence|reflexivity].
Qed.

Lemma dict_del_length {V : Type} (d d' : pydict V) (k : string) :
  dict_del d k = Some d' -> length d = S (length d').
Proof.
  revert d'. induction d as [|[k0 v0] d IH]; simpl; intros d' H; [discriminate|].
  destruct (String.eqb_spec k0 k) as [->|Hne].
  - apply some_inj in H. now subst.
  - destruct (dict_del d k) as [d1|] eqn:E; [|discriminate].
    simpl in H. apply some_inj in H. subst d'. simpl. now rewrite (IH d1).
Qed.

Lemma getitem_cases (key : string) (t : APEv2) :
  (exists v, is_valid_apev2_key key = true /\
             dict_get (dict_ t) (lower key) = Some v /\
             getitem key t = (Ret v, t)) \/
  ((is_valid_apev2_key key = false \/ dict_get (dict_ t) (lower key) = None) /\
   getitem key t = (Raise KeyError, t)).
Proof.
  unfold getitem. destruct (is_valid_apev2_key key); cbn [negb]; [|right; auto].
  destruct (dict_get (dict_ t) (lower key)) as [v|]; [left; eauto|right; auto].
Qed.

Lemma has_key_run (key : string) (t : APEv2) :
  DictMixin.has_key APEv2_mapping key t =
    (Ret (match fst (getitem key t) with Ret _ => true | _ => false end), t).
Proof.
  unfold DictMixin.has_key, try_except, bind, APEv2_mapping. cbn [getitem_of].
  destruct (getitem_cases key t) as [(v & _ & _ & ->)|(_ & ->)]; reflexivity.
Qed.

Lemma zlen_keys (t : APEv2) : zlen (keys t) = zlen (dict_ t).
Proof. unfold keys, dict_keys, zlen. now rewrite !length_map. Qed.

Lemma delitem_cased (cm : pydict string) (k : string) (v : APEValue_t)
      (r : pydict APEValue_t) (ck : string) :
  dict_get cm k = Some ck -> lower ck = k -> is_valid_apev2_key ck = true ->
  delitem (cased (mkTag cm ((k, v) :: r)) k) (mkTag cm ((k, v) :: r))
  = (Ret tt, mkTag cm r).
Proof.
  intros Hg Hl Hv. unfold cased. cbn [casemap]. rewrite Hg.
  unfold delitem. rewrite Hv. cbn [negb dict_ casemap]. rewrite Hl.
  cbn [dict_del]. rewrite String.eqb_refl. reflexivity.
Qed.

Lemma clear_loop (cm : pydict string) (d : pydict APEValue_t) :
  (forall k, In k (dict_keys d) ->
     exists ck, dict_get cm k = Some ck /\ lower ck = k
                /\ is_valid_apev2_key ck = true) ->
  exists bs,
    mapM delitem
      (map (fun key => match dict_get cm key with
                       | Some k => k | None => key end) (dict_keys d))
      (mkTag cm d) = (Ret bs, mkTag cm []).
Proof.
  induction d as [|[k v] r IH]; intros Hcm.
  - exists []. reflexivity.
  - assert (Hr : forall k', In k' (dict_keys r) ->
               exists ck, dict_get cm k' = Some ck /\ lower ck = k'
                          /\ is_valid_apev2_key ck = true).
    { intros k' Hk'. apply Hcm. right. exact Hk'. }
    destruct (IH Hr) as (bs & IHr).
    exists (tt :: bs). cbn [dict_keys map fst mapM].
    destruct (Hcm k (or_introl eq_refl)) as (ck & Hg & Hl & Hv).
    erewrite bind_ret.
    2:{ pose proof (delitem_cased cm k v r ck Hg Hl Hv) as E.
        unfold cased in E. cbn [casemap] in E. exact E. }
    erewrite bind_ret by (apply IHr). reflexivity.
Qed.

Lemma clear_run (t : APEv2) :
  tag_inv t -> clear t = (Ret tt, mkTag (casemap t) []).
Proof.
  destruct t as [cm d]. intros [Hnd Hcm]. cbn [dict_ casemap] in *.
  unfold clear, keys. cbn [dict_ casemap].
  destruct (clear_loop cm d Hcm) as (bs & E).
  erewrite bind_ret by (apply E). reflexivity.
Qed.

(** X7.  [key in tag] folds case and never raises: on a tag that keeps the
    mapping invariant it returns [True] exactly for a legal key whose
    lower-case form is that of a reported key, and [False] for every other
    key, an illegal one included; the tag is left as it was. *)
Theorem has_key_folds_case (t : APEv2) (key : string) :
  tag_inv t ->
  exists b,
    DictMixin.has_key APEv2_mapping key t = (Ret b, t) /\
    (b = true <->
     is_valid_apev2_key key = true /\ In (lower key) (map lower (keys t))).
Proof.
  intros Ht. rewrite has_key_run. eexists. split; [reflexivity|].
  rewrite (folded_keys_stored t Ht).
  destruct (getitem_cases key t) as [(v & Hv & Hg & E)|([Hv|Hg] & E)];
    rewrite E; cbn [fst].
  - split; [intros _; split; [exact Hv|]|reflexivity].
    apply dict_get_in. congruence.
  - split; [discriminate|]. intros [H _]. congruence.
  - split; [discriminate|]. intros [_ H]. apply dict_get_in in H. congruence.
Qed.

Lemma has_key_folds_case_witness :
  exists b,
    DictMixin.has_key APEv2_mapping "ARTIST"%string artist_tag = (Ret b, artist_tag) /\
    (b = true <->
     is_valid_apev2_key "ARTIST" = true /\
     In (lower "ARTIST") (map lower (keys artist_tag))).
Proof.
  apply (has_key_folds_case artist_tag "ARTIST").
  unfold artist_tag. rewrite setitem_run by reflexivity.
  apply tag_inv_set; [apply tag_inv_new|reflexivity].
Defined.

(** X8.  [tag.get(key, default)] never raises and never changes the tag:
    it returns the stored value when [tag[key]] has one, and [default]
    exactly when [tag[key]] raises [KeyError]. *)
Theorem get_never_raises {D : Type} (t : APEv2) (key : string) (d : D) :
  exists r,
    DictMixin.get APEv2_mapping key d t = (Ret r, t) /\
    match r with
    | inl v => getitem key t = (Ret v, t)
    | inr d' => d' = d /\ getitem key t = (Raise KeyError, t)
    end.
Proof.
  unfold DictMixin.get, try_except, bind, APEv2_mapping. cbn [getitem_of].
  destruct (getitem_cases key t) as [(v & _ & _ & E)|(_ & E)]; rewrite E;
    cbn; eexists; (split; [reflexivity|]); cbn; auto.
Qed.

(** X9.  [tag.pop(key)] on a stored key returns the stored value and
    removes the entry: afterwards [tag[key]] raises [KeyError], every key
    with another lower-case form reads as before, the tag has one key less
    and still keeps the mapping invariant. *)
Theorem pop_removes_stored_key {D : Type} (t : APEv2) (key : string)
        (v : APEValue_t) (args : option D) :
  tag_inv t -> getitem key t = (Ret v, t) ->
  exists t',
    DictMixin.pop APEv2_mapping key args t = (Ret (inl v), t') /\
    tag_inv t' /\
    getitem key t' = (Raise KeyError, t') /\
    (forall k', lower k' <> lower key ->
                fst (getitem k' t') = fst (getitem k' t)) /\
    DictMixin.len APEv2_mapping t' = (Ret (zlen (keys t) - 1), t').
Proof.
  intros Ht Hget.
  destruct (getitem_cases key t) as [(v' & Hv & Hg & E)|(_ & E)];
    [|congruence].
  assert (v' = v) by congruence. subst v'.
  destruct (dict_del_some _ _ _ Hg) as (d' & Hdel).
  assert (Hd : delitem key t = (Ret tt, mkTag (casemap t) d')).
  { unfold delitem. rewrite Hv. cbn [negb]. rewrite Hdel. reflexivity. }
  exists (mkTag (casemap t) d'). split; [|split; [|split; [|split]]].
  - unfold DictMixin.pop, try_except, bind, APEv2_mapping.
    cbn [getitem_of delitem_of]. rewrite Hget. cbn. rewrite Hd. reflexivity.
  - exact (preserves_delitem key t (Ret tt) _ Ht Hd).
  - unfold getitem. rewrite Hv. cbn [negb dict_].
    rewrite (dict_del_get _ _ _ (lower key) (proj1 Ht) Hdel), String.eqb_refl.
    reflexivity.
  - intros k' Hk'. unfold getitem.
    destruct (is_valid_apev2_key k'); cbn [negb dict_ fst]; [|reflexivity].
    rewrite (dict_del_get _ _ _ (lower k') (proj1 Ht) Hdel).
    destruct (String.eqb_spec (lower key) (lower k')); [congruence|].
    destruct (dict_get (dict_ t) (lower k')); reflexivity.
  - unfold DictMixin.len, APEv2_mapping. cbn [keys_of]. rewrite !zlen_keys.
    cbn [dict_]. apply dict_del_length in Hdel. do 2 f_equal. zlia.
Qed.

Lemma pop_removes_stored_key_witness :
  exists t',
    DictMixin.pop APEv2_mapping "ARTIST"%string (@None unit) artist_tag
      = (Ret (inl (mkValue TEXT (list_byte_of_string "X"))), t') /\
    tag_inv t' /\
    getitem "ARTIST" t' = (Raise KeyError, t') /\
    (forall k', lower k' <> lower "ARTIST" ->
                fst (getitem k' t') = fst (getitem k' artist_tag)) /\
    DictMixin.len APEv2_mapping t' = (Ret (zlen (keys artist_tag) - 1), t').
Proof.
  apply (pop_removes_stored_key artist_tag "ARTIST").
  - unfold artist_tag. rewrite setitem_run by reflexivity.
    apply tag_inv_set; [apply tag_inv_new|reflexivity].
  - vm_compute. reflexivity.
Defined.

(** X10.  [tag.pop(key, default)] on a key [tag[key]] raises [KeyError]
    for returns [default], and [tag.pop(key)] raises [KeyError]; neither
    changes the tag. *)
Theorem pop_missing_key {D : Type} (t : APEv2) (key : string) (d : D) :
  getitem key t = (Raise KeyError, t) ->
  DictMixin.pop APEv2_mapping key (Some d) t = (Ret (inr d), t) /\
  DictMixin.pop APEv2_mapping key (@None D) t = (Raise KeyError, t).
Proof.
  intros E. unfold DictMixin.pop, try_except, bind, APEv2_mapping.
  cbn [getitem_of]. rewrite E. cbn. auto.
Qed.

Lemma pop_missing_key_witness :
  DictMixin.pop APEv2_mapping "Title"%string (Some 7) artist_tag = (Ret (inr 7), artist_tag) /\
  DictMixin.pop APEv2_mapping "Title"%string (@None Z) artist_tag = (Raise KeyError, artist_tag).
Proof. apply (pop_missing_key artist_tag "Title" 7). vm_compute. reflexivity. Defined.

(** X11.  [tag.setdefault(key, default)] with a legal key returns the
    stored value and changes nothing when the key is stored; otherwise it
    stores [default] and returns the argument itself, while [tag[key]]
    then reads the value [__setitem__] guessed from it. *)
Theorem setdefault_returns_argument (t : APEv2) (key : string) (d : pyvalue) :
  is_valid_apev2_key key = true ->
  exists r t',
    DictMixin.setdefault APEv2_mapping key d t = (Ret r, t') /\
    match r with
    | inl v => getitem key t = (Ret v, t) /\ t' = t
    | inr d' => d' = d /\ getitem key t = (Raise KeyError, t) /\
                setitem key d t = (Ret tt, t') /\
                getitem key t' = (Ret (guessed d), t')
    end.
Proof.
  intros Hv. unfold DictMixin.setdefault, try_except, bind, APEv2_mapping.
  cbn [getitem_of setitem_of].
  destruct (getitem_cases key t) as [(v & _ & _ & E)|(_ & E)]; rewrite E; cbn.
  - exists (inl v), t. auto.
  - rewrite (setitem_run key d t Hv).
    eexists (inr d), _. split; [reflexivity|]. repeat split.
    unfold getitem. rewrite Hv. cbn [negb dict_].
    rewrite dict_get_set, String.eqb_refl. reflexivity.
Qed.

Lemma setdefault_returns_argument_witness :
  exists r t',
    DictMixin.setdefault APEv2_mapping "Title"%string (PyStr "Y") artist_tag = (Ret r, t') /\
    match r with
    | inl v => getitem "Title" artist_tag = (Ret v, artist_tag) /\ t' = artist_tag
    | inr d' => d' = PyStr "Y" /\
                getitem "Title" artist_tag = (Raise KeyError, artist_tag) /\
                setitem "Title" (PyStr "Y") artist_tag = (Ret tt, t') /\
                getitem "Title" t' = (Ret (guessed (PyStr "Y")), t')
    end.
Proof. apply (setdefault_returns_argument artist_tag "Title"). reflexivity. Defined.

(** X12.  [tag.clear()] on a tag that keeps the mapping invariant returns
    normally and leaves no key: [keys()] is empty and every lookup raises
    [KeyError].  The remembered casings are not forgotten. *)
Theorem clear_empties_mapping (t : APEv2) :
  tag_inv t ->
  exists t',
    DictMixin.clear APEv2_mapping t = (Ret tt, t') /\
    keys t' = [] /\
    (forall key, getitem key t' = (Raise KeyError, t')) /\
    casemap t' = casemap t /\ tag_inv t'.
Proof.
  intros Ht. exists (mkTag (casemap t) []).
  split; [exact (clear_run t Ht)|]. split; [reflexivity|].
  split; [|split; [reflexivity|split; [constructor|intros k []]]].
  intros key. unfold getitem. destruct (is_valid_apev2_key key); reflexivity.
Qed.

Lemma clear_empties_mapping_witness :
  exists t',
    DictMixin.clear APEv2_mapping artist_tag = (Ret tt, t') /\
    keys t' = [] /\
    (forall key, getitem key t' = (Raise KeyError, t')) /\
    casemap t' = casemap artist_tag /\ tag_inv t'.
Proof.
  apply (clear_empties_mapping artist_tag).
  unfold artist_tag. rewrite setitem_run by reflexivity.
  apply tag_inv_set; [apply tag_inv_new|reflexivity].
Defined.

(** X13.  [tag.popitem()] raises [KeyError] on a tag without keys; on any
    other tag that keeps the mapping invariant it returns the first key
    [keys()] reports with the value stored for it, and [keys()] is then
    the rest of that list. *)
Theorem popitem_takes_first_key (t : APEv2) :
  tag_inv t ->
  match keys t with
  | [] => DictMixin.popitem APEv2_mapping t = (Raise KeyError, t)
  | key :: rest =>
      exists v t',
        getitem key t = (Ret v, t) /\
        DictMixin.popitem APEv2_mapping t = (Ret (key, v), t') /\
        keys t' = rest
  end.
Proof.
  destruct t as [cm d]. intros [Hnd Hcm]. cbn [dict_ casemap] in *.
  destruct d as [|[k v] r].
  - reflexivity.
  - destruct (Hcm k (or_introl eq_refl)) as (ck & Hg & Hl & Hv).
    assert (Ek : keys (mkTag cm ((k, v) :: r)) = ck :: keys (mkTag cm r)).
    { unfold keys. cbn [dict_ casemap dict_keys map fst]. rewrite Hg. reflexivity. }
    rewrite Ek.
    assert (Eg : getitem ck (mkTag cm ((k, v) :: r)) = (Ret v, mkTag cm ((k, v) :: r))).
    { unfold getitem. rewrite Hv. cbn [negb dict_]. rewrite Hl.
      cbn [dict_get]. rewrite String.eqb_refl. reflexivity. }
    assert (Ed : delitem ck (mkTag cm ((k, v) :: r)) = (Ret tt, mkTag cm r)).
    { pose proof (delitem_cased cm k v r ck Hg Hl Hv) as E.
      unfold cased in E. cbn [casemap] in E. rewrite Hg in E. exact E. }
    exists v, (mkTag cm r). split; [exact Eg|]. split; [|reflexivity].
    unfold DictMixin.popitem, APEv2_mapping. cbn [keys_of]. rewrite Ek.
    unfold DictMixin.pop, try_except, bind. cbn [getitem_of delitem_of].
    rewrite Eg. cbn. rewrite Ed. reflexivity.
Qed.

Lemma popitem_takes_first_key_witness :
  match keys artist_tag with
  | [] => DictMixin.popitem APEv2_mapping artist_tag = (Raise KeyError, artist_tag)
  | key :: rest =>
      exists v t',
        getitem key artist_tag = (Ret v, artist_tag) /\
        DictMixin.popitem APEv2_mapping artist_tag = (Ret (key, v), t') /\
        keys t' = rest
  end.
Proof.
  apply (popitem_takes_first_key artist_tag).
  unfold artist_tag. rewrite setitem_run by reflexivity.
  apply tag_inv_set; [apply tag_inv_new|reflexivity].
Defined.

Lemma update_pairs_app (ws1 ws2 : list (string * pyvalue)) (t t1 : APEv2) :
  DictMixin.update_pairs APEv2_mapping ws1 t = (Ret tt, t1) ->
  DictMixin.update_pairs APEv2_mapping (ws1 ++ ws2) t
  = DictMixin.update_pairs APEv2_mapping ws2 t1.
Proof.
  revert t. induction ws1 as [|[k v] ws1 IH]; intros t H.
  - cbn in H. inversion H. reflexivity.
  - cbn [app DictMixin.update_pairs] in *. unfold bind in *.
    destruct (setitem_of APEv2_mapping k v t) as [[[]| |] t0];
      try discriminate. now apply IH.
Qed.

Lemma update_pairs_valid (ws : list (string * pyvalue)) (t : APEv2) :
  Forall (fun kv => is_valid_apev2_key (fst kv) = true) ws ->
  exists t1, DictMixin.update_pairs APEv2_mapping ws t = (Ret tt, t1).
Proof.
  revert t. induction ws as [|[k v] ws IH]; intros t H.
  - exists t. reflexivity.
  - pose proof (Forall_inv H) as Hk. pose proof (Forall_inv_tail H) as Hr.
    cbn [fst] in Hk. cbn [DictMixin.update_pairs].
    unfold APEv2_mapping at 1. cbn [setitem_of].
    erewrite bind_ret by (apply setitem_run; exact Hk). apply IH. exact Hr.
Qed.

(** X14.  [tag.update(other)] assigns the pairs of [other] in order and
    stops at the first illegal key with [KeyError]: the pairs before it
    have been assigned, the pairs after it have not.  Keyword arguments
    passed beside [other] play no part. *)
Theorem update_stops_at_illegal_key
        (t : APEv2) (ws1 ws2 kwargs : list (string * pyvalue))
        (k : string) (v : pyvalue) :
  Forall (fun kv => is_valid_apev2_key (fst kv) = true) ws1 ->
  is_valid_apev2_key k = false ->
  exists t1,
    DictMixin.update APEv2_mapping (Some ws1) [] t = (Ret tt, t1) /\
    DictMixin.update APEv2_mapping (Some (ws1 ++ (k, v) :: ws2)) kwargs t
    = (Raise KeyError, t1).
Proof.
  intros H1 Hk. destruct (update_pairs_valid ws1 t H1) as (t1 & E1).
  exists t1. split; [exact E1|]. cbn [DictMixin.update].
  rewrite (update_pairs_app ws1 _ t t1 E1). cbn [DictMixin.update_pairs].
  unfold APEv2_mapping at 1. cbn [setitem_of].
  erewrite bind_raise by (apply setitem_invalid; exact Hk). reflexivity.
Qed.

Lemma update_stops_at_illegal_key_witness :
  exists t1,
    DictMixin.update APEv2_mapping (Some [("Artist"%string, PyStr "A")]) [] new_tag
    = (Ret tt, t1) /\
    DictMixin.update APEv2_mapping
      (Some ([("Artist"%string, PyStr "A")] ++
             ("x"%string, PyStr "B") :: [("Title"%string, PyStr "C")]))
      [("Album"%string, PyStr "D")] new_tag
    = (Raise KeyError, t1).
Proof.
  apply (update_stops_at_illegal_key new_tag [("Artist"%string, PyStr "A")]).
  - repeat constructor.
  - reflexivity.
Defined.

Lemma dict_del_fresh {V : Type} (d : pydict V) (k : string) (v : V) :
  ~ In k (dict_keys d) -> dict_del (d ++ [(k, v)]) k = Some d.
Proof.
  induction d as [|[k0 v0] d IH]; simpl; intros Hn.
  - now rewrite String.eqb_refl.
  - destruct (String.eqb_spec k0 k) as [->|Hne]; [tauto|].
    rewrite IH by tauto. reflexivity.
Qed.

(** X15.  On a [DictProxy], assigning to a key that is not stored and then
    popping that key returns the assigned value and leaves the proxy
    exactly as it was before the assignment. *)
Theorem DictProxy_set_then_pop {V D : Type} (d : pydict V) (key : string)
        (value : V) (args : option D) :
  ~ In key (DictProxy.keys d) ->
  (setitem_of DictProxy.as_mapping key value ;;
   DictMixin.pop DictProxy.as_mapping key args) d
  = (Ret (inl value), d).
Proof.
  intros Hn. unfold bind at 1. cbn [setitem_of DictProxy.as_mapping].
  unfold DictProxy.setitem. unfold DictProxy.keys in Hn.
  rewrite (dict_set_fresh d key value Hn).
  unfold DictMixin.pop, try_except, bind, DictProxy.as_mapping.
  cbn [getitem_of delitem_of].
  unfold DictProxy.getitem, DictProxy.delitem.
  assert (Eg : dict_get (d ++ [(key, value)]) key = Some value).
  { rewrite <- (dict_set_fresh d key value Hn), dict_get_set, String.eqb_refl.
    reflexivity. }
  rewrite Eg. cbn. rewrite (dict_del_fresh d key value Hn). reflexivity.
Qed.

Lemma DictProxy_set_then_pop_witness :
  (setitem_of DictProxy.as_mapping "b"%string 2 ;;
   DictMixin.pop DictProxy.as_mapping "b"%string (@None unit)) [("a"%string, 1)]
  = (Ret (inl 2), [("a"%string, 1)]).
Proof.
  apply (DictProxy_set_then_pop [("a"%string, 1)] "b" 2 (@None unit)).
  cbn. intros [H|[]]. discriminate.
Defined.

(** * Keys and items of the tag mapping *)

Lemma encode_ascii_bytes (k : string) :
  ascii_key k ->
  zlen (encode_utf8 k) = Z.of_nat (String.length k) /\
  Forall (fun b => 32 <= byte_val b <= 126) (encode_utf8 k).
Proof.
  unfold ascii_key. induction k as [|c k IH]; cbn [list_ascii_of_string]; intros H.
  - split; [reflexivity|constructor].
  - pose proof (Forall_inv H) as Hc. apply Forall_inv_tail in H.
    cbn beta in Hc. destruct (IH H) as [Hl Hf].
    cbn [encode_utf8 String.length]. unfold encode_char.
    destruct (Z.ltb_spec (char_code c) 128); [|lia].
    cbn [app]. rewrite zlen_cons, Hl. split; [lia|].
    constructor; [|exact Hf]. rewrite byte_val_of_Z, Z.mod_small by lia. exact Hc.
Qed.

Lemma bytes_min_of_forall (l : bytes) :
  Forall (fun b => 32 <= byte_val b <= 126) l -> 32 <= bytes_min l.
Proof.
  induction 1 as [|b l Hb _ IH]; simpl; lia.
Qed.

Lemma bytes_max_of_forall (l : bytes) :
  Forall (fun b => 32 <= byte_val b <= 126) l -> bytes_max l <= 126.
Proof.
  induction 1 as [|b l Hb _ IH]; simpl; lia.
Qed.

Lemma encode_utf8_inj_ascii (k s : string) :
  ascii_key k -> ascii_key s -> encode_utf8 k = encode_utf8 s -> k = s.
Proof.
  intros Hk Hs E.
  pose proof (decode_encode_ascii k Hk) as Dk.
  pose proof (decode_encode_ascii s Hs) as Ds.
  rewrite E in Dk. congruence.
Qed.

Lemma reserved_key_iff (key : string) :
  ascii_key key ->
  existsb (bytes_eqb (utf8 key)) reserved_keys = true <->
  In key ["OggS"; "TAG"; "ID3"; "MP+"]%string.
Proof.
  intros Hk. rewrite existsb_exists. split.
  - intros (r & Hr & E). apply bytes_eqb_eq in E. unfold utf8 in E.
    unfold reserved_keys in Hr. cbn [map In] in Hr.
    destruct Hr as [<-|[<-|[<-|[<-|[]]]]].
    + left. symmetry. apply encode_utf8_inj_ascii; auto.
      unfold ascii_key; cbn; repeat constructor; vm_compute; discriminate.
    + right; left. symmetry. apply encode_utf8_inj_ascii; auto.
      unfold ascii_key; cbn; repeat constructor; vm_compute; discriminate.
    + right; right; left. symmetry. apply encode_utf8_inj_ascii; auto.
      unfold ascii_key; cbn; repeat constructor; vm_compute; discriminate.
    + right; right; right; left. symmetry. apply encode_utf8_inj_ascii; auto.
      unfold ascii_key; cbn; repeat constructor; vm_compute; discriminate.
  - intros H. exists (utf8 key). split; [|apply bytes_eqb_refl].
    cbn [In] in H. destruct H as [<-|[<-|[<-|[<-|[]]]]]; vm_compute; auto.
Qed.

(** X16.  A key is legal exactly when it has between 2 and 255 characters,
    each of them printable ASCII (U+0020 to U+007E), and it is none of the
    words [OggS], [TAG], [ID3] and [MP+]. *)
Theorem valid_key_characterised (key : string) :
  is_valid_apev2_key key = true <->
  2 <= Z.of_nat (String.length key) <= 255 /\
  ascii_key key /\
  ~ In key ["OggS"; "TAG"; "ID3"; "MP+"]%string.
Proof.
  split.
  - intros H. pose proof (valid_key_ascii key H) as Hk.
    destruct (encode_ascii_bytes key Hk) as [Hl _].
    unfold is_valid_apev2_key in H. unfold utf8 in H at 1 2 3 4.
    rewrite Hl in H.
    apply andb_prop in H as [H Hres]. apply andb_prop in H as [H _].
    apply andb_prop in H as [H _]. apply andb_prop in H as [H2 H255].
    apply Z.leb_le in H2, H255. split; [lia|]. split; [exact Hk|].
    intros Hin. apply (reserved_key_iff key Hk) in Hin.
    rewrite Hin in Hres. discriminate.
  - intros (Hlen & Hk & Hres).
    destruct (encode_ascii_bytes key Hk) as [Hl Hf].
    unfold is_valid_apev2_key. unfold utf8 at 1 2 3 4. rewrite Hl.
    pose proof (bytes_min_of_forall _ Hf). pose proof (bytes_max_of_forall _ Hf).
    destruct (existsb (bytes_eqb (utf8 key)) reserved_keys) eqn:E.
    { apply (reserved_key_iff key Hk) in E. contradiction. }
    repeat (apply andb_true_intro; split); try apply Z.leb_le; try lia.
Qed.

(** X17.  After [tag[key] = value] with a legal key, reading any legal key
    with the same lower-case form gives the value [__setitem__] guessed,
    and reading a key with another lower-case form gives what it gave
    before the assignment. *)
Theorem setitem_then_getitem (t : APEv2) (key key' : string) (v : pyvalue) :
  is_valid_apev2_key key = true -> is_valid_apev2_key key' = true ->
  exists t',
    setitem key v t = (Ret tt, t') /\
    fst (getitem key' t') =
      if String.eqb (lower key) (lower key') then Ret (guessed v)
      else fst (getitem key' t).
Proof.
  intros Hv Hv'. eexists. split; [apply setitem_run; exact Hv|].
  unfold getitem. rewrite Hv'. cbn [negb dict_]. rewrite dict_get_set.
  destruct (String.eqb (lower key) (lower key')); [reflexivity|].
  destruct (dict_get (dict_ t) (lower key')); reflexivity.
Qed.

Lemma setitem_then_getitem_witness :
  exists t',
    setitem "Title" (PyStr "Y") artist_tag = (Ret tt, t') /\
    fst (getitem "TITLE" t') =
      if String.eqb (lower "Title") (lower "TITLE") then Ret (guessed (PyStr "Y"))
      else fst (getitem "TITLE" artist_tag).
Proof.
  apply (setitem_then_getitem artist_tag "Title" "TITLE"); reflexivity.
Defined.

(** X18.  An illegal key is refused everywhere with [KeyError] and without
    a change to the tag: by [tag[key]], [tag[key] = value], [del tag[key]],
    [tag.pop(key)] and [tag.setdefault(key, value)]. *)
Theorem illegal_key_is_refused (t : APEv2) (key : string) (v : pyvalue) :
  is_valid_apev2_key key = false ->
  getitem key t = (Raise KeyError, t) /\
  setitem key v t = (Raise KeyError, t) /\
  delitem key t = (Raise KeyError, t) /\
  DictMixin.pop APEv2_mapping key (@None unit) t = (Raise KeyError, t) /\
  DictMixin.setdefault APEv2_mapping key v t = (Raise KeyError, t).
Proof.
  intros Hv.
  assert (Eg : getitem key t = (Raise KeyError, t))
    by (unfold getitem; rewrite Hv; reflexivity).
  assert (Es : setitem key v t = (Raise KeyError, t))
    by (apply setitem_invalid; exact Hv).
  split; [exact Eg|]. split; [exact Es|]. split; [|split].
  - unfold delitem. rewrite Hv. reflexivity.
  - unfold DictMixin.pop, try_except, bind, APEv2_mapping. cbn [getitem_of].
    rewrite Eg. reflexivity.
  - unfold DictMixin.setdefault, try_except, bind, APEv2_mapping.
    cbn [getitem_of setitem_of]. rewrite Eg. cbn. rewrite Es. reflexivity.
Qed.

Lemma illegal_key_is_refused_witness :
  getitem "TAG" artist_tag = (Raise KeyError, artist_tag) /\
  setitem "TAG" (PyStr "Y") artist_tag = (Raise KeyError, artist_tag) /\
  delitem "TAG" artist_tag = (Raise KeyError, artist_tag) /\
  DictMixin.pop APEv2_mapping "TAG"%string (@None unit) artist_tag
    = (Raise KeyError, artist_tag) /\
  DictMixin.setdefault APEv2_mapping "TAG"%string (PyStr "Y") artist_tag
    = (Raise KeyError, artist_tag).
Proof. apply (illegal_key_is_refused artist_tag "TAG"). reflexivity. Defined.

(** * Text values *)

Lemma decode_encode_char (c : ascii) (r : bytes) :
  decode_utf8 (encode_char c ++ r) = dec_cons c (decode_utf8 r).
Proof.
  destruct c as [[] [] [] [] [] [] [] []]; reflexivity.
Qed.

Lemma decode_encode (s : string) : decode_utf8 (encode_utf8 s) = DecStr s.
Proof.
  induction s as [|c s IH]; [reflexivity|].
  cbn [encode_utf8]. rewrite decode_encode_char, IH. reflexivity.
Qed.

Lemma encode_utf8_app (s1 s2 : string) :
  encode_utf8 (s1 ++ s2) = encode_utf8 s1 ++ encode_utf8 s2.
Proof.
  induction s1 as [|c s1 IH]; [reflexivity|].
  cbn [String.append encode_utf8]. rewrite IH, app_assoc. reflexivity.
Qed.

Lemma encode_join (l : list string) :
  encode_utf8 (join_str_nul l) = join_nul (map utf8 l).
Proof.
  induction l as [|s [|s' r] IH]; [reflexivity|reflexivity|].
  change (join_str_nul (s :: s' :: r))
    with (s ++ String zero (join_str_nul (s' :: r)))%string.
  rewrite encode_utf8_app. cbn [encode_utf8]. rewrite IH. reflexivity.
Qed.

Lemma split_nul_nonempty (s : string) : split_nul s <> [].
Proof.
  destruct s as [|c s]; cbn; [discriminate|].
  destruct (is_nul c); [discriminate|]. destruct (split_nul s); discriminate.
Qed.

Lemma split_nul_app (s r : string) :
  nul_free s -> split_nul (s ++ String zero r) = s :: split_nul r.
Proof.
  unfold nul_free. induction s as [|c s IH]; cbn [list_ascii_of_string]; intros H.
  - reflexivity.
  - pose proof (Forall_inv H) as Hc. apply Forall_inv_tail in H. cbn beta in Hc.
    cbn [String.append split_nul]. rewrite Hc, (IH H). reflexivity.
Qed.

Lemma split_nul_free (s : string) : nul_free s -> split_nul s = [s].
Proof.
  unfold nul_free. induction s as [|c s IH]; cbn [list_ascii_of_string]; intros H.
  - reflexivity.
  - pose proof (Forall_inv H) as Hc. apply Forall_inv_tail in H. cbn beta in Hc.
    cbn [split_nul]. rewrite Hc, (IH H). reflexivity.
Qed.

Lemma split_join (l : list string) :
  l <> [] -> Forall nul_free l -> split_nul (join_str_nul l) = l.
Proof.
  induction l as [|s [|s' r] IH]; intros Hne H; [congruence| |].
  - cbn. apply split_nul_free. exact (Forall_inv H).
  - change (join_str_nul (s :: s' :: r))
      with (s ++ String zero (join_str_nul (s' :: r)))%string.
    rewrite split_nul_app by exact (Forall_inv H).
    rewrite IH; [reflexivity|discriminate|exact (Forall_inv_tail H)].
Qed.

Lemma split_nul_parts (s : string) : Forall nul_free (split_nul s).
Proof.
  induction s as [|c s IH]; cbn [split_nul].
  - repeat constructor.
  - destruct (is_nul c) eqn:Hc.
    + constructor; [constructor|exact IH].
    + destruct (split_nul s) as [|h t]; [repeat constructor; exact Hc|].
      pose proof (Forall_inv IH) as Hh. apply Forall_inv_tail in IH.
      constructor; [|exact IH]. constructor; [exact Hc|exact Hh].
Qed.

Lemma length_list_assign {A : Type} (l : list A) (n : nat) (x : A) :
  length (list_assign l n x) = length l.
Proof.
  revert n. induction l as [|a l IH]; intros [|n]; cbn; auto.
Qed.

Lemma nth_list_assign {A : Type} (l : list A) (n m : nat) (x d : A) :
  (n < length l)%nat ->
  nth m (list_assign l n x) d = if Nat.eqb m n then x else nth m l d.
Proof.
  revert n m. induction l as [|a l IH]; intros n m H; cbn in H; [lia|].
  destruct n as [|n], m as [|m]; cbn; try reflexivity.
  apply IH. lia.
Qed.

Lemma list_index_bound {A : Type} (l : list A) (i : Z) (n : nat) :
  list_index l i = Some n -> (n < length l)%nat.
Proof.
  unfold list_index, zlen.
  destruct (Z.leb_spec 0 i) as [Ha|Ha],
           (Z.ltb_spec i (Z.of_nat (length l))) as [Hb|Hb]; cbn [andb];
    try (intros E; apply some_inj in E; lia);
    destruct (Z.leb_spec (- Z.of_nat (length l)) i) as [Hc|Hc],
             (Z.ltb_spec i 0) as [Hd|Hd]; cbn [andb];
    try discriminate; intros E; apply some_inj in E; lia.
Qed.

Lemma list_index_same_length {A : Type} (l l' : list A) (i : Z) :
  length l = length l' -> list_index l i = list_index l' i.
Proof. intros H. unfold list_index, zlen. rewrite H. reflexivity. Qed.

Lemma dec_wide_not_str (d : decoded) (s : string) : dec_wide d <> DecStr s.
Proof. destruct d; discriminate. Qed.

Lemma dec_cons_str (c : ascii) (d : decoded) (s : string) :
  dec_cons c d = DecStr s -> exists s', d = DecStr s' /\ s = String c s'.
Proof.
  destruct d as [s'| |]; cbn; intros H; try discriminate.
  exists s'. split; [reflexivity|congruence].
Qed.

Lemma byte_nul (b : byte) : Byte.eqb b x00 = (byte_val b =? 0).
Proof. destruct b; reflexivity. Qed.

Lemma char_code_ascii (n : Z) :
  0 <= n < 256 -> char_code (ascii_of_N (Z.to_N n)) = n.
Proof.
  intros H. unfold char_code. rewrite N_ascii_embedding by lia. lia.
Qed.

Lemma length_split_cons (c : ascii) (r : string) :
  length (split_nul (String c r)) =
    if is_nul c then S (length (split_nul r)) else length (split_nul r).
Proof.
  cbn [split_nul]. destruct (is_nul c); [reflexivity|].
  pose proof (split_nul_nonempty r). destruct (split_nul r); [congruence|reflexivity].
Qed.

Lemma count_nul_decoded (n : nat) :
  forall (b : bytes) (s : string),
    (length b <= n)%nat -> decode_utf8 b = DecStr s ->
    Z.of_nat (length (split_nul s)) = count_nul b + 1.
Proof.
  induction n as [|n IH]; intros b s Hlen Hdec.
  - destruct b; [|cbn in Hlen; lia]. cbn in Hdec. inversion Hdec. reflexivity.
  - destruct b as [|b0 r0]; [cbn in Hdec; inversion Hdec; reflexivity|].
    cbn [length] in Hlen. cbn [decode_utf8] in Hdec. cbv zeta in Hdec.
    pose proof (byte_val_range b0) as R0.
    destruct (Z.ltb_spec (byte_val b0) 128) as [H0|H0].
    + apply dec_cons_str in Hdec as (s' & Hd & ->).
      rewrite length_split_cons. cbn [count_nul]. rewrite byte_nul.
      unfold is_nul. rewrite char_code_ascii by lia.
      pose proof (IH r0 s' ltac:(lia) Hd) as E.
      destruct (byte_val b0 =? 0); lia.
    + destruct r0 as [|b1 r1]; [discriminate|]. cbn [length] in Hlen.
      pose proof (byte_val_range b1) as R1.
      destruct (in_range 194 223 (byte_val b0)) eqn:E1.
      * destruct (in_range 128 191 (byte_val b1)) eqn:E2; [|discriminate].
        destruct (Z.leb_spec (byte_val b0) 195) as [H5|H5];
          [|exfalso; exact (dec_wide_not_str _ _ Hdec)].
        apply dec_cons_str in Hdec as (s' & Hd & ->).
        unfold in_range in E1, E2.
        apply andb_prop in E1 as [E1 _]. apply andb_prop in E2 as [E2 E2'].
        apply Z.leb_le in E1, E2, E2'.
        rewrite length_split_cons. cbn [count_nul]. rewrite !byte_nul.
        unfold is_nul. rewrite char_code_ascii by lia.
        pose proof (IH r1 s' ltac:(lia) Hd) as E.
        destruct (Z.eqb_spec ((byte_val b0 - 192) * 64 + (byte_val b1 - 128)) 0);
          [lia|].
        destruct (Z.eqb_spec (byte_val b0) 0); [lia|].
        destruct (Z.eqb_spec (byte_val b1) 0); [lia|]. lia.
      * destruct r1 as [|b2 r2]; [discriminate|].
        match type of Hdec with
        | (if ?c then _ else _) = _ => destruct c
        end.
        { destruct (in_range 128 191 (byte_val b2)); [|discriminate].
          exfalso; exact (dec_wide_not_str _ _ Hdec). }
        destruct r2 as [|b3 r3]; [discriminate|].
        match type of Hdec with
        | (if ?c then _ else _) = _ => destruct c
        end; [|discriminate].
        exfalso; exact (dec_wide_not_str _ _ Hdec).
Qed.

Lemma text_iter_encoded (k : value_kind) (s : string) :
  APETextValue.iter (mkValue k (encode_utf8 s)) = Text (split_nul s).
Proof.
  unfold APETextValue.iter, APETextValue.str. cbn [value].
  rewrite decode_encode. reflexivity.
Qed.

(** X19.  A list of NUL-free strings assigned to a key reads back as that
    list: iterating the stored text value gives the strings in order and
    its length is their number.  The empty list is the one exception: it
    is stored as the empty text, which reads back as one empty string. *)
Theorem text_value_holds_list (l : list string) :
  Forall nul_free l ->
  let v := guessed (PyList l) in
  APETextValue.iter v = Text (match l with [] => [EmptyString] | _ => l end) /\
  APETextValue.len v = Z.max 1 (zlen l).
Proof.
  intros H v. subst v. cbn [guessed]. rewrite <- encode_join.
  assert (Hi : APETextValue.iter (mkValue TEXT (encode_utf8 (join_str_nul l)))
               = Text (match l with [] => [EmptyString] | _ => l end)).
  { rewrite text_iter_encoded. destruct l as [|s r]; [reflexivity|].
    rewrite split_join; [reflexivity|discriminate|exact H]. }
  split; [exact Hi|].
  unfold APETextValue.iter, APETextValue.str in Hi. cbn [value] in Hi.
  unfold APETextValue.len. cbn [value].
  destruct (decode_utf8 (encode_utf8 (join_str_nul l))) as [s| |] eqn:E;
    try discriminate.
  rewrite <- (count_nul_decoded _ _ s (le_n _) E).
  inversion Hi as [Hs]. rewrite Hs.
  destruct l as [|s0 r]; [reflexivity|]. unfold zlen. cbn [length]. lia.
Qed.

Lemma text_value_holds_list_witness :
  let v := guessed (PyList ["a"; "b c"]%string) in
  APETextValue.iter v = Text ["a"; "b c"]%string /\
  APETextValue.len v = Z.max 1 (zlen ["a"; "b c"]%string).
Proof.
  apply (text_value_holds_list ["a"; "b c"]%string).
  repeat constructor.
Defined.

Lemma text_len_iter (self : APEValue_t) (l : list string) :
  APETextValue.iter self = Text l -> APETextValue.len self = zlen l.
Proof.
  unfold APETextValue.iter, APETextValue.str, APETextValue.len.
  destruct (decode_utf8 (value self)) as [s| |] eqn:E; try discriminate.
  intros H. inversion H as [Hs].
  rewrite <- (count_nul_decoded _ _ s (le_n _) E). reflexivity.
Qed.

(** X20.  The length of a text value is the number of strings iterating
    it gives, whatever bytes the value holds, as long as they decode. *)
Theorem text_value_len_counts_strings (self : APEValue_t) (l : list string) :
  APETextValue.iter self = Text l ->
  APETextValue.len self = zlen l.
Proof. apply text_len_iter. Qed.

Lemma text_value_len_counts_strings_witness :
  APETextValue.len (mkValue TEXT (list_byte_of_string "a" ++ [x00; x00] ++
                                  list_byte_of_string "b"))
  = zlen ["a"; ""; "b"]%string.
Proof.
  apply (text_value_len_counts_strings
           (mkValue TEXT (list_byte_of_string "a" ++ [x00; x00] ++
                          list_byte_of_string "b"))).
  reflexivity.
Defined.

(** X21.  Assigning a NUL-free string to a place of a text value replaces
    that string and nothing else: the place reads back as the new string,
    the other places keep theirs, and length and kind do not change.  A
    negative place counts from the end; a place outside the list is
    refused with [IndexError]. *)
Theorem text_value_setitem (self : APEValue_t) (l : list string)
        (index : Z) (s : string) :
  APETextValue.iter self = Text l -> nul_free s ->
  match list_index l index with
  | Some n =>
      exists self',
        APETextValue.setitem self index s = Text self' /\
        APETextValue.iter self' = Text (list_assign l n s) /\
        APETextValue.getitem self' index = Text s /\
        APETextValue.len self' = APETextValue.len self /\
        kind self' = kind self
  | None => APETextValue.setitem self index s = RaisedIndexError
  end.
Proof.
  intros Hi Hs. unfold APETextValue.setitem. rewrite Hi.
  destruct (list_index l index) as [n|] eqn:En; [|reflexivity].
  eexists. split; [reflexivity|].
  pose proof (list_index_bound l index n En) as Hn.
  assert (Hparts : Forall nul_free l).
  { unfold APETextValue.iter in Hi. destruct (APETextValue.str self);
      try discriminate. inversion Hi. apply split_nul_parts. }
  assert (Hnew : Forall nul_free (list_assign l n s)).
  { clear - Hparts Hs. revert n. induction l as [|a l IH]; intros [|n]; cbn;
      try constructor; try exact Hs;
      try exact (Forall_inv Hparts); try exact (Forall_inv_tail Hparts).
    apply IH. exact (Forall_inv_tail Hparts). }
  assert (Hit : APETextValue.iter
                  (mkValue (kind self)
                     (encode_utf8 (join_str_nul (list_assign l n s))))
                = Text (list_assign l n s)).
  { rewrite text_iter_encoded. rewrite split_join; [reflexivity| |exact Hnew].
    intros E. apply (f_equal (@length string)) in E.
    rewrite length_list_assign in E. cbn in E. lia. }
  split; [exact Hit|]. split; [|split; [|reflexivity]].
  - unfold APETextValue.getitem. rewrite Hit.
    rewrite (list_index_same_length (list_assign l n s) l index)
      by apply length_list_assign.
    rewrite En. rewrite nth_list_assign by exact Hn.
    rewrite Nat.eqb_refl. reflexivity.
  - rewrite (text_len_iter _ _ Hit).
    rewrite (text_len_iter _ _ Hi).
    unfold zlen. rewrite length_list_assign. reflexivity.
Qed.

Lemma text_value_setitem_witness :
  let self := guessed (PyList ["a"; "b"; "c"]%string) in
  exists self',
    APETextValue.setitem self (-1) "z" = Text self' /\
    APETextValue.iter self' = Text (list_assign ["a"; "b"; "c"]%string 2 "z"%string) /\
    APETextValue.getitem self' (-1) = Text "z"%string /\
    APETextValue.len self' = APETextValue.len self /\
    kind self' = kind self.
Proof.
  intro self.
  apply (text_value_setitem self ["a"; "b"; "c"]%string (-1) "z"%string).
  - reflexivity.
  - repeat constructor.
Defined.

(** * Saving and deleting, end to end *)

Lemma init_saved_span (P tags ft bv bs bi bf : bytes) (n : Z) :
  32 <= zlen P ->
  ft = APETAGEX ++ bv ++ bs ++ bi ++ bf ++ zeros 8 ->
  zlen bv = 4 -> zlen bs = 4 -> zlen bi = 4 -> zlen bf = 4 ->
  uint_le bs = Some (zlen tags + 32) -> uint_le bi = Some n ->
  uint_le bf = Some HAS_HEADER ->
  cookie_at (P ++ tags ++ ft) (zlen P - 32 - 24) = false ->
  exists d f',
    APEv2Data_init (open_file (P ++ tags ++ ft)) = (Ret d, f') /\
    start d = Some (zlen P - 32) /\
    end_ d = Some (zlen (P ++ tags ++ ft)) /\
    size d = Some (zlen tags + 32) /\ is_at_start d = false.
Proof.
  intros HP Hft Lv Ls Li Lf Us Ui Uf Hstray.
  set (X := P ++ tags ++ ft).
  assert (Lft : zlen ft = 32).
  { rewrite Hft, !zlen_app, Lv, Ls, Li, Lf. reflexivity. }
  assert (LX : zlen X = zlen P + zlen tags + 32).
  { unfold X. rewrite !zlen_app, Lft. lia. }
  pose proof (zlen_nonneg tags) as Ht.
  assert (HX : forall a b c p k,
             X = a ++ b ++ c -> zlen a = p -> zlen b = k ->
             ztake k (zdrop p X) = b).
  { intros a b c p k -> Ha Hb. now apply slice_at. }
  assert (S0 : ztake 8 (zdrop (zlen X - 32) X) = APETAGEX).
  { apply (HX (P ++ tags) APETAGEX (bv ++ bs ++ bi ++ bf ++ zeros 8)).
    - unfold X. rewrite Hft, <- !app_assoc. reflexivity.
    - rewrite zlen_app. lia.
    - reflexivity. }
  assert (S1 : ztake 4 (zdrop (zlen X - 32 + 8) X) = bv).
  { apply (HX ((P ++ tags) ++ APETAGEX) bv (bs ++ bi ++ bf ++ zeros 8)).
    - unfold X. rewrite Hft, <- !app_assoc. reflexivity.
    - rewrite !zlen_app. change (zlen APETAGEX) with 8. lia.
    - exact Lv. }
  assert (S2 : ztake 4 (zdrop (zlen X - 32 + 8 + 4) X) = bs).
  { apply (HX (((P ++ tags) ++ APETAGEX) ++ bv) bs (bi ++ bf ++ zeros 8)).
    - unfold X. rewrite Hft, <- !app_assoc. reflexivity.
    - rewrite !zlen_app. change (zlen APETAGEX) with 8. lia.
    - exact Ls. }
  assert (S3 : ztake 4 (zdrop (zlen X - 32 + 8 + 4 + 4) X) = bi).
  { apply (HX ((((P ++ tags) ++ APETAGEX) ++ bv) ++ bs) bi (bf ++ zeros 8)).
    - unfold X. rewrite Hft, <- !app_assoc. reflexivity.
    - rewrite !zlen_app. change (zlen APETAGEX) with 8. lia.
    - exact Li. }
  assert (S4 : ztake 4 (zdrop (zlen X - 32 + 8 + 4 + 4 + 4) X) = bf).
  { apply (HX (((((P ++ tags) ++ APETAGEX) ++ bv) ++ bs) ++ bi) bf (zeros 8)).
    - unfold X. rewrite Hft, <- !app_assoc. reflexivity.
    - rewrite !zlen_app. change (zlen APETAGEX) with 8. lia.
    - exact Lf. }
  assert (S5 : ztake (zlen tags + 32) (zdrop (zlen X - (zlen tags + 32)) X) = tags ++ ft).
  { unfold X at 2. apply slice_to_end; [lia|]. rewrite zlen_app. lia. }
  assert (Hcookie : cookie_at X (zlen X - 32) = true).
  { unfold cookie_at. rewrite S0, bytes_eqb_refl.
    destruct (Z.leb_spec 0 (zlen X - 32)); [reflexivity|lia]. }
  unfold APEv2Data_init.
  erewrite bind_ret by (apply (find_metadata_footer new_data (open_file X)); exact Hcookie).
  cbn [open_file content reads app header footer set_metadata set_footer new_data
       max_offset start data end_ metadata tag version size items flags is_at_start].
  erewrite bind_ret.
  2:{ unfold fill_missing. io_seek.
      io_read. rewrite S1. rewrite ?Lv.
      io_read. rewrite S2. rewrite ?Ls.
      rewrite Us. cbn [lift_struct]. rewrite bind_ret_l.
      io_read. rewrite S3. rewrite ?Li.
      rewrite Ui. cbn [lift_struct]. rewrite bind_ret_l.
      io_read. rewrite S4. rewrite ?Lf.
      rewrite Uf. cbn [lift_struct]. rewrite bind_ret_l.
      cbn [header footer set_fields].
      change (Z.land HAS_HEADER HAS_HEADER =? 0) with false. cbv iota.
      reflexivity. }
  match goal with |- context [bind (fix_brokenness ?s) _ ?f] =>
    destruct (fix_brokenness_total s f (zlen X - 32 + 32 - (zlen tags + 32) - 32))
      as (st & f2 & Hfix & Hcont); [reflexivity|lia|];
    pose proof (fix_brokenness_chain s _ f f2
                  (zlen X - 32 + 32 - (zlen tags + 32) - 32) 0 Hfix eq_refl) as Hst
  end.
  cbn [content start set_start] in Hst.
  assert (Est : st = zlen P - 32).
  { assert (E : Some st = Some (zlen X - 32 + 32 - (zlen tags + 32) - 32 - 24 * Z.of_nat 0)).
    { apply Hst; [intros i Hi; cbn in Hi; lia|].
      replace (zlen X - 32 + 32 - (zlen tags + 32) - 32 - 24 * (Z.of_nat 0 + 1))
        with (zlen P - 32 - 24) by (cbn; lia).
      exact Hstray. }
    apply some_inj in E. cbn in E. lia. }
  subst st.
  erewrite bind_ret by exact Hfix.
  cbn [content] in Hcont.
  cbn [data size set_start set_header set_data set_end set_fields].
  erewrite bind_ret by (apply seek_set_ok; lia).
  erewrite bind_ret by (apply read_ok; lia).
  cbn [pos content reads]. rewrite Hcont.
  replace (zlen X - 32 + 32 - (zlen tags + 32)) with (zlen X - (zlen tags + 32)) by lia.
  rewrite S5.
  eexists _, _. split; [reflexivity|]. cbn.
  repeat split; f_equal; lia.
Qed.

Lemma cookie_at_prefix (P R : bytes) (p : Z) :
  p + 8 <= zlen P -> cookie_at (P ++ R) p = cookie_at P p.
Proof.
  intros H. unfold cookie_at. destruct (Z.leb_spec 0 p); [|reflexivity].
  cbn [andb]. f_equal. list_ext.
Qed.

Lemma rendered_shape (self : APEv2) (t : bytes) :
  rendered self = Some t ->
  exists hd tags ft bv bs bi bf n,
    t = hd ++ tags ++ ft /\ zlen hd = 32 /\
    ft = APETAGEX ++ bv ++ bs ++ bi ++ bf ++ zeros 8 /\
    zlen bv = 4 /\ zlen bs = 4 /\ zlen bi = 4 /\ zlen bf = 4 /\
    uint_le bs = Some (zlen tags + 32) /\ uint_le bi = Some n /\
    uint_le bf = Some HAS_HEADER.
Proof.
  unfold rendered. intros Hr.
  destruct (fst (tag_items self)) as [its| |]; try discriminate.
  destruct (internal_all its) as [enc|]; [|discriminate].
  match type of Hr with
  | match ?x with _ => _ end = _ => destruct x as [hd|] eqn:Ehd; [|discriminate Hr]
  end.
  match type of Hr with
  | match ?x with _ => _ end = _ => destruct x as [ft|] eqn:Eft; [|discriminate Hr]
  end.
  apply some_inj in Hr. subst t.
  apply pack_tag_header_inv in Ehd as (_ & _ & _ & _ & _ & _ & _ & _ & _ & _ & _ & _ & Lhd).
  apply pack_tag_header_inv in Eft
    as (bv & bs & bi & bf & Hft & Lv & Ls & Li & Lf & Us & Ui & Uf & Lft).
  exists hd, (concat (sorted_by zlen enc)), ft, bv, bs, bi, bf, (zlen (sorted_by zlen enc)).
  repeat split; assumption.
Qed.

Lemma init_after_save (self : APEv2) (P t : bytes) :
  rendered self = Some t ->
  cookie_at P (zlen P - 24) = false ->
  64 <= zlen t /\
  exists d f',
    APEv2Data_init (open_file (P ++ t)) = (Ret d, f') /\
    start d = Some (zlen P) /\ end_ d = Some (zlen (P ++ t)) /\
    (exists sz, size d = Some sz) /\ is_at_start d = false.
Proof.
  intros Hr Hstray.
  destruct (rendered_shape self t Hr)
    as (hd & tags & ft & bv & bs & bi & bf & n & -> & Lhd & Hft & Lv & Ls & Li & Lf
        & Us & Ui & Uf).
  assert (Lft : zlen ft = 32).
  { rewrite Hft, !zlen_app, Lv, Ls, Li, Lf. reflexivity. }
  pose proof (zlen_nonneg tags) as Ht. pose proof (zlen_nonneg P) as HP.
  split; [rewrite !zlen_app; lia|].
  replace (P ++ hd ++ tags ++ ft) with ((P ++ hd) ++ tags ++ ft)
    by (rewrite <- app_assoc; reflexivity).
  destruct (init_saved_span (P ++ hd) tags ft bv bs bi bf n)
    as (d & f' & Hinit & Hs & He & Hsz & Has); auto.
  { rewrite zlen_app. lia. }
  { rewrite zlen_app, Lhd.
    replace (zlen P + 32 - 32 - 24) with (zlen P - 24) by lia.
    rewrite <- app_assoc. rewrite cookie_at_prefix by lia. exact Hstray. }
  exists d, f'. split; [exact Hinit|].
  rewrite zlen_app, Lhd in Hs.
  replace (zlen P + 32 - 32) with (zlen P) in Hs by lia.
  split; [exact Hs|]. split; [exact He|]. split; [eauto|exact Has].
Qed.

(** X22.  Saving to a file that ends in a tag [save] wrote replaces that
    tag and touches nothing before it: the bytes in front stay and the new
    tag follows them, provided no stray cookie sits 24 bytes before the
    old tag.  Saving the same tag again therefore leaves the file as it
    is. *)
Theorem save_over_saved_tag
        (pf : platform) (old new : APEv2) (P t0 t : bytes) :
  rendered old = Some t0 -> rendered new = Some t ->
  cookie_at P (zlen P - 24) = false ->
  exists f',
    save pf new (open_file (P ++ t0)) = (Ret tt, f') /\
    content f' = P ++ t.
Proof.
  intros H0 H1 Hstray.
  destruct (init_after_save old P t0 H0 Hstray)
    as (Hlen & d & f1 & Hinit & Hs & He & _ & Has).
  destruct (save_ok pf new (P ++ t0) t d f1 Hinit) as (f' & Hsave & Hc).
  { intros e Ee. rewrite He in Ee. apply some_inj in Ee. lia. }
  { exact H1. }
  exists f'. split; [exact Hsave|]. rewrite Hc. f_equal.
  unfold without_tag. rewrite Hs, He, Has. apply ztake_app_exact.
Qed.

Lemma save_over_saved_tag_witness :
  exists f',
    save (mkPlatform false true) artist_tag
         (open_file (list_byte_of_string "audio" ++ empty_tag_bytes)) = (Ret tt, f') /\
    content f' = list_byte_of_string "audio"
                 ++ content (snd (save (mkPlatform true true) artist_tag (open_file []))).
Proof.
  apply (save_over_saved_tag (mkPlatform false true) new_tag artist_tag
           (list_byte_of_string "audio")); vm_compute; reflexivity.
Defined.

(** X23.  Deleting undoes saving: when the locator finds no tag in a file
    and no stray cookie sits 24 bytes before its end, [save] followed by
    [delete] returns normally and leaves the file exactly as it was. *)
Theorem delete_undoes_save
        (pf pf' : platform) (self : APEv2) (c t : bytes)
        (d : APEv2Data) (f1 : fobj) :
  APEv2Data_init (open_file c) = (Ret d, f1) -> start d = None ->
  rendered self = Some t ->
  cookie_at c (zlen c - 24) = false ->
  exists f' f'',
    save pf self (open_file c) = (Ret tt, f') /\
    delete_tag pf' (open_file (content f')) = (Ret tt, f'') /\
    content f'' = c.
Proof.
  intros Hinit Hstart Hr Hstray.
  destruct (save_ok pf self c t d f1 Hinit) as (f' & Hsave & Hc).
  { intros e Ee. pose proof (init_no_start c d f1 Hinit Hstart) as Has.
    destruct (init_inv _ _ _ Hinit) as (d0 & f0 & Hfind & [(H1 & H2 & ->)|Hrest]).
    - destruct (find_metadata_cases c d0 f0 Hfind) as [->|[_ ->]].
      + discriminate.
      + unfold found in Ee.
        destruct (cookie_at c (zlen c - 32)); [discriminate|].
        destruct (footer_behind_trailer c); [discriminate|].
        destruct (cookie_at c 0); discriminate.
    - destruct Hrest as (m & d1 & f2 & d2 & f3 & _ & _ & Hfix & Hd).
      exfalso.
      assert (Hs2 : exists s, start d2 = Some s).
      { unfold fix_brokenness in Hfix.
        destruct (match header d1 with Some h => Some h | None => data d1 end);
          [|discriminate].
        bind_inv Hfix. bind_inv Hfix. inversion Hfix. cbn. eauto. }
      destruct Hs2 as (s & Hs2).
      destruct Hd as [->|(tg & ->)]; [congruence|].
      destruct (set_tag_fields d2 (Some tg)) as (E & _). congruence. }
  { exact Hr. }
  assert (Hw : without_tag c d = c) by (unfold without_tag; rewrite Hstart; reflexivity).
  rewrite Hw in Hc.
  destruct (init_after_save self c t Hr Hstray)
    as (Hlen & d' & f2 & Hinit' & Hs & He & (sz & Hsz) & Has).
  destruct (delete_tag_ok pf' (c ++ t) d' f2 (zlen c) (zlen (c ++ t)) sz Hinit' Hs He Hsz)
    as (f'' & Hdel & Hc'').
  { apply zlen_nonneg. }
  { rewrite zlen_app. lia. }
  { lia. }
  exists f', f''. split; [exact Hsave|]. rewrite Hc. split; [exact Hdel|].
  rewrite Hc''. rewrite ztake_app_exact, zdrop_all by lia. apply app_nil_r.
Qed.

Lemma delete_undoes_save_witness :
  exists f' f'',
    save (mkPlatform true true) artist_tag (open_file (list_byte_of_string "audio"))
    = (Ret tt, f') /\
    delete_tag (mkPlatform false false) (open_file (content f')) = (Ret tt, f'') /\
    content f'' = list_byte_of_string "audio".
Proof.
  eapply (delete_undoes_save (mkPlatform true true) (mkPlatform false false)
            artist_tag (list_byte_of_string "audio")); vm_compute; reflexivity.
Defined.

(** X24.  Locating a tag only reads: whatever [_APEv2Data(fileobj)] finds
    and however it ends, a result or an exception, the contents of the
    file are what they were. *)
Theorem locator_never_writes (f : fobj) :
  content (snd (APEv2Data_init f)) = content f.
Proof.
  destruct (APEv2Data_init f) as [r f'] eqn:E. cbn [snd].
  exact (readonly_init f r f' E).
Qed.

Lemma init_short (c : bytes) :
  zlen c < 32 ->
  exists f', APEv2Data_init (open_file c) = (Ret new_data, f') /\ content f' = c.
Proof.
  intros H.
  destruct (find_metadata_short new_data (open_file c) H) as (f' & Hf).
  exists f'. assert (E : APEv2Data_init (open_file c) = (Ret new_data, f')).
  { unfold APEv2Data_init. erewrite bind_ret by exact Hf. reflexivity. }
  split; [exact E|]. exact (readonly_init _ _ _ E).
Qed.

(** X25.  A file shorter than 32 bytes is never found to hold a tag, not
    even when it starts with the cookie: the locator fills in nothing,
    [load] raises [APENoHeaderError] and leaves the mapping alone, the
    file part of [delete] leaves the file alone, and [save] appends. *)
Theorem short_file_has_no_tag
        (pf : platform) (self : APEv2) (c : bytes) :
  zlen c < 32 ->
  (exists f', APEv2Data_init (open_file c) = (Ret new_data, f')) /\
  load c self = (Raise APENoHeaderError, self) /\
  (exists f', delete_tag pf (open_file c) = (Ret tt, f') /\ content f' = c) /\
  (forall t, rendered self = Some t ->
     exists f', save pf self (open_file c) = (Ret tt, f') /\ content f' = c ++ t).
Proof.
  intros H. destruct (init_short c H) as (f1 & Hinit & Hc).
  split; [eauto|]. split; [|split].
  - unfold load, bind, with_file. rewrite Hinit. reflexivity.
  - exists f1. split; [|exact Hc].
    unfold delete_tag. erewrite bind_ret by exact Hinit. reflexivity.
  - intros t Hr.
    destruct (save_ok pf self c t new_data f1 Hinit) as (f' & Hs & Hc').
    { intros e He. discriminate. }
    { exact Hr. }
    exists f'. split; [exact Hs|]. exact Hc'.
Qed.

Lemma short_file_has_no_tag_witness :
  (exists f', APEv2Data_init (open_file APETAGEX) = (Ret new_data, f')) /\
  load APETAGEX artist_tag = (Raise APENoHeaderError, artist_tag) /\
  (exists f', delete_tag (mkPlatform true true) (open_file APETAGEX) = (Ret tt, f')
              /\ content f' = APETAGEX) /\
  (forall t, rendered artist_tag = Some t ->
     exists f', save (mkPlatform true true) artist_tag (open_file APETAGEX) = (Ret tt, f')
                /\ content f' = APETAGEX ++ t).
Proof.
  apply (short_file_has_no_tag (mkPlatform true true) artist_tag APETAGEX).
  vm_compute. reflexivity.
Defined.

(** X26.  [APEv2.delete] on a file in which the locator finds no tag
    leaves the file as it is and still empties the mapping. *)
Theorem delete_without_tag_clears_mapping
        (pf : platform) (self : APEv2) (c : bytes) (d : APEv2Data) (f1 : fobj) :
  tag_inv self ->
  APEv2Data_init (open_file c) = (Ret d, f1) -> start d = None ->
  exists self' f',
    APEv2_delete pf (self, open_file c) = (Ret tt, (self', f')) /\
    content f' = c /\ keys self' = [].
Proof.
  intros Ht Hinit Hs.
  exists (mkTag (casemap self) []), f1. split; [|split; [|reflexivity]].
  - unfold APEv2_delete.
    assert (E : delete_tag pf (open_file c) = (Ret tt, f1)).
    { unfold delete_tag. erewrite bind_ret by exact Hinit. rewrite Hs. reflexivity. }
    rewrite E, (clear_run self Ht). reflexivity.
  - exact (readonly_init _ _ _ Hinit).
Qed.

Lemma delete_without_tag_clears_mapping_witness :
  exists self' f',
    APEv2_delete (mkPlatform true true) (artist_tag, open_file id3v1_only_file)
    = (Ret tt, (self', f')) /\
    content f' = id3v1_only_file /\ keys self' = [].
Proof.
  eapply (delete_without_tag_clears_mapping (mkPlatform true true) artist_tag
            id3v1_only_file).
  - unfold artist_tag. rewrite setitem_run by reflexivity.
    apply tag_inv_set; [apply tag_inv_new|reflexivity].
  - vm_compute. reflexivity.
  - reflexivity.
Defined.

Lemma startswith_take (l n : bytes) :
  startswith l n = true <-> firstn (length n) l = n.
Proof.
  revert l. induction n as [|p ps IH]; intros l.
  - destruct l; cbn; split; auto.
  - destruct l as [|b r]; cbn [startswith length firstn].
    + split; discriminate.
    + split.
      * intros H. apply andb_prop in H as [Hb Hr].
        apply Byte.byte_dec_bl in Hb. subst b. f_equal. now apply IH.
      * intros H. inversion H as [[Hb Hr]]. rewrite Hr.
        apply andb_true_intro. split; [apply Byte.byte_dec_lb; reflexivity|].
        apply IH. congruence.
Qed.

Lemma contains_skipn (n : bytes) (k : nat) :
  forall l, startswith (skipn k l) n = true -> contains l n = true.
Proof.
  induction k as [|k IH]; intros l H.
  - change (skipn 0 l) with l in H.
    destruct l; cbn [contains]; rewrite H; reflexivity.
  - destruct l as [|b r].
    + change (skipn (S k) (@nil byte)) with (@nil byte) in H.
      cbn [contains]. rewrite H. reflexivity.
    + cbn [skipn] in H. cbn [contains]. rewrite (IH r H). apply orb_true_r.
Qed.

Lemma contains_inv (n : bytes) :
  forall l, contains l n = true -> exists k, startswith (skipn k l) n = true.
Proof.
  induction l as [|b r IH]; cbn [contains]; intros H.
  - exists O. rewrite orb_false_r in H. exact H.
  - apply orb_prop in H as [H|H].
    + exists O. exact H.
    + destruct (IH H) as (k & Hk). exists (S k). exact Hk.
Qed.

Lemma cookie_at_startswith (c : bytes) (p : Z) :
  0 <= p -> cookie_at c p = startswith (skipn (Z.to_nat p) c) APETAGEX.
Proof.
  intros Hp. unfold cookie_at. destruct (Z.leb_spec 0 p); [|lia]. cbn [andb].
  destruct (startswith (skipn (Z.to_nat p) c) APETAGEX) eqn:E.
  - apply startswith_take in E. apply bytes_eqb_eq. exact E.
  - destruct (bytes_eqb (ztake 8 (zdrop p c)) APETAGEX) eqn:E'; [|reflexivity].
    apply bytes_eqb_eq in E'.
    assert (E2 : startswith (skipn (Z.to_nat p) c) APETAGEX = true)
      by (apply startswith_take; exact E').
    congruence.
Qed.

Lemma score_run (header c : bytes) :
  score header (open_file c) =
    (Ret ((if contains (zdrop (zlen c - 160) c) APETAGEX then 1 else 0)
          - (if startswith header (list_byte_of_string "ID3") then 1 else 0)),
     mkFobj c (zlen c) [(Z.max 0 (zlen c - 160), -1)]).
Proof.
  unfold score. pose proof (zlen_nonneg c) as Hc.
  destruct (Z.le_gt_cases 160 (zlen c)) as [Hl|Hs].
  - erewrite bind_ret.
    2:{ apply try_except_ret. apply seek_end_ok. cbn [content open_file]. lia. }
    cbn [open_file content reads].
    unfold bind, read, ret. cbn [pos content reads].
    replace (zlen c + -160) with (zlen c - 160) by lia.
    change (-1 <? -1) with false. change (-1 =? -1) with true. cbv iota beta.
    rewrite Z.max_r by lia. rewrite zlen_zdrop. cbn [app].
    do 2 f_equal. lia.
  - erewrite bind_ret.
    2:{ erewrite try_except_catch;
          [apply seek_set_ok; lia
          |apply seek_end_fail; cbn [content open_file]; lia
          |reflexivity]. }
    cbn [open_file content reads].
    unfold bind, read, ret. cbn [pos content reads].
    change (-1 <? -1) with false. change (-1 =? -1) with true. cbv iota beta.
    rewrite Z.max_l by lia. rewrite !zdrop_0 by lia. cbn [app].
    reflexivity.
Qed.

(** X27.  [APEv2File.score] only reads the file, and what it returns is
    decided by the last 160 bytes: it counts one for the file exactly when
    the cookie occurs at some offset within them, and takes one off when
    the header starts with [ID3]. *)
Theorem score_counts_trailing_cookie (header c : bytes) :
  exists v f',
    score header (open_file c) = (Ret v, f') /\ content f' = c /\
    (v = 1 - (if startswith header (list_byte_of_string "ID3") then 1 else 0) \/
     v = - (if startswith header (list_byte_of_string "ID3") then 1 else 0)) /\
    (v = 1 - (if startswith header (list_byte_of_string "ID3") then 1 else 0) <->
     exists p, zlen c - 160 <= p /\ cookie_at c p = true).
Proof.
  eexists _, _. split; [apply score_run|]. split; [reflexivity|].
  set (id3 := if startswith header (list_byte_of_string "ID3") then 1 else 0).
  pose proof (zlen_nonneg c) as Hc.
  destruct (contains (zdrop (zlen c - 160) c) APETAGEX) eqn:E.
  - split; [left; reflexivity|]. split; [intros _|reflexivity].
    apply contains_inv in E as (k & Hk). unfold zdrop in Hk.
    rewrite skipn_skipn in Hk.
    exists (Z.of_nat (k + Z.to_nat (zlen c - 160))). split; [lia|].
    rewrite cookie_at_startswith by lia. rewrite Nat2Z.id. exact Hk.
  - split; [right; lia|]. split; [lia|].
    intros (p & Hp & Hcookie). exfalso.
    destruct (cookie_at_true c p Hcookie) as [Hp0 _].
    rewrite cookie_at_startswith in Hcookie by lia.
    assert (Hk : startswith (skipn (Z.to_nat p - Z.to_nat (zlen c - 160))
                               (zdrop (zlen c - 160) c)) APETAGEX = true).
    { unfold zdrop. rewrite skipn_skipn.
      replace (Z.to_nat p - Z.to_nat (zlen c - 160) + Z.to_nat (zlen c - 160))%nat
        with (Z.to_nat p) by lia.
      exact Hcookie. }
    apply contains_skipn in Hk. congruence.
Qed.
